(** * DeadMansSwitchV2: storage encoding and switch state machine

    Shallow embedding of the contract class [DeadMansSwitchV2]
    (sub-pointer codec, multi-slot byte store, record storage maps,
    ownership index, public operations) together with the properties
    of its specification.

    Unsigned machine integers ([u16], [u32], [u64], [u256]) are
    modelled as [N] with the wrap-around written out; byte arrays
    ([Uint8Array], [Address]) are lists of [Byte.byte]; the ledger
    storage is a finite map from 32-byte keys to 32-byte values, both
    read as big-endian 256-bit numbers. *)

From Stdlib Require Import NArith ZArith Lia List Strings.String Strings.Byte.
From stdpp Require Import base numbers option list gmap strings.

Local Open Scope N_scope.

(** ** Bytes and big-endian numbers *)

Abbreviation byte := Byte.byte.

#[global] Instance byte_eq_dec : EqDecision byte := Byte.byte_eq_dec.
#[global] Instance byte_inhabited : Inhabited byte := populate Byte.x00.

(** [u32(b)] for a byte [b]. *)
Definition b2n (b : byte) : N := Byte.to_N b.

(** [u8(x)]: the low eight bits of [x]. *)
Definition u8 (x : N) : byte := default Byte.x00 (Byte.of_N (x mod 256)).

Definition u32 (x : N) : N := x mod 2 ^ 32.
Definition u64 (x : N) : N := x mod 2 ^ 64.

Definition U256_LIMIT : N := 2 ^ 256.

(** [n] bytes, most significant first, of [v mod 256^n]. *)
Fixpoint toBytesBE (n : nat) (v : N) : list byte :=
  match n with
  | O => []
  | S k => toBytesBE k (v / 256) ++ [u8 v]
  end.

Definition fromBytesBE (l : list byte) : N :=
  fold_left (fun acc b => acc * 256 + b2n b) l 0.

(** [new Uint8Array(n)]. *)
Definition zeroBytes (n : nat) : list byte := replicate n Byte.x00.

(** ** The runtime the contract is linked against

    [u256], [SafeMath], [encodePointer], [bigEndianAdd] and the
    [Blockchain] storage accessors are imported by the contract from
    its runtime packages. *)

Inductive result (A : Type) : Type :=
  | Ok (a : A)
  | Revert (msg : string).
Arguments Ok {A} a.
Arguments Revert {A} msg.

#[global] Instance result_ret : MRet result := fun A a => Ok a.
#[global] Instance result_bind : MBind result := fun A B f r =>
  match r with
  | Ok a => f a
  | Revert msg => Revert msg
  end.

Definition succeeds {A} (r : result A) : Prop := ∃ a, r = Ok a.
Definition fails {A} (r : result A) : Prop := ∃ msg, r = Revert msg.

(** [value.toUint8Array(true)] and [u256.fromUint8ArrayBE(slot)]. *)
Definition u256_toUint8Array (v : N) : list byte := toBytesBE 32 v.
Definition u256_fromUint8ArrayBE (slot : list byte) : N := fromBytesBE slot.

(** Modelled from the spec: [SafeMath.add] and [SafeMath.sub] of the
    runtime (section 4.5: checked arithmetic, an overflow or underflow
    aborts the operation). *)
Definition SafeMath_add (a b : N) : result N :=
  let c := (a + b) mod U256_LIMIT in
  if c <? a then Revert "SafeMath: addition overflow" else Ok c.

Definition SafeMath_sub (a b : N) : result N :=
  if a <? b then Revert "SafeMath: subtraction underflow" else Ok (a - b).

(** Modelled from the spec: the durable key-value substrate of
    section 6.  A key and a value are 32-byte buffers, held as the
    256-bit numbers they denote big-endian; a key never written reads
    as 32 zero bytes. *)
Definition Blockchain_getStorageAt (key : N) (st : gmap N N) : list byte :=
  toBytesBE 32 (default 0 (st !! key)).

Definition Blockchain_setStorageAt (key : N) (value : list byte)
    (st : gmap N N) : gmap N N :=
  <[key := fromBytesBE value]> st.

(** Modelled from the spec: [encodePointer] of the runtime, the
    [derive(pointerNamespace, subPointer)] of section 6.  The 32-byte
    key is the namespace as two bytes, low byte first, followed by the
    30 bytes of the sub-pointer. *)
Definition encodePointer (pointer : N) (subPointer : list byte) : N :=
  N.land pointer 255 * 2 ^ 248
  + N.land (N.shiftr pointer 8) 255 * 2 ^ 240
  + fromBytesBE subPointer.

(** Modelled from the spec: [bigEndianAdd] of the runtime (section 6:
    slot key = base key plus N, big-endian integer addition over the
    32 bytes of the key). *)
Definition bigEndianAdd (base : N) (increment : N) : N :=
  (base + increment) mod U256_LIMIT.

(** ** Sub-pointer codec *)

(** [for (i = 0; i < n; i++) dst[dOff + i] = src[sOff + i]], the loop
    counter being [i]; an index stays inside both arrays at each use in
    this contract. *)
Fixpoint copyLoop (n i : nat) (dst src : list byte) (dOff sOff : nat)
    : list byte :=
  match n with
  | O => dst
  | S n' =>
      copyLoop n' (S i) (<[(dOff + i)%nat := src !!! (sOff + i)%nat]> dst)
        src dOff sOff
  end.

(** [for (i = 0; i < n; i++) result[i] = a[i] ^ b[i]]. *)
Fixpoint xorLoop (n i : nat) (result a b : list byte) : list byte :=
  match n with
  | O => result
  | S n' =>
      xorLoop n' (S i)
        (<[i := u8 (N.lxor (b2n (a !!! i)) (b2n (b !!! i)))]> result) a b
  end.

Definition u256ToSubPointer (value : N) : list byte :=
  let bytes32 := u256_toUint8Array value in
  copyLoop 30 0 (zeroBytes 30) bytes32 0 2.

Definition addressToSubPointer (addr : list byte) : list byte :=
  copyLoop 30 0 (zeroBytes 30) addr 0 2.

Definition addressIndexSubPointer (addr : list byte) (index : N) : list byte :=
  let addrSub := addressToSubPointer addr in
  let idxSub := u256ToSubPointer index in
  xorLoop 30 0 (zeroBytes 30) addrSub idxSub.

Definition compoundSubPointer (a b : N) : list byte :=
  let aSub := u256ToSubPointer a in
  let bSub := u256ToSubPointer b in
  xorLoop 30 0 (zeroBytes 30) aSub bSub.

(** ** Multi-slot byte store *)

Definition MAX_BYTE_SLOTS : N := 256.

(** The loop [for (; offset < length; slotIndex++)] of
    [storeMultiSlotBytes]; [offset] is a [u32], [slotIndex] a [u64].
    The host meters every call, so a loop that would not end is cut
    off: running out of [fuel] reverts. *)
Fixpoint storeLoop (fuel : nat) (baseKey : N) (data : list byte)
    (length offset slotIndex : N) (st : gmap N N) : result (gmap N N) :=
  if offset <? length then
    match fuel with
    | O => Revert "out of gas"
    | S fuel' =>
        let slotKey := bigEndianAdd baseKey slotIndex in
        let slotData := zeroBytes 32 in
        let remaining := length - offset in
        let toCopy := if remaining <? 32 then remaining else 32 in
        let slotData :=
          copyLoop (N.to_nat toCopy) 0 slotData data 0 (N.to_nat offset) in
        let st := Blockchain_setStorageAt slotKey slotData st in
        storeLoop fuel' baseKey data length (u32 (offset + 32))
          (u64 (slotIndex + 1)) st
    end
  else Ok st.

Definition storeMultiSlotBytes (pointer : N) (subPointer data : list byte)
    (st : gmap N N) : result (gmap N N) :=
  let length := u32 (N.of_nat (List.length data)) in
  let maxDataBytes := u32 (MAX_BYTE_SLOTS * 32 - 4) in
  if maxDataBytes <? length then
    Revert "Data exceeds maximum storage capacity"
  else
    let baseKey := encodePointer pointer subPointer in
    let slot0 := zeroBytes 32 in
    let slot0 := <[0%nat := u8 (N.land (N.shiftr length 24) 255)]> slot0 in
    let slot0 := <[1%nat := u8 (N.land (N.shiftr length 16) 255)]> slot0 in
    let slot0 := <[2%nat := u8 (N.land (N.shiftr length 8) 255)]> slot0 in
    let slot0 := <[3%nat := u8 (N.land length 255)]> slot0 in
    let firstChunkSize := if length <? 28 then length else 28 in
    let slot0 := copyLoop (N.to_nat firstChunkSize) 0 slot0 data 4 0 in
    let st := Blockchain_setStorageAt baseKey slot0 st in
    storeLoop (S (N.to_nat (length / 32))) baseKey data length 28 1 st.

(** The loop [for (; offset < length; slotIndex++)] of
    [loadMultiSlotBytes]. *)
Fixpoint loadLoop (fuel : nat) (baseKey : N) (length offset slotIndex : N)
    (res : list byte) (st : gmap N N) : result (list byte) :=
  if offset <? length then
    match fuel with
    | O => Revert "out of gas"
    | S fuel' =>
        let slotKey := bigEndianAdd baseKey slotIndex in
        let slotData := Blockchain_getStorageAt slotKey st in
        let remaining := length - offset in
        let toCopy := if remaining <? 32 then remaining else 32 in
        let res :=
          copyLoop (N.to_nat toCopy) 0 res slotData (N.to_nat offset) 0 in
        loadLoop fuel' baseKey length (u32 (offset + 32))
          (u64 (slotIndex + 1)) res st
    end
  else Ok res.

Definition loadMultiSlotBytes (pointer : N) (subPointer : list byte)
    (st : gmap N N) : result (list byte) :=
  let baseKey := encodePointer pointer subPointer in
  let slot0 := Blockchain_getStorageAt baseKey st in
  let b0 := b2n (slot0 !!! 0%nat) in
  let b1 := b2n (slot0 !!! 1%nat) in
  let b2 := b2n (slot0 !!! 2%nat) in
  let b3 := b2n (slot0 !!! 3%nat) in
  let length :=
    N.lor (N.lor (N.lor (u32 (N.shiftl b0 24)) (u32 (N.shiftl b1 16)))
             (u32 (N.shiftl b2 8))) b3 in
  if length =? 0 then Ok []
  else
    let res := zeroBytes (N.to_nat length) in
    let firstChunkSize := if length <? 28 then length else 28 in
    let res := copyLoop (N.to_nat firstChunkSize) 0 res slot0 0 4 in
    loadLoop (S (N.to_nat (length / 32))) baseKey length 28 1 res st.

(** ** Record storage maps *)

Definition STATUS_ACTIVE : N := 0.
Definition STATUS_TRIGGERED : N := 1.
Definition STATUS_CANCELLED : N := 2.

(** Pointer allocations, in declaration order (storage layout of the
    class comment). *)
Definition nextSwitchIdPointer : N := 0.
Definition switchOwnerPointer : N := 1.
Definition switchBeneficiaryPointer : N := 2.
Definition switchIntervalPointer : N := 3.
Definition switchGracePeriodPointer : N := 4.
Definition switchLastCheckinPointer : N := 5.
Definition switchStatusPointer : N := 6.
Definition switchTriggerBlockPointer : N := 7.
Definition switchChunkCountPointer : N := 8.
Definition switchEncryptedKeyPointer : N := 9.
Definition switchDataChunksPointer : N := 10.
Definition ownerSwitchCountPointer : N := 11.
Definition ownerSwitchIndexPointer : N := 12.

Definition EMPTY_POINTER : list byte := zeroBytes 30.
Definition Address_zero : list byte := zeroBytes 32.

(** Modelled from the spec: the runtime's [StoredU256] behind
    [nextSwitchId] (section 3, global counter): one [u256] kept in the
    storage slot of its pointer and sub-pointer. *)
Definition nextSwitchId_value (st : gmap N N) : N :=
  u256_fromUint8ArrayBE
    (Blockchain_getStorageAt (encodePointer nextSwitchIdPointer EMPTY_POINTER) st).

Definition nextSwitchId_set (value : N) (st : gmap N N) : gmap N N :=
  Blockchain_setStorageAt (encodePointer nextSwitchIdPointer EMPTY_POINTER)
    (u256_toUint8Array value) st.

Definition setAddressForSwitch (pointer switchId : N) (addr : list byte)
    (st : gmap N N) : gmap N N :=
  let subPtr := u256ToSubPointer switchId in
  let key := encodePointer pointer subPtr in
  Blockchain_setStorageAt key addr st.

Definition getAddressForSwitch (pointer switchId : N) (st : gmap N N)
    : list byte :=
  let subPtr := u256ToSubPointer switchId in
  let key := encodePointer pointer subPtr in
  Blockchain_getStorageAt key st.

Definition setU256ForSwitch (pointer switchId value : N) (st : gmap N N)
    : gmap N N :=
  let subPtr := u256ToSubPointer switchId in
  let key := encodePointer pointer subPtr in
  Blockchain_setStorageAt key (u256_toUint8Array value) st.

Definition getU256ForSwitch (pointer switchId : N) (st : gmap N N) : N :=
  let subPtr := u256ToSubPointer switchId in
  let key := encodePointer pointer subPtr in
  u256_fromUint8ArrayBE (Blockchain_getStorageAt key st).

Definition storeSwitchOwner := setAddressForSwitch switchOwnerPointer.
Definition loadSwitchOwner := getAddressForSwitch switchOwnerPointer.
Definition storeSwitchBeneficiary := setAddressForSwitch switchBeneficiaryPointer.
Definition loadSwitchBeneficiary := getAddressForSwitch switchBeneficiaryPointer.
Definition storeSwitchInterval := setU256ForSwitch switchIntervalPointer.
Definition loadSwitchInterval := getU256ForSwitch switchIntervalPointer.
Definition storeSwitchGracePeriod := setU256ForSwitch switchGracePeriodPointer.
Definition loadSwitchGracePeriod := getU256ForSwitch switchGracePeriodPointer.
Definition storeSwitchLastCheckin := setU256ForSwitch switchLastCheckinPointer.
Definition loadSwitchLastCheckin := getU256ForSwitch switchLastCheckinPointer.
Definition storeSwitchStatus := setU256ForSwitch switchStatusPointer.
Definition loadSwitchStatus := getU256ForSwitch switchStatusPointer.
Definition storeSwitchTriggerBlock := setU256ForSwitch switchTriggerBlockPointer.
Definition loadSwitchTriggerBlock := getU256ForSwitch switchTriggerBlockPointer.
Definition storeSwitchChunkCount := setU256ForSwitch switchChunkCountPointer.
Definition loadSwitchChunkCount := getU256ForSwitch switchChunkCountPointer.

(** ** Ownership index *)

Definition getOwnerSwitchCount (owner : list byte) (st : gmap N N) : N :=
  let subPtr := addressToSubPointer owner in
  let key := encodePointer ownerSwitchCountPointer subPtr in
  u256_fromUint8ArrayBE (Blockchain_getStorageAt key st).

Definition setOwnerSwitchCount (owner : list byte) (count : N)
    (st : gmap N N) : gmap N N :=
  let subPtr := addressToSubPointer owner in
  let key := encodePointer ownerSwitchCountPointer subPtr in
  Blockchain_setStorageAt key (u256_toUint8Array count) st.

Definition getOwnerSwitchAtIndex (owner : list byte) (index : N)
    (st : gmap N N) : N :=
  let subPtr := addressIndexSubPointer owner index in
  let key := encodePointer ownerSwitchIndexPointer subPtr in
  u256_fromUint8ArrayBE (Blockchain_getStorageAt key st).

Definition setOwnerSwitchAtIndex (owner : list byte) (index switchId : N)
    (st : gmap N N) : gmap N N :=
  let subPtr := addressIndexSubPointer owner index in
  let key := encodePointer ownerSwitchIndexPointer subPtr in
  Blockchain_setStorageAt key (u256_toUint8Array switchId) st.

Definition addSwitchToOwner (owner : list byte) (switchId : N)
    (st : gmap N N) : result (gmap N N) :=
  let currentCount := getOwnerSwitchCount owner st in
  let st := setOwnerSwitchAtIndex owner currentCount switchId st in
  newCount ← SafeMath_add currentCount 1;
  Ok (setOwnerSwitchCount owner newCount st).

(** ** Validation helpers *)

(** The ambient context of a call: [Blockchain.tx.sender] and
    [Blockchain.block.numberU256]. *)
Record Env : Type := {
  tx_sender : list byte;
  block_numberU256 : N
}.

Definition ensureSwitchExists (switchId : N) (st : gmap N N) : result unit :=
  let nextId := nextSwitchId_value st in
  if (switchId =? 0) || (nextId <=? switchId) then
    Revert "Switch does not exist"
  else Ok tt.

Definition ensureOwner (env : Env) (switchId : N) (st : gmap N N)
    : result unit :=
  let owner := loadSwitchOwner switchId st in
  if negb (bool_decide (tx_sender env = owner)) then
    Revert "Only owner can call this method"
  else Ok tt.

Definition ensureActive (switchId : N) (st : gmap N N) : result unit :=
  let currentStatus := loadSwitchStatus switchId st in
  if negb (currentStatus =? STATUS_ACTIVE) then Revert "Switch is not active"
  else Ok tt.

(** ** Switch state machine *)

Inductive NetEvent : Type :=
  | SwitchCreatedEvent (switchId : N) (owner beneficiary : list byte)
  | CheckedInEvent (switchId blockHeight : N)
  | DataStoredEvent (switchId chunkIndex : N)
  | SwitchTriggeredEvent (switchId : N) (beneficiary : list byte)
      (blockHeight : N)
  | SwitchCancelledEvent (switchId blockHeight : N)
  | BeneficiaryUpdatedEvent (switchId : N) (newBeneficiary : list byte).

(** The durable state of the contract: its storage and the events it
    has emitted.  A call that reverts leaves both as they were. *)
Record State : Type := {
  storage : gmap N N;
  events : list NetEvent
}.

Definition emitEvent (e : NetEvent) (st : gmap N N) (s : State) : State :=
  {| storage := st; events := events s ++ [e] |}.

Definition withStorage (st : gmap N N) (s : State) : State :=
  {| storage := st; events := events s |}.

Definition onDeployment (s : State) : State :=
  withStorage (nextSwitchId_set 1 (storage s)) s.

Definition createSwitch (env : Env) (beneficiary : list byte)
    (interval gracePeriod : N) (s : State) : result (N * State) :=
  let st := storage s in
  if bool_decide (beneficiary = Address_zero) then
    Revert "Beneficiary cannot be zero address"
  else if interval =? 0 then
    Revert "Heartbeat interval must be greater than zero"
  else if gracePeriod =? 0 then
    Revert "Grace period must be greater than zero"
  else
    let switchId := nextSwitchId_value st in
    let sender := tx_sender env in
    let currentBlock := block_numberU256 env in
    let st := storeSwitchOwner switchId sender st in
    let st := storeSwitchBeneficiary switchId beneficiary st in
    let st := storeSwitchInterval switchId interval st in
    let st := storeSwitchGracePeriod switchId gracePeriod st in
    let st := storeSwitchLastCheckin switchId currentBlock st in
    let st := storeSwitchStatus switchId STATUS_ACTIVE st in
    let st := storeSwitchTriggerBlock switchId 0 st in
    let st := storeSwitchChunkCount switchId 0 st in
    st ← addSwitchToOwner sender switchId st;
    nextId ← SafeMath_add switchId 1;
    let st := nextSwitchId_set nextId st in
    Ok (switchId, emitEvent (SwitchCreatedEvent switchId sender beneficiary) st s).

Definition checkin (env : Env) (switchId : N) (s : State)
    : result (bool * State) :=
  let st := storage s in
  _ ← ensureSwitchExists switchId st;
  _ ← ensureOwner env switchId st;
  _ ← ensureActive switchId st;
  let currentBlock := block_numberU256 env in
  let st := storeSwitchLastCheckin switchId currentBlock st in
  Ok (true, emitEvent (CheckedInEvent switchId currentBlock) st s).

Definition storeData (env : Env) (switchId chunkIndex : N)
    (encryptedData : list byte) (s : State) : result (bool * State) :=
  let st := storage s in
  _ ← ensureSwitchExists switchId st;
  _ ← ensureOwner env switchId st;
  _ ← ensureActive switchId st;
  if (List.length encryptedData =? 0)%nat then Revert "Data cannot be empty"
  else
    let subPtr := compoundSubPointer switchId chunkIndex in
    st ← storeMultiSlotBytes switchDataChunksPointer subPtr encryptedData st;
    let currentCount := loadSwitchChunkCount switchId st in
    indexPlusOne ← SafeMath_add chunkIndex 1;
    let st :=
      if currentCount <? indexPlusOne then
        storeSwitchChunkCount switchId indexPlusOne st
      else st in
    Ok (true, emitEvent (DataStoredEvent switchId chunkIndex) st s).

Definition storeDecryptionKey (env : Env) (switchId : N)
    (encryptedKey : list byte) (s : State) : result (bool * State) :=
  let st := storage s in
  _ ← ensureSwitchExists switchId st;
  _ ← ensureOwner env switchId st;
  _ ← ensureActive switchId st;
  if (List.length encryptedKey =? 0)%nat then
    Revert "Encrypted key cannot be empty"
  else
    let subPtr := u256ToSubPointer switchId in
    st ← storeMultiSlotBytes switchEncryptedKeyPointer subPtr encryptedKey st;
    Ok (true, withStorage st s).

Definition trigger (env : Env) (switchId : N) (s : State)
    : result (bool * State) :=
  let st := storage s in
  _ ← ensureSwitchExists switchId st;
  let currentStatus := loadSwitchStatus switchId st in
  if currentStatus =? STATUS_TRIGGERED then Revert "Switch already triggered"
  else if currentStatus =? STATUS_CANCELLED then
    Revert "Switch has been cancelled"
  else
    let currentBlock := block_numberU256 env in
    let lastCheck := loadSwitchLastCheckin switchId st in
    let interval := loadSwitchInterval switchId st in
    deadline ← SafeMath_add lastCheck interval;
    if currentBlock <=? deadline then Revert "Heartbeat has not expired yet"
    else
      let st := storeSwitchStatus switchId STATUS_TRIGGERED st in
      let st := storeSwitchTriggerBlock switchId currentBlock st in
      let beneficiary := loadSwitchBeneficiary switchId st in
      Ok (true,
          emitEvent (SwitchTriggeredEvent switchId beneficiary currentBlock)
            st s).

Definition cancel (env : Env) (switchId : N) (s : State)
    : result (bool * State) :=
  let st := storage s in
  _ ← ensureSwitchExists switchId st;
  _ ← ensureOwner env switchId st;
  let currentStatus := loadSwitchStatus switchId st in
  if negb (currentStatus =? STATUS_TRIGGERED) then
    Revert "Switch is not triggered"
  else
    let currentBlock := block_numberU256 env in
    let trigBlock := loadSwitchTriggerBlock switchId st in
    let grace := loadSwitchGracePeriod switchId st in
    graceDeadline ← SafeMath_add trigBlock grace;
    if graceDeadline <? currentBlock then Revert "Grace period has expired"
    else
      let st := storeSwitchStatus switchId STATUS_ACTIVE st in
      let st := storeSwitchLastCheckin switchId currentBlock st in
      let st := storeSwitchTriggerBlock switchId 0 st in
      Ok (true, emitEvent (SwitchCancelledEvent switchId currentBlock) st s).

Definition updateBeneficiary (env : Env) (switchId : N)
    (newBeneficiary : list byte) (s : State) : result (bool * State) :=
  let st := storage s in
  _ ← ensureSwitchExists switchId st;
  _ ← ensureOwner env switchId st;
  _ ← ensureActive switchId st;
  if bool_decide (newBeneficiary = Address_zero) then
    Revert "Beneficiary cannot be zero address"
  else
    let st := storeSwitchBeneficiary switchId newBeneficiary st in
    Ok (true, emitEvent (BeneficiaryUpdatedEvent switchId newBeneficiary) st s).

Definition updateInterval (env : Env) (switchId newInterval : N) (s : State)
    : result (bool * State) :=
  let st := storage s in
  _ ← ensureSwitchExists switchId st;
  _ ← ensureOwner env switchId st;
  _ ← ensureActive switchId st;
  if newInterval =? 0 then Revert "Interval must be greater than zero"
  else
    let st := storeSwitchInterval switchId newInterval st in
    Ok (true, withStorage st s).

(** The eight scalar fields returned by [getSwitch], in the order
    written. *)
Record SwitchInfo : Type := {
  info_owner : list byte;
  info_beneficiary : list byte;
  info_interval : N;
  info_gracePeriod : N;
  info_lastCheckin : N;
  info_status : N;
  info_triggerBlock : N;
  info_chunkCount : N
}.

Definition getSwitch (switchId : N) (s : State) : result SwitchInfo :=
  let st := storage s in
  _ ← ensureSwitchExists switchId st;
  Ok {| info_owner := loadSwitchOwner switchId st;
        info_beneficiary := loadSwitchBeneficiary switchId st;
        info_interval := loadSwitchInterval switchId st;
        info_gracePeriod := loadSwitchGracePeriod switchId st;
        info_lastCheckin := loadSwitchLastCheckin switchId st;
        info_status := loadSwitchStatus switchId st;
        info_triggerBlock := loadSwitchTriggerBlock switchId st;
        info_chunkCount := loadSwitchChunkCount switchId st |}.

Definition getData (switchId chunkIndex : N) (s : State)
    : result (list byte) :=
  let st := storage s in
  _ ← ensureSwitchExists switchId st;
  let count := loadSwitchChunkCount switchId st in
  if count <=? chunkIndex then Revert "Chunk index out of bounds"
  else
    let subPtr := compoundSubPointer switchId chunkIndex in
    loadMultiSlotBytes switchDataChunksPointer subPtr st.

Definition getDecryptionKey (switchId : N) (s : State) : result (list byte) :=
  let st := storage s in
  _ ← ensureSwitchExists switchId st;
  let currentStatus := loadSwitchStatus switchId st in
  if negb (currentStatus =? STATUS_TRIGGERED) then
    Revert "Switch has not been triggered"
  else
    let subPtr := u256ToSubPointer switchId in
    loadMultiSlotBytes switchEncryptedKeyPointer subPtr st.

Definition getSwitchCount (s : State) : result N :=
  let nextId := nextSwitchId_value (storage s) in
  SafeMath_sub nextId 1.

Definition isExpired (env : Env) (switchId : N) (s : State) : result bool :=
  let st := storage s in
  _ ← ensureSwitchExists switchId st;
  let currentBlock := block_numberU256 env in
  let lastCheck := loadSwitchLastCheckin switchId st in
  let interval := loadSwitchInterval switchId st in
  deadline ← SafeMath_add lastCheck interval;
  Ok (deadline <? currentBlock).

(** The loop [for (i = 0; i < returnCountU32; i++)] of
    [getSwitchesByOwner], collecting what it writes. *)
Fixpoint ownerLoop (n : nat) (i : N) (owner : list byte) (st : gmap N N)
    : list N :=
  match n with
  | O => []
  | S n' => getOwnerSwitchAtIndex owner i st :: ownerLoop n' (u32 (i + 1)) owner st
  end.

Definition getSwitchesByOwner (owner : list byte) (s : State)
    : result (N * list N) :=
  let st := storage s in
  let count := getOwnerSwitchCount owner st in
  let MAX_RETURN := 100 in
  let returnCount := if MAX_RETURN <? count then MAX_RETURN else count in
  let returnCountU32 := u32 returnCount in
  Ok (count, ownerLoop (N.to_nat returnCountU32) 0 owner st).

(** ** Calls and runs *)

(** The public call surface: one constructor per method, carrying the
    decoded calldata. *)
Inductive Call : Type :=
  | CreateSwitch (beneficiary : list byte) (interval gracePeriod : N)
  | Checkin (switchId : N)
  | StoreData (switchId chunkIndex : N) (encryptedData : list byte)
  | StoreDecryptionKey (switchId : N) (encryptedKey : list byte)
  | Trigger (switchId : N)
  | Cancel (switchId : N)
  | UpdateBeneficiary (switchId : N) (newBeneficiary : list byte)
  | UpdateInterval (switchId newInterval : N)
  | GetSwitch (switchId : N)
  | GetData (switchId chunkIndex : N)
  | GetDecryptionKey (switchId : N)
  | GetSwitchCount
  | IsExpired (switchId : N)
  | GetSwitchesByOwner (owner : list byte).

Inductive RetVal : Type :=
  | RBool (b : bool)
  | RU256 (n : N)
  | RBytes (l : list byte)
  | RSwitch (i : SwitchInfo)
  | RList (count : N) (ids : list N).

(** Dispatch of one call; a read leaves the state as it is. *)
Definition exec (env : Env) (c : Call) (s : State) : result (RetVal * State) :=
  match c with
  | CreateSwitch b i g =>
      r ← createSwitch env b i g s; Ok (RU256 r.1, r.2)
  | Checkin id => r ← checkin env id s; Ok (RBool r.1, r.2)
  | StoreData id idx d => r ← storeData env id idx d s; Ok (RBool r.1, r.2)
  | StoreDecryptionKey id k =>
      r ← storeDecryptionKey env id k s; Ok (RBool r.1, r.2)
  | Trigger id => r ← trigger env id s; Ok (RBool r.1, r.2)
  | Cancel id => r ← cancel env id s; Ok (RBool r.1, r.2)
  | UpdateBeneficiary id b =>
      r ← updateBeneficiary env id b s; Ok (RBool r.1, r.2)
  | UpdateInterval id i => r ← updateInterval env id i s; Ok (RBool r.1, r.2)
  | GetSwitch id => r ← getSwitch id s; Ok (RSwitch r, s)
  | GetData id idx => r ← getData id idx s; Ok (RBytes r, s)
  | GetDecryptionKey id => r ← getDecryptionKey id s; Ok (RBytes r, s)
  | GetSwitchCount => r ← getSwitchCount s; Ok (RU256 r, s)
  | IsExpired id => r ← isExpired env id s; Ok (RBool r, s)
  | GetSwitchesByOwner o => r ← getSwitchesByOwner o s; Ok (RList r.1 r.2, s)
  end.

(** The state after a call: the new state when the call returns, the
    old one when it reverts. *)
Definition step (s : State) (ec : Env * Call) : State :=
  match exec ec.1 ec.2 s with
  | Ok (_, s') => s'
  | Revert _ => s
  end.

Definition run (calls : list (Env * Call)) (s : State) : State :=
  fold_left step calls s.

(** ** Notions used by the statements *)

(** The storage key of a field of a switch, and the [u256] held under
    a key. *)
Definition switchKey (pointer switchId : N) : N :=
  encodePointer pointer (u256ToSubPointer switchId).

Definition readU256 (key : N) (st : gmap N N) : N :=
  u256_fromUint8ArrayBE (Blockchain_getStorageAt key st).

(** The namespace of a key is its leading byte; [unchanged_ns p st st']
    says that no key of namespace [p] differs between [st] and [st']. *)
Definition unchanged_ns (p : N) (st st' : gmap N N) : Prop :=
  ∀ k, k / 2 ^ 248 = p → st' !! k = st !! k.

(** The bytes [storeMultiSlotBytes] puts in slot 0 and in slot [m + 1]
    for [data]: the four length bytes and the first 28 bytes, then 32
    bytes from offset [28 + 32 m], each padded with zeros. *)
Definition lengthBytes (len : N) : list byte :=
  [u8 (N.land (N.shiftr len 24) 255); u8 (N.land (N.shiftr len 16) 255);
   u8 (N.land (N.shiftr len 8) 255); u8 (N.land len 255)].

Definition slot0Bytes (data : list byte) : list byte :=
  lengthBytes (N.of_nat (length data))
  ++ take 28 data ++ zeroBytes (28 - length data).

Definition slotBytes (data : list byte) (m : N) : list byte :=
  let chunk := take 32 (drop (N.to_nat (28 + 32 * m)) data) in
  chunk ++ zeroBytes (32 - length chunk).

(** Number of storage slots [data] occupies. *)
Definition slotsUsed (data : list byte) : N :=
  let len := N.of_nat (length data) in
  if len <=? 28 then 1 else 1 + (len - 28 + 31) / 32.

(** The state right after deployment, and existence of a switch:
    [1 <= switchId < nextSwitchId]. *)
Definition deployed : State := onDeployment {| storage := ∅; events := [] |}.

Definition switchExists (switchId : N) (st : gmap N N) : Prop :=
  1 ≤ switchId ∧ switchId < nextSwitchId_value st.

(** The storage keys a multi-slot array may occupy: the base key and
    the base key plus 1 .. 255. *)
Definition slotKeys (pointer : N) (subPointer : list byte) : list N :=
  let base := encodePointer pointer subPointer in
  base :: map (fun i => bigEndianAdd base (N.of_nat i)) (seq 1 255).

Definition CAPACITY_ERROR : string := "Data exceeds maximum storage capacity".

(** ** Sample accounts and runs *)

Definition alice : list byte := zeroBytes 31 ++ [u8 161].
Definition bob : list byte := zeroBytes 31 ++ [u8 178].
Definition carol : list byte := zeroBytes 31 ++ [u8 195].

Definition envAt (sender : list byte) (block : N) : Env :=
  {| tx_sender := sender; block_numberU256 := block |}.

(** One switch of alice with chunks 0 and 2 written and chunk 1 left
    out. *)
Definition holeRun : State :=
  run [(envAt alice 100, CreateSwitch bob 10 5);
       (envAt alice 101, StoreData 1 0 (map u8 [97; 98; 99]));
       (envAt alice 102, StoreData 1 2 (map u8 [120; 121; 122]))]
    deployed.

(** The two errors of the existence and ownership guards. *)
Definition doesNotExist {A} (r : result A) : Prop :=
  r = Revert "Switch does not exist".

Definition notOwner {A} (r : result A) : Prop :=
  r = Revert "Only owner can call this method".

(** Equality of the 30 low-order bytes of two identifiers: the part of
    an identifier that reaches the storage key. *)
Definition sameSub (a b : N) : Prop := a mod 2 ^ 240 = b mod 2 ^ 240.

#[global] Instance sameSub_dec (a b : N) : Decision (sameSub a b).
Proof. unfold sameSub. apply _. Defined.

(** A switch of alice with the largest grace period, triggered by
    carol at block 2. *)
Definition graceRun : State :=
  run [(envAt alice 0, CreateSwitch bob 1 (2 ^ 256 - 1));
       (envAt carol 2, Trigger 1)]
    deployed.

(** A switch of alice with interval 10 and grace period 5, checked in
    at block 100 and triggered by carol at block 111. *)
Definition triggeredRun : State :=
  run [(envAt alice 90, CreateSwitch bob 10 5);
       (envAt alice 100, Checkin 1);
       (envAt carol 111, Trigger 1)]
    deployed.

(** What a call contributes to the chunk count of switch [id] when
    made in state [s]: [chunkIndex + 1] for a [storeData] on [id] that
    returns, 0 otherwise; and the largest contribution along a run. *)
Definition storedIndexPlusOne (id : N) (s : State) (ec : Env * Call) : N :=
  match ec.2, exec ec.1 ec.2 s with
  | StoreData id' idx _, Ok _ => if decide (id' = id) then idx + 1 else 0
  | _, _ => 0
  end.

Fixpoint chunkHighWater (id : N) (calls : list (Env * Call)) (s : State) : N :=
  match calls with
  | [] => 0
  | ec :: rest =>
      N.max (storedIndexPlusOne id s ec) (chunkHighWater id rest (step s ec))
  end.

(** The state after alice creates switch 1 at block 90, and a run on
    it: checkin, a store of chunks 0 and 2, trigger, cancel. *)
Definition createdState : State :=
  step deployed (envAt alice 90, CreateSwitch bob 10 5).

Definition lifeCalls : list (Env * Call) :=
  [(envAt alice 100, Checkin 1);
   (envAt alice 101, StoreData 1 0 (map u8 [97; 98; 99]));
   (envAt alice 102, StoreData 1 2 (map u8 [120; 121; 122]));
   (envAt carol 111, Trigger 1);
   (envAt alice 115, Cancel 1)].

(** Two switches, alice's 1 and bob's 2, bob having stored a
    three-byte decryption key on his. *)
Definition twoKeysRun : State :=
  run [(envAt alice 90, CreateSwitch bob 10 5);
       (envAt bob 91, CreateSwitch carol 10 5);
       (envAt bob 92, StoreDecryptionKey 2 (map u8 [1; 2; 3]))]
    deployed.

(** The state after alice has stored the three bytes "abc" as chunk 0
    of switch 1. *)
Definition chunkZeroState : State :=
  step createdState (envAt alice 101, StoreData 1 0 (map u8 [97; 98; 99])).

(** The number of [createSwitch] calls that return along a run. *)
Definition createdBy (s : State) (ec : Env * Call) : N :=
  match ec.2, exec ec.1 ec.2 s with
  | CreateSwitch _ _ _, Ok _ => 1
  | _, _ => 0
  end.

Fixpoint successfulCreates (calls : list (Env * Call)) (s : State) : N :=
  match calls with
  | [] => 0
  | ec :: rest => createdBy s ec + successfulCreates rest (step s ec)
  end.

(** The events a call emits when it returns, in terms of the state it
    is made in: one event for each of the six calls that emit, none
    for the others. *)
Definition eventsOf (env : Env) (c : Call) (s : State) : list NetEvent :=
  match c with
  | CreateSwitch b _ _ =>
      [SwitchCreatedEvent (nextSwitchId_value (storage s)) (tx_sender env) b]
  | Checkin id => [CheckedInEvent id (block_numberU256 env)]
  | StoreData id idx _ => [DataStoredEvent id idx]
  | Trigger id =>
      [SwitchTriggeredEvent id (loadSwitchBeneficiary id (storage s))
         (block_numberU256 env)]
  | Cancel id => [SwitchCancelledEvent id (block_numberU256 env)]
  | UpdateBeneficiary id b => [BeneficiaryUpdatedEvent id b]
  | _ => []
  end.

(** * The browser client

    The pure helpers of the client that talk about the contract's
    values: the status enum with its decoder, and the splitting of a
    payload into chunks for [storeData] and its reassembly after
    [getData].  Lengths and offsets are JavaScript numbers that stay
    far below 2^53 here and are modelled without rounding; a [bigint]
    is a [Z]. *)

(** [enum SwitchStatus] and the numeric value of each member. *)
Inductive SwitchStatus : Type := ACTIVE | TRIGGERED | CANCELLED.

Definition SwitchStatus_value (s : SwitchStatus) : Z :=
  match s with
  | ACTIVE => 0
  | TRIGGERED => 1
  | CANCELLED => 2
  end%Z.

Definition parseStatus (raw : Z) : SwitchStatus :=
  if (raw =? 0)%Z then ACTIVE
  else if (raw =? 1)%Z then TRIGGERED
  else CANCELLED.

(** [CONFIG.MAX_CHUNK_SIZE]. *)
Definition MAX_CHUNK_SIZE : N := 8000.

(** [data.slice(start, end)] for non-negative [start] and [end]. *)
Definition slice (data : list byte) (start end_ : N) : list byte :=
  take (N.to_nat (end_ - start)) (drop (N.to_nat start) data).

(** The loop [for (offset = 0; offset < data.length; offset += chunkSize)]
    of [splitIntoChunks]; [fuel] bounds the number of iterations. *)
Fixpoint splitLoop (fuel : nat) (data : list byte) (chunkSize offset : N)
    (chunks : list (list byte)) : list (list byte) :=
  if offset <? N.of_nat (length data) then
    match fuel with
    | O => chunks
    | S fuel' =>
        let end_ := N.min (offset + chunkSize) (N.of_nat (length data)) in
        splitLoop fuel' data chunkSize (offset + chunkSize)
          (chunks ++ [slice data offset end_])
    end
  else chunks.

Definition splitIntoChunks (data : list byte) : list (list byte) :=
  let chunkSize := MAX_CHUNK_SIZE in
  splitLoop (length data) data chunkSize 0 [].

(** The loop [for (const chunk of chunks)] of [reassembleChunks];
    [result.set(chunk, offset)] copies the chunk into [result] from
    [offset] on. *)
Fixpoint reassembleLoop (chunks : list (list byte)) (result : list byte)
    (offset : nat) : list byte :=
  match chunks with
  | [] => result
  | chunk :: rest =>
      reassembleLoop rest (copyLoop (length chunk) 0 result chunk offset 0)
        (offset + length chunk)
  end.

Definition reassembleChunks (chunks : list (list byte)) : list byte :=
  let totalLength :=
    fold_left (fun sum chunk => (sum + length chunk)%nat) chunks 0%nat in
  let result := zeroBytes totalLength in
  reassembleLoop chunks result 0.

#[global] Instance SwitchStatus_eq_dec : EqDecision SwitchStatus.
Proof. solve_decision. Defined.

(** What [CountdownBar] computes before it renders: nothing when the
    interval is zero, else the deadline shown, the fill percentage and
    the colour class.  A [bigint] division truncates towards zero. *)
Inductive BarClass : Type := BarExpired | BarWarning | BarSafe.

Definition CountdownBar (lastCheckin interval : Z) (isExpired : bool)
    : option (Z * Z * BarClass) :=
  if (interval =? 0)%Z then None
  else
    let deadline := (lastCheckin + interval)%Z in
    let elapsed := interval in
    let percentage :=
      if isExpired then 100%Z
      else Z.min 100 (Z.quot (elapsed * 100) interval) in
    let barClass :=
      if isExpired then BarExpired
      else if (75 <? percentage)%Z then BarWarning
      else BarSafe in
    Some (deadline, percentage, barClass).

(** The conditions under which the detail page renders the "Switch
    Expired" card with its trigger button, and the "cancelled" alert. *)
Definition showTriggerCard (isExpired : bool) (status : SwitchStatus) : bool :=
  isExpired && bool_decide (status = ACTIVE).

Definition showCancelledAlert (status : SwitchStatus) : bool :=
  bool_decide (status = CANCELLED).

(** * Properties *)

(** ** Bytes and big-endian numbers *)

Lemma b2n_range (b : byte) : b2n b < 256.
Proof. unfold b2n. pose proof (Byte.to_N_bounded b). lia. Qed.

Lemma b2n_u8 (x : N) : b2n (u8 x) = x mod 256.
Proof.
  unfold b2n, u8.
  destruct (Byte.of_N (x mod 256)) as [b|] eqn:E.
  - simpl. by apply Byte.to_of_N.
  - apply Byte.of_N_None_iff in E.
    pose proof (N.mod_upper_bound x 256). lia.
Qed.

Lemma u8_b2n (b : byte) : u8 (b2n b) = b.
Proof.
  unfold u8, b2n. rewrite N.mod_small.
  - by rewrite Byte.of_to_N.
  - pose proof (Byte.to_N_bounded b). lia.
Qed.

Lemma b2n_inj (a b : byte) : b2n a = b2n b → a = b.
Proof. intros H. rewrite <- (u8_b2n a), <- (u8_b2n b). by rewrite H. Qed.

Lemma length_toBytesBE (n : nat) (v : N) : length (toBytesBE n v) = n.
Proof.
  revert v. induction n as [|n IH]; intros v; simpl; [done|].
  rewrite length_app, IH. simpl. lia.
Qed.

Lemma fromBytesBE_snoc (l : list byte) (b : byte) :
  fromBytesBE (l ++ [b]) = fromBytesBE l * 256 + b2n b.
Proof. unfold fromBytesBE. by rewrite fold_left_app. Qed.

Lemma fromBytesBE_app (l1 l2 : list byte) :
  fromBytesBE (l1 ++ l2)
  = fromBytesBE l1 * 256 ^ N.of_nat (length l2) + fromBytesBE l2.
Proof.
  induction l2 as [|b l2 IH] using rev_ind.
  - rewrite app_nil_r. change (fromBytesBE []) with 0. simpl length.
    change (256 ^ N.of_nat 0) with 1. lia.
  - rewrite app_assoc, !fromBytesBE_snoc, IH, length_app. simpl.
    replace (N.of_nat (length l2 + 1)) with (N.succ (N.of_nat (length l2)))
      by lia.
    rewrite N.pow_succ_r'. lia.
Qed.

Lemma fromBytesBE_range (l : list byte) :
  fromBytesBE l < 256 ^ N.of_nat (length l).
Proof.
  induction l as [|b l IH] using rev_ind.
  - unfold fromBytesBE. simpl. lia.
  - rewrite fromBytesBE_snoc, length_app. simpl.
    replace (N.of_nat (length l + 1)) with (N.succ (N.of_nat (length l)))
      by lia.
    rewrite N.pow_succ_r'. pose proof (b2n_range b). lia.
Qed.

Lemma fromBytesBE_toBytesBE (n : nat) (v : N) :
  fromBytesBE (toBytesBE n v) = v mod 256 ^ N.of_nat n.
Proof.
  revert v. induction n as [|n IH]; intros v.
  - simpl. unfold fromBytesBE. simpl. by rewrite N.mod_1_r.
  - simpl toBytesBE. rewrite fromBytesBE_snoc, IH, b2n_u8.
    replace (N.of_nat (S n)) with (N.succ (N.of_nat n)) by lia.
    rewrite N.pow_succ_r'.
    rewrite N.Div0.mod_mul_r. lia.
Qed.

Lemma toBytesBE_fromBytesBE (l : list byte) :
  toBytesBE (length l) (fromBytesBE l) = l.
Proof.
  induction l as [|b l IH] using rev_ind; [done|].
  rewrite length_app, fromBytesBE_snoc. simpl.
  rewrite Nat.add_1_r. simpl.
  pose proof (b2n_range b).
  replace ((fromBytesBE l * 256 + b2n b) / 256) with (fromBytesBE l).
  - rewrite IH. f_equal. f_equal.
    rewrite <- (u8_b2n b) at 2. unfold u8. f_equal. f_equal.
    rewrite N.add_comm, N.Div0.mod_add. by rewrite N.mod_small.
  - rewrite N.add_comm, N.div_add by lia. rewrite N.div_small; lia.
Qed.

Lemma toBytesBE_mod (n : nat) (v : N) :
  toBytesBE n (v mod 256 ^ N.of_nat n) = toBytesBE n v.
Proof.
  rewrite <- (fromBytesBE_toBytesBE n v).
  rewrite <- (length_toBytesBE n v) at 1.
  apply toBytesBE_fromBytesBE.
Qed.

Lemma toBytesBE_split (m n : nat) (v : N) :
  toBytesBE (m + n) v = toBytesBE m (v / 256 ^ N.of_nat n) ++ toBytesBE n v.
Proof.
  revert v. induction n as [|n IH]; intros v.
  - rewrite Nat.add_0_r. simpl. by rewrite N.div_1_r, app_nil_r.
  - rewrite Nat.add_succ_r. simpl. rewrite IH, app_assoc.
    replace (N.of_nat (S n)) with (N.succ (N.of_nat n)) by lia.
    rewrite N.pow_succ_r'. by rewrite N.Div0.div_div.
Qed.

(** ** Copy loops *)

Lemma length_copyLoop (n i : nat) (dst src : list byte) (dOff sOff : nat) :
  length (copyLoop n i dst src dOff sOff) = length dst.
Proof.
  revert i dst. induction n as [|n IH]; intros i dst; simpl; [done|].
  by rewrite IH, length_insert.
Qed.

(** The loop overwrites [dst[dOff+i .. dOff+i+n)] with
    [src[sOff+i .. sOff+i+n)] and leaves the rest of [dst]. *)
Lemma copyLoop_spec (n i : nat) (dst src : list byte) (dOff sOff : nat) :
  (dOff + i + n ≤ length dst)%nat →
  (sOff + i + n ≤ length src)%nat →
  copyLoop n i dst src dOff sOff
  = take (dOff + i) dst ++ take n (drop (sOff + i) src)
    ++ drop (dOff + i + n) dst.
Proof.
  revert i dst. induction n as [|n IH]; intros i dst Hd Hs; simpl.
  - rewrite Nat.add_0_r. by rewrite take_drop.
  - rewrite IH by (rewrite ?length_insert; lia).
    destruct (lookup_lt_is_Some_2 src (sOff + i)) as [x Hx]; [lia|].
    rewrite (list_lookup_total_correct _ _ _ Hx).
    rewrite (drop_S _ _ _ Hx). simpl.
    replace (dOff + S i)%nat with (S (dOff + i)) by lia.
    replace (sOff + S i)%nat with (S (sOff + i)) by lia.
    rewrite drop_insert_lt by lia.
    erewrite take_S_r by (apply list_lookup_insert_eq; lia).
    rewrite take_insert_ge by lia.
    rewrite <- app_assoc. simpl.
    by replace (dOff + i + S n)%nat with (S (dOff + i + n)) by lia.
Qed.

Lemma length_xorLoop (n i : nat) (res a b : list byte) :
  length (xorLoop n i res a b) = length res.
Proof.
  revert i res. induction n as [|n IH]; intros i res; simpl; [done|].
  by rewrite IH, length_insert.
Qed.

Lemma xorLoop_lookup (n i : nat) (res a b : list byte) (j : nat) :
  (i + n ≤ length res)%nat →
  xorLoop n i res a b !! j
  = if decide (i ≤ j < i + n)%nat
    then Some (u8 (N.lxor (b2n (a !!! j)) (b2n (b !!! j))))
    else res !! j.
Proof.
  revert i res. induction n as [|n IH]; intros i res Hl; simpl.
  - case_decide; [lia|done].
  - rewrite IH by (rewrite length_insert; lia).
    destruct (decide (j = i)) as [->|Hne].
    + rewrite list_lookup_insert_eq by lia.
      repeat case_decide; try lia; done.
    + rewrite list_lookup_insert_ne by done.
      repeat case_decide; try lia; done.
Qed.

(** ** Sub-pointer codec *)

Lemma length_zeroBytes (n : nat) : length (zeroBytes n) = n.
Proof. apply length_replicate. Qed.

Lemma drop_zeroBytes (n m : nat) : drop n (zeroBytes m) = zeroBytes (m - n).
Proof. apply drop_replicate. Qed.

(** The loop of [u256ToSubPointer] keeps the 30 low-order bytes. *)
Lemma u256ToSubPointer_low (value : N) :
  u256ToSubPointer value = toBytesBE 30 value.
Proof.
  unfold u256ToSubPointer, u256_toUint8Array.
  rewrite copyLoop_spec
    by (rewrite ?length_zeroBytes, ?length_toBytesBE; simpl; lia).
  change (toBytesBE 32 value) with (toBytesBE (2 + 30) value).
  rewrite toBytesBE_split.
  rewrite drop_app_length' by (rewrite length_toBytesBE; lia).
  rewrite (take_ge (toBytesBE 30 value)) by (rewrite length_toBytesBE; lia).
  rewrite (drop_ge (zeroBytes 30)) by (rewrite length_zeroBytes; lia).
  by rewrite app_nil_r.
Qed.

Lemma length_u256ToSubPointer (value : N) :
  length (u256ToSubPointer value) = 30%nat.
Proof. by rewrite u256ToSubPointer_low, length_toBytesBE. Qed.

Lemma fromBytesBE_u256ToSubPointer (value : N) :
  fromBytesBE (u256ToSubPointer value) = value mod 2 ^ 240.
Proof. by rewrite u256ToSubPointer_low, fromBytesBE_toBytesBE. Qed.

Lemma length_addressToSubPointer (addr : list byte) :
  length (addressToSubPointer addr) = 30%nat.
Proof. unfold addressToSubPointer. by rewrite length_copyLoop. Qed.

Lemma addressToSubPointer_low (addr : list byte) :
  length addr = 32%nat → addressToSubPointer addr = drop 2 addr.
Proof.
  intros Hl. unfold addressToSubPointer.
  rewrite copyLoop_spec by (rewrite ?length_zeroBytes; simpl; lia).
  rewrite (take_ge (drop _ addr)) by (rewrite length_drop; lia).
  rewrite (drop_ge (zeroBytes 30)) by (rewrite length_zeroBytes; lia).
  by rewrite app_nil_r.
Qed.

Lemma length_compoundSubPointer (a b : N) :
  length (compoundSubPointer a b) = 30%nat.
Proof. unfold compoundSubPointer. by rewrite length_xorLoop. Qed.

Lemma length_addressIndexSubPointer (addr : list byte) (index : N) :
  length (addressIndexSubPointer addr index) = 30%nat.
Proof. unfold addressIndexSubPointer. by rewrite length_xorLoop. Qed.

Lemma fromBytesBE_sub_range (sub : list byte) :
  length sub = 30%nat → fromBytesBE sub < 2 ^ 240.
Proof.
  intros Hl. pose proof (fromBytesBE_range sub) as H. rewrite Hl in H.
  exact H.
Qed.

(** The compound key is symmetric in its two arguments. *)
Lemma compoundSubPointer_comm (a b : N) :
  compoundSubPointer a b = compoundSubPointer b a.
Proof.
  apply list_eq. intros j. unfold compoundSubPointer.
  rewrite !xorLoop_lookup by (rewrite length_zeroBytes; lia).
  case_decide; [|done]. by rewrite N.lxor_comm.
Qed.

(** C1: the compound sub-pointer is not collision-free.  Chunk 1 of
    switch 3 and chunk 0 of switch 2 get the same 30-byte sub-key (the
    XOR of the two numbers is 2 in both cases), and so do index 1 of
    the owner whose address ends in 03 and index 0 of the owner whose
    address ends in 02; the two data chunks share one storage key. *)
Theorem C1_compoundSubPointer_collision :
  (3, 1) ≠ (2, 0)
  ∧ compoundSubPointer 3 1 = compoundSubPointer 2 0
  ∧ encodePointer switchDataChunksPointer (compoundSubPointer 3 1)
    = encodePointer switchDataChunksPointer (compoundSubPointer 2 0)
  ∧ (zeroBytes 31 ++ [u8 3], 1) ≠ (zeroBytes 31 ++ [u8 2], 0)
  ∧ addressIndexSubPointer (zeroBytes 31 ++ [u8 3]) 1
    = addressIndexSubPointer (zeroBytes 31 ++ [u8 2]) 0.
Proof.
  split; [intros [=]|].
  split; [by vm_compute|].
  split; [by vm_compute|].
  split; [intros [=]|].
  by vm_compute.
Qed.

(** ** Storage keys *)

Lemma pow256_32 : 256 ^ N.of_nat 32 = 2 ^ 256.
Proof. reflexivity. Qed.

Lemma land_255 (x : N) : N.land x 255 = x mod 256.
Proof. change 255 with (N.ones 8). by rewrite N.land_ones. Qed.

Lemma encodePointer_small (p : N) (sub : list byte) :
  p < 256 → encodePointer p sub = p * 2 ^ 248 + fromBytesBE sub.
Proof.
  intros Hp. unfold encodePointer.
  rewrite !land_255, N.shiftr_div_pow2.
  rewrite (N.mod_small p) by done.
  rewrite (N.div_small p) by (change (2 ^ 8) with 256; lia).
  rewrite N.Div0.mod_0_l. lia.
Qed.

Lemma switchKey_small (p id : N) :
  p < 256 → switchKey p id = p * 2 ^ 248 + id mod 2 ^ 240.
Proof.
  intros Hp. unfold switchKey.
  by rewrite encodePointer_small, fromBytesBE_u256ToSubPointer.
Qed.

Lemma ns_encodePointer (p : N) (sub : list byte) :
  p < 256 → length sub = 30%nat → encodePointer p sub / 2 ^ 248 = p.
Proof.
  intros Hp Hl. rewrite encodePointer_small by done.
  pose proof (fromBytesBE_sub_range sub Hl) as Hs.
  symmetry. apply (N.div_unique _ _ _ (fromBytesBE sub)); lia.
Qed.

Lemma ns_switchKey (p id : N) : p < 256 → switchKey p id / 2 ^ 248 = p.
Proof.
  intros Hp. apply ns_encodePointer; [done|apply length_u256ToSubPointer].
Qed.

(** Adding a slot index to a base key stays inside the namespace of
    the base key. *)
Lemma bigEndianAdd_small (p : N) (sub : list byte) (j : N) :
  p < 255 → length sub = 30%nat → j < 2 ^ 64 →
  bigEndianAdd (encodePointer p sub) j = p * 2 ^ 248 + fromBytesBE sub + j.
Proof.
  intros Hp Hl Hj. unfold bigEndianAdd, U256_LIMIT.
  rewrite encodePointer_small by lia.
  pose proof (fromBytesBE_sub_range sub Hl) as Hs.
  apply N.mod_small. lia.
Qed.

Lemma ns_bigEndianAdd (p : N) (sub : list byte) (j : N) :
  p < 255 → length sub = 30%nat → j < 2 ^ 64 →
  bigEndianAdd (encodePointer p sub) j / 2 ^ 248 = p.
Proof.
  intros Hp Hl Hj. rewrite bigEndianAdd_small by done.
  pose proof (fromBytesBE_sub_range sub Hl) as Hs.
  symmetry. apply (N.div_unique _ _ _ (fromBytesBE sub + j)); lia.
Qed.

(** ** Reading and writing storage slots *)

Lemma getStorageAt_set_eq (k : N) (v : list byte) (st : gmap N N) :
  length v = 32%nat →
  Blockchain_getStorageAt k (Blockchain_setStorageAt k v st) = v.
Proof.
  intros Hl. unfold Blockchain_getStorageAt, Blockchain_setStorageAt.
  rewrite lookup_insert_eq. change (toBytesBE 32 (fromBytesBE v) = v).
  rewrite <- Hl at 1. apply toBytesBE_fromBytesBE.
Qed.

Lemma getStorageAt_frame (k : N) (st st' : gmap N N) :
  st' !! k = st !! k →
  Blockchain_getStorageAt k st' = Blockchain_getStorageAt k st.
Proof. unfold Blockchain_getStorageAt. by intros ->. Qed.

Lemma getStorageAt_set_ne (k k' : N) (v : list byte) (st : gmap N N) :
  k ≠ k' →
  Blockchain_getStorageAt k (Blockchain_setStorageAt k' v st)
  = Blockchain_getStorageAt k st.
Proof.
  intros Hne. apply getStorageAt_frame. unfold Blockchain_setStorageAt.
  by rewrite lookup_insert_ne.
Qed.

Lemma length_getStorageAt (k : N) (st : gmap N N) :
  length (Blockchain_getStorageAt k st) = 32%nat.
Proof. apply length_toBytesBE. Qed.

Lemma readU256_range (k : N) (st : gmap N N) : readU256 k st < 2 ^ 256.
Proof.
  unfold readU256, u256_fromUint8ArrayBE.
  pose proof (fromBytesBE_range (Blockchain_getStorageAt k st)) as H.
  by rewrite length_getStorageAt in H.
Qed.

Lemma readU256_frame (k : N) (st st' : gmap N N) :
  st' !! k = st !! k → readU256 k st' = readU256 k st.
Proof. intros H. unfold readU256. by rewrite (getStorageAt_frame _ _ _ H). Qed.

Lemma readU256_set (k k' : N) (v : list byte) (st : gmap N N) :
  readU256 k (Blockchain_setStorageAt k' v st)
  = if decide (k = k') then fromBytesBE v mod 2 ^ 256 else readU256 k st.
Proof.
  case_decide as Hk.
  - subst k'. unfold readU256, u256_fromUint8ArrayBE,
      Blockchain_getStorageAt, Blockchain_setStorageAt.
    rewrite lookup_insert_eq.
    change (fromBytesBE (toBytesBE 32 (fromBytesBE v))
            = fromBytesBE v mod 2 ^ 256).
    by rewrite fromBytesBE_toBytesBE, pow256_32.
  - apply readU256_frame. unfold Blockchain_setStorageAt.
    by rewrite lookup_insert_ne.
Qed.

Lemma readU256_set_u256 (k k' v : N) (st : gmap N N) :
  readU256 k (Blockchain_setStorageAt k' (u256_toUint8Array v) st)
  = if decide (k = k') then v mod 2 ^ 256 else readU256 k st.
Proof.
  rewrite readU256_set. case_decide; [|done].
  unfold u256_toUint8Array. rewrite fromBytesBE_toBytesBE, pow256_32.
  by rewrite N.Div0.mod_mod.
Qed.

Lemma getU256ForSwitch_read (p id : N) (st : gmap N N) :
  getU256ForSwitch p id st = readU256 (switchKey p id) st.
Proof. unfold getU256ForSwitch, readU256, switchKey. done. Qed.

Lemma nextSwitchId_value_read (st : gmap N N) :
  nextSwitchId_value st
  = readU256 (encodePointer nextSwitchIdPointer EMPTY_POINTER) st.
Proof. unfold nextSwitchId_value, readU256. done. Qed.

(** ** Namespaces left alone by a write *)

Lemma unchanged_ns_refl (p : N) (st : gmap N N) : unchanged_ns p st st.
Proof. by intros k _. Qed.

Lemma unchanged_ns_trans (p : N) (st1 st2 st3 : gmap N N) :
  unchanged_ns p st1 st2 → unchanged_ns p st2 st3 → unchanged_ns p st1 st3.
Proof. intros H1 H2 k Hk. by rewrite H2, H1. Qed.

Lemma unchanged_ns_set (p k : N) (v : list byte) (st : gmap N N) :
  k / 2 ^ 248 ≠ p → unchanged_ns p st (Blockchain_setStorageAt k v st).
Proof.
  intros Hne k' Hk'. unfold Blockchain_setStorageAt.
  apply lookup_insert_ne. congruence.
Qed.

Lemma readU256_unchanged (p k : N) (st st' : gmap N N) :
  unchanged_ns p st st' → k / 2 ^ 248 = p → readU256 k st' = readU256 k st.
Proof. intros H Hk. apply readU256_frame. by apply H. Qed.

Lemma getStorageAt_unchanged (p k : N) (st st' : gmap N N) :
  unchanged_ns p st st' → k / 2 ^ 248 = p →
  Blockchain_getStorageAt k st' = Blockchain_getStorageAt k st.
Proof. intros H Hk. apply getStorageAt_frame. by apply H. Qed.

(** ** The four length bytes of slot 0 *)

Lemma lor_shifted_add (a b k : N) :
  b < 2 ^ k → N.lor (a * 2 ^ k) b = a * 2 ^ k + b.
Proof.
  intros Hb.
  assert (N.land (a * 2 ^ k) b = 0) as Hland.
  { apply N.bits_inj. intros n. rewrite N.land_spec, N.bits_0.
    destruct (N.lt_ge_cases n k) as [Hn|Hn].
    - by rewrite N.mul_pow2_bits_low.
    - destruct (N.eq_dec b 0) as [->|Hb0];
        [by rewrite N.bits_0, andb_false_r|].
      rewrite (N.bits_above_log2 b n), andb_false_r; [done|].
      apply N.log2_lt_pow2; [lia|].
      eapply N.lt_le_trans; [exact Hb|].
      apply N.pow_le_mono_r; lia. }
  by rewrite N.add_nocarry_lxor, N.lxor_lor.
Qed.

Lemma lor_bytes4 (a b c d : N) :
  a < 256 → b < 256 → c < 256 → d < 256 →
  N.lor (N.lor (N.lor (u32 (N.shiftl a 24)) (u32 (N.shiftl b 16)))
           (u32 (N.shiftl c 8))) d
  = a * 16777216 + b * 65536 + c * 256 + d.
Proof.
  intros Ha Hb Hc Hd. unfold u32. rewrite !N.shiftl_mul_pow2.
  rewrite !N.mod_small
    by (change (2 ^ 32) with 4294967296; change (2 ^ 24) with 16777216;
        change (2 ^ 16) with 65536; change (2 ^ 8) with 256; lia).
  rewrite (lor_shifted_add a (b * 2 ^ 16) 24)
    by (change (2 ^ 24) with 16777216; change (2 ^ 16) with 65536; lia).
  replace (a * 2 ^ 24 + b * 2 ^ 16) with ((a * 256 + b) * 2 ^ 16)
    by (change (2 ^ 24) with 16777216; change (2 ^ 16) with 65536; lia).
  rewrite (lor_shifted_add _ (c * 2 ^ 8) 16)
    by (change (2 ^ 16) with 65536; change (2 ^ 8) with 256; lia).
  replace ((a * 256 + b) * 2 ^ 16 + c * 2 ^ 8)
    with ((a * 65536 + b * 256 + c) * 2 ^ 8)
    by (change (2 ^ 16) with 65536; change (2 ^ 8) with 256; lia).
  rewrite (lor_shifted_add _ d 8) by (change (2 ^ 8) with 256; lia).
  change (2 ^ 8) with 256. lia.
Qed.

Lemma length_bytes_decode (len : N) :
  len < 2 ^ 32 →
  N.lor
    (N.lor
       (N.lor (u32 (N.shiftl (b2n (u8 (N.land (N.shiftr len 24) 255))) 24))
              (u32 (N.shiftl (b2n (u8 (N.land (N.shiftr len 16) 255))) 16)))
       (u32 (N.shiftl (b2n (u8 (N.land (N.shiftr len 8) 255))) 8)))
    (b2n (u8 (N.land len 255)))
  = len.
Proof.
  intros Hlen. change (2 ^ 32) with 4294967296 in Hlen.
  rewrite lor_bytes4 by apply b2n_range.
  rewrite !b2n_u8, !land_255, !N.Div0.mod_mod, !N.shiftr_div_pow2.
  change (2 ^ 24) with 16777216. change (2 ^ 16) with 65536.
  change (2 ^ 8) with 256.
  pose proof (N.Div0.div_mod len 256) as H0.
  pose proof (N.Div0.div_mod (len / 256) 256) as H1.
  pose proof (N.Div0.div_mod (len / 65536) 256) as H2.
  assert (len / 256 / 256 = len / 65536) as E1
    by (by rewrite N.Div0.div_div).
  assert (len / 65536 / 256 = len / 16777216) as E2
    by (by rewrite N.Div0.div_div).
  rewrite E1 in H1. rewrite E2 in H2.
  pose proof (N.mod_upper_bound len 256).
  pose proof (N.mod_upper_bound (len / 256) 256).
  pose proof (N.mod_upper_bound (len / 65536) 256).
  assert (len / 16777216 < 256) by (apply N.Div0.div_lt_upper_bound; lia).
  rewrite (N.mod_small (len / 16777216)) by done.
  lia.
Qed.

(** ** Multi-slot byte store: the store loop *)

Lemma bigEndianAdd_inj (b i j : N) :
  i < 2 ^ 256 → j < 2 ^ 256 → bigEndianAdd b i = bigEndianAdd b j → i = j.
Proof.
  unfold bigEndianAdd, U256_LIMIT. intros Hi Hj Heq.
  pose proof (N.Div0.div_mod (b + i) (2 ^ 256)) as H1.
  pose proof (N.Div0.div_mod (b + j) (2 ^ 256)) as H2.
  rewrite Heq in H1.
  set (M := 2 ^ 256) in *.
  assert (M = 115792089237316195423570985008687907853269984665640564039457584007913129639936) as HM by reflexivity.
  generalize dependent ((b + i) / M). generalize dependent ((b + j) / M).
  generalize dependent ((b + j) mod M). intros. lia.
Qed.

Lemma bigEndianAdd_ne_base (b i : N) :
  0 < i < 2 ^ 256 → bigEndianAdd b i ≠ b.
Proof.
  unfold bigEndianAdd, U256_LIMIT. intros Hi Heq.
  pose proof (N.Div0.div_mod (b + i) (2 ^ 256)) as H1.
  rewrite Heq in H1.
  set (M := 2 ^ 256) in *.
  assert (M = 115792089237316195423570985008687907853269984665640564039457584007913129639936) as HM by reflexivity.
  pose proof (N.mod_upper_bound (b + i) M) as H2. rewrite Heq in H2.
  generalize dependent ((b + i) / M). intros. lia.
Qed.

Lemma length_slotBytes (d : list byte) (m : N) : length (slotBytes d m) = 32%nat.
Proof.
  unfold slotBytes. rewrite length_app, length_zeroBytes, length_take. lia.
Qed.

Lemma length_slot0Bytes (d : list byte) : length (slot0Bytes d) = 32%nat.
Proof.
  unfold slot0Bytes. rewrite !length_app, length_zeroBytes, length_take.
  unfold lengthBytes. cbn [length]. lia.
Qed.

Lemma storeLoop_unfold (fuel : nat) (baseKey : N) (data : list byte)
    (len offset slotIndex : N) (st : gmap N N) :
  storeLoop fuel baseKey data len offset slotIndex st
  = if offset <? len then
      match fuel with
      | O => Revert "out of gas"
      | S fuel' =>
          storeLoop fuel' baseKey data len (u32 (offset + 32))
            (u64 (slotIndex + 1))
            (Blockchain_setStorageAt (bigEndianAdd baseKey slotIndex)
               (copyLoop
                  (N.to_nat
                     (if len - offset <? 32 then len - offset else 32))
                  0 (zeroBytes 32) data 0 (N.to_nat offset)) st)
      end
    else Ok st.
Proof. by destruct fuel. Qed.

(** The 32 bytes one turn of the store loop writes. *)
Lemma store_slotData (d : list byte) (len m : N) :
  len = N.of_nat (length d) → 28 + 32 * m < len →
  copyLoop
    (N.to_nat
       (if len - (28 + 32 * m) <? 32 then len - (28 + 32 * m) else 32))
    0 (zeroBytes 32) d 0 (N.to_nat (28 + 32 * m))
  = slotBytes d m.
Proof.
  intros Hlen Hoff. unfold slotBytes.
  set (off := N.to_nat (28 + 32 * m)).
  assert (off < length d)%nat as Hoff' by lia.
  destruct (N.ltb_spec (len - (28 + 32 * m)) 32) as [Hlt|Hge].
  - rewrite copyLoop_spec by (rewrite ?length_zeroBytes; lia).
    rewrite !Nat.add_0_r, !Nat.add_0_l, take_0, app_nil_l.
    rewrite (take_ge (drop off d)) by (rewrite length_drop; lia).
    rewrite (take_ge (drop off d)) by (rewrite length_drop; lia).
    rewrite drop_zeroBytes. do 2 f_equal.
    rewrite length_drop. lia.
  - rewrite copyLoop_spec by (rewrite ?length_zeroBytes; lia).
    rewrite !Nat.add_0_r, !Nat.add_0_l, take_0, app_nil_l.
    rewrite drop_zeroBytes. do 2 f_equal.
    rewrite length_take, length_drop. lia.
Qed.

Lemma storeLoop_spec (base : N) (d : list byte) (len : N) :
  len = N.of_nat (length d) → len ≤ 8188 →
  ∀ (fuel : nat) (m : N) (st : gmap N N),
    len ≤ 28 + 32 * m + 32 * N.of_nat fuel →
    ∃ st',
      storeLoop fuel base d len (28 + 32 * m) (m + 1) st = Ok st'
      ∧ (∀ k, (∀ i, m < i < 256 → k ≠ bigEndianAdd base i) →
              st' !! k = st !! k)
      ∧ (∀ i, m < i → 28 + 32 * (i - 1) < len →
              Blockchain_getStorageAt (bigEndianAdd base i) st'
              = slotBytes d (i - 1)).
Proof.
  intros Hlen Hcap fuel.
  induction fuel as [|fuel IH]; intros m st Hfuel;
    rewrite storeLoop_unfold;
    destruct (N.ltb_spec (28 + 32 * m) len) as [Hlt|Hge]; try lia.
  - exists st. split; [done|]. split; [done|]. intros i Hi Hoff. lia.
  - assert (u32 (28 + 32 * m + 32) = 28 + 32 * (m + 1)) as ->.
    { unfold u32. rewrite N.mod_small; [lia|].
      change (2 ^ 32) with 4294967296. lia. }
    assert (u64 (m + 1 + 1) = m + 1 + 1) as ->.
    { unfold u64. rewrite N.mod_small; [lia|].
      change (2 ^ 64) with 18446744073709551616. lia. }
    rewrite store_slotData by done.
    destruct (IH (m + 1)
                (Blockchain_setStorageAt (bigEndianAdd base (m + 1))
                   (slotBytes d m) st)) as (st' & Hrun & Hframe & Hslots);
      [lia|].
    exists st'. split; [exact Hrun|]. split.
    + intros k Hk. rewrite Hframe by (intros i Hi; apply Hk; lia).
      unfold Blockchain_setStorageAt. apply lookup_insert_ne.
      intros Heq. apply (Hk (m + 1)); [lia|done].
    + intros i Hi Hoff. destruct (N.eq_dec i (m + 1)) as [->|Hne].
      * assert (∀ i, m + 1 < i < 256 →
                  bigEndianAdd base (m + 1) ≠ bigEndianAdd base i) as Hfresh.
        { intros i Hi' Heq. apply bigEndianAdd_inj in Heq; [lia| |];
            change (2 ^ 256) with 115792089237316195423570985008687907853269984665640564039457584007913129639936; lia. }
        rewrite (getStorageAt_frame _ _ _ (Hframe _ Hfresh)).
        rewrite getStorageAt_set_eq by apply length_slotBytes.
        f_equal. lia.
      * apply Hslots; lia.
  - exists st. split; [done|]. split; [done|]. intros i Hi Hoff. lia.
Qed.

(** ** Multi-slot byte store: store and load *)

Lemma u32_small (x : N) : x < 2 ^ 32 → u32 x = x.
Proof. intros H. unfold u32. by rewrite N.mod_small. Qed.

Lemma store_slot0 (d : list byte) (len : N) :
  len = N.of_nat (length d) →
  copyLoop (N.to_nat (if len <? 28 then len else 28)) 0
    (<[3%nat := u8 (N.land len 255)]>
       (<[2%nat := u8 (N.land (N.shiftr len 8) 255)]>
          (<[1%nat := u8 (N.land (N.shiftr len 16) 255)]>
             (<[0%nat := u8 (N.land (N.shiftr len 24) 255)]> (zeroBytes 32)))))
    d 4 0
  = slot0Bytes d.
Proof.
  intros Hlen. unfold slot0Bytes. rewrite <- Hlen.
  change (<[3%nat := u8 (N.land len 255)]>
       (<[2%nat := u8 (N.land (N.shiftr len 8) 255)]>
          (<[1%nat := u8 (N.land (N.shiftr len 16) 255)]>
             (<[0%nat := u8 (N.land (N.shiftr len 24) 255)]> (zeroBytes 32)))))
    with (lengthBytes len ++ zeroBytes 28).
  assert (length (lengthBytes len) = 4%nat) as Hl4 by done.
  destruct (N.ltb_spec len 28) as [Hlt|Hge].
  - rewrite copyLoop_spec
      by (rewrite ?length_app, ?length_zeroBytes, ?Hl4; lia).
    rewrite !Nat.add_0_r. rewrite take_app_length' by done.
    rewrite drop_0.
    rewrite drop_app_ge by (rewrite Hl4; lia).
    rewrite (take_ge d) by lia. rewrite (take_ge d) by lia.
    rewrite drop_zeroBytes, Hl4.
    do 3 f_equal. lia.
  - rewrite copyLoop_spec
      by (rewrite ?length_app, ?length_zeroBytes, ?Hl4; lia).
    rewrite !Nat.add_0_r. rewrite take_app_length' by done.
    rewrite drop_0.
    rewrite drop_app_ge by (rewrite Hl4; lia).
    change (N.to_nat 28) with 28%nat.
    rewrite drop_zeroBytes, Hl4.
    do 3 f_equal. lia.
Qed.

(** What a store within capacity leaves in storage: slot 0 at the
    base key, slot [i] at base key plus [i], every other key as it
    was. *)
Lemma storeMultiSlotBytes_spec (p : N) (s d : list byte) (st : gmap N N) :
  N.of_nat (length d) ≤ 8188 →
  let base := encodePointer p s in
  ∃ st',
    storeMultiSlotBytes p s d st = Ok st'
    ∧ (∀ k, k ≠ base → (∀ i, 0 < i < 256 → k ≠ bigEndianAdd base i) →
            st' !! k = st !! k)
    ∧ Blockchain_getStorageAt base st' = slot0Bytes d
    ∧ (∀ i, 0 < i → 28 + 32 * (i - 1) < N.of_nat (length d) →
            Blockchain_getStorageAt (bigEndianAdd base i) st'
            = slotBytes d (i - 1)).
Proof.
  intros Hcap base. unfold storeMultiSlotBytes. fold base.
  set (len := N.of_nat (length d)).
  assert (len ≤ 8188) as Hlen by done.
  rewrite (u32_small len) by (change (2 ^ 32) with 4294967296; lia).
  change (u32 (MAX_BYTE_SLOTS * 32 - 4)) with 8188.
  destruct (N.ltb_spec 8188 len) as [?|_]; [lia|].
  rewrite store_slot0 by done.
  destruct (storeLoop_spec base d len eq_refl Hlen
              (S (N.to_nat (len / 32))) 0
              (Blockchain_setStorageAt base (slot0Bytes d) st))
    as (st' & Hrun & Hframe & Hslots).
  { pose proof (N.Div0.div_mod len 32).
    pose proof (N.mod_upper_bound len 32). lia. }
  exists st'. split; [exact Hrun|]. split; [|split].
  - intros k Hk0 Hk. rewrite Hframe by done.
    unfold Blockchain_setStorageAt. by apply lookup_insert_ne.
  - assert (∀ i, 0 < i < 256 → base ≠ bigEndianAdd base i) as Hfresh.
    { intros i Hi Heq. symmetry in Heq. revert Heq.
      apply bigEndianAdd_ne_base.
      change (2 ^ 256) with 115792089237316195423570985008687907853269984665640564039457584007913129639936. lia. }
    rewrite (getStorageAt_frame _ _ _ (Hframe _ Hfresh)).
    apply getStorageAt_set_eq, length_slot0Bytes.
  - intros i Hi Hoff. by apply Hslots.
Qed.

Lemma loadLoop_unfold (fuel : nat) (baseKey len offset slotIndex : N)
    (res : list byte) (st : gmap N N) :
  loadLoop fuel baseKey len offset slotIndex res st
  = if offset <? len then
      match fuel with
      | O => Revert "out of gas"
      | S fuel' =>
          loadLoop fuel' baseKey len (u32 (offset + 32))
            (u64 (slotIndex + 1))
            (copyLoop
               (N.to_nat (if len - offset <? 32 then len - offset else 32))
               0 res
               (Blockchain_getStorageAt (bigEndianAdd baseKey slotIndex) st)
               (N.to_nat offset) 0) st
      end
    else Ok res.
Proof. by destruct fuel. Qed.

Lemma loadLoop_spec (base : N) (d : list byte) (len : N) (st : gmap N N) :
  len = N.of_nat (length d) → len ≤ 8188 →
  (∀ i, 0 < i → 28 + 32 * (i - 1) < len →
        Blockchain_getStorageAt (bigEndianAdd base i) st
        = slotBytes d (i - 1)) →
  ∀ (fuel : nat) (m : N) (res : list byte),
    len ≤ 28 + 32 * m + 32 * N.of_nat fuel →
    length res = length d →
    take (N.to_nat (28 + 32 * m)) res = take (N.to_nat (28 + 32 * m)) d →
    loadLoop fuel base len (28 + 32 * m) (m + 1) res st = Ok d.
Proof.
  intros Hlen Hcap Hslots fuel.
  assert (∀ (m : N) (res : list byte),
            len ≤ 28 + 32 * m → length res = length d →
            take (N.to_nat (28 + 32 * m)) res
            = take (N.to_nat (28 + 32 * m)) d → res = d) as Hdone.
  { intros m res Hge Hl Ht.
    rewrite <- (take_ge res (N.to_nat (28 + 32 * m))) by lia.
    rewrite Ht. apply take_ge. lia. }
  induction fuel as [|fuel IH]; intros m res Hfuel Hl Ht;
    rewrite loadLoop_unfold;
    destruct (N.ltb_spec (28 + 32 * m) len) as [Hlt|Hge]; try lia.
  - f_equal. by apply (Hdone m).
  - assert (u32 (28 + 32 * m + 32) = 28 + 32 * (m + 1)) as ->.
    { unfold u32. rewrite N.mod_small; [lia|].
      change (2 ^ 32) with 4294967296. lia. }
    assert (u64 (m + 1 + 1) = m + 1 + 1) as ->.
    { unfold u64. rewrite N.mod_small; [lia|].
      change (2 ^ 64) with 18446744073709551616. lia. }
    rewrite Hslots by (rewrite ?N.add_sub; lia). rewrite N.add_sub.
    set (off := N.to_nat (28 + 32 * m)) in *.
    set (n := N.to_nat (if len - (28 + 32 * m) <? 32
                        then len - (28 + 32 * m) else 32)).
    assert (n = Nat.min 32 (length d - off)) as Hn.
    { unfold n. destruct (N.ltb_spec (len - (28 + 32 * m)) 32); lia. }
    apply IH; [lia|by rewrite length_copyLoop|].
    rewrite copyLoop_spec by (rewrite ?length_slotBytes; lia).
    rewrite !Nat.add_0_r, drop_0.
    assert (take n (slotBytes d m) = take n (drop off d)) as ->.
    { unfold slotBytes. fold off.
      rewrite take_app_le by (rewrite length_take, length_drop; lia).
      rewrite take_take. f_equal. lia. }
    rewrite Ht.
    replace (N.to_nat (28 + 32 * (m + 1))) with (off + 32)%nat by lia.
    rewrite app_assoc, take_take_drop.
    destruct (decide (n = 32%nat)) as [Hn32|Hn32].
    + rewrite Hn32.
      rewrite (take_app_le (take (off + 32) d));
        [|rewrite length_take; lia].
      rewrite take_take. f_equal. lia.
    + assert (off + n = length d)%nat as Hend by lia.
      rewrite Hend. rewrite (drop_ge res) by lia. rewrite app_nil_r.
      by rewrite (take_ge d (length d)) by lia.
  - f_equal. by apply (Hdone m).
Qed.

(** The round trip through storage.  The header bytes decode to the
    length, the first 28 bytes come back from slot 0 and the rest from
    the following slots. *)
Lemma load_after_store (p : N) (s d : list byte) (st' : gmap N N) :
  N.of_nat (length d) ≤ 8188 →
  Blockchain_getStorageAt (encodePointer p s) st' = slot0Bytes d →
  (∀ i, 0 < i → 28 + 32 * (i - 1) < N.of_nat (length d) →
        Blockchain_getStorageAt (bigEndianAdd (encodePointer p s) i) st'
        = slotBytes d (i - 1)) →
  loadMultiSlotBytes p s st' = Ok d.
Proof.
  intros Hcap H0 Hslots. unfold loadMultiSlotBytes. rewrite H0.
  set (len := N.of_nat (length d)).
  change (slot0Bytes d !!! 0%nat) with (u8 (N.land (N.shiftr len 24) 255)).
  change (slot0Bytes d !!! 1%nat) with (u8 (N.land (N.shiftr len 16) 255)).
  change (slot0Bytes d !!! 2%nat) with (u8 (N.land (N.shiftr len 8) 255)).
  change (slot0Bytes d !!! 3%nat) with (u8 (N.land len 255)).
  rewrite length_bytes_decode by (change (2 ^ 32) with 4294967296; lia).
  destruct (N.eqb_spec len 0) as [Hz|Hnz].
  - destruct d; [done|simpl in *; lia].
  - apply (loadLoop_spec _ d len st' eq_refl) with (m := 0);
      [lia|exact Hslots| | |].
    + pose proof (N.Div0.div_mod len 32).
      pose proof (N.mod_upper_bound len 32). lia.
    + rewrite length_copyLoop, length_zeroBytes. lia.
    + set (n := N.to_nat (if len <? 28 then len else 28)).
      assert (n = Nat.min 28 (length d)) as Hn.
      { unfold n. destruct (N.ltb_spec len 28); lia. }
      rewrite copyLoop_spec
        by (rewrite ?length_slot0Bytes, ?length_zeroBytes; lia).
      rewrite !Nat.add_0_r, take_0, app_nil_l.
      change (N.to_nat (28 + 32 * 0)) with 28%nat.
      assert (take n (drop 4 (slot0Bytes d)) = take n d) as ->.
      { unfold slot0Bytes. rewrite drop_app_length' by done.
        rewrite take_app_le by (rewrite length_take; lia).
        rewrite take_take. f_equal. lia. }
      destruct (decide (n = 28%nat)) as [Hn28|Hn28].
      * rewrite Hn28.
        rewrite (take_app_le (take 28 d)); [|rewrite length_take; lia].
        rewrite take_take. f_equal.
      * rewrite (take_ge d n) by lia.
        rewrite drop_zeroBytes.
        replace (N.to_nat len - (0 + n))%nat with 0%nat by lia.
        change (zeroBytes 0) with (@nil byte). by rewrite app_nil_r.
Qed.

(** ** Validation helpers and checked addition *)

Lemma bind_Ok {A B} (a : A) (f : A → result B) : (Ok a ≫= f) = f a.
Proof. done. Qed.

Lemma bind_Revert {A B} (msg : string) (f : A → result B) :
  (Revert msg ≫= f) = Revert msg.
Proof. done. Qed.

Ltac rbind := rewrite ?bind_Ok, ?bind_Revert.

Lemma Ok_inj {A} (a b : A) : Ok a = Ok b → a = b.
Proof. by intros [= ->]. Qed.

Lemma ensureSwitchExists_Ok (id : N) (st : gmap N N) :
  switchExists id st → ensureSwitchExists id st = Ok tt.
Proof.
  intros [H1 H2]. unfold ensureSwitchExists.
  destruct (N.eqb_spec id 0); [lia|].
  destruct (N.leb_spec (nextSwitchId_value st) id); [lia|done].
Qed.

Lemma ensureSwitchExists_Revert (id : N) (st : gmap N N) :
  ¬ switchExists id st →
  ensureSwitchExists id st = Revert "Switch does not exist".
Proof.
  intros Hn. unfold ensureSwitchExists.
  destruct (N.eqb_spec id 0); [done|].
  destruct (N.leb_spec (nextSwitchId_value st) id); [done|].
  exfalso. apply Hn. split; lia.
Qed.

Lemma ensureOwner_Ok (env : Env) (id : N) (st : gmap N N) :
  tx_sender env = loadSwitchOwner id st → ensureOwner env id st = Ok tt.
Proof. intros H. unfold ensureOwner. by rewrite bool_decide_eq_true_2. Qed.

Lemma ensureOwner_Revert (env : Env) (id : N) (st : gmap N N) :
  tx_sender env ≠ loadSwitchOwner id st →
  ensureOwner env id st = Revert "Only owner can call this method".
Proof. intros H. unfold ensureOwner. by rewrite bool_decide_eq_false_2. Qed.

Lemma ensureActive_Ok (id : N) (st : gmap N N) :
  loadSwitchStatus id st = STATUS_ACTIVE → ensureActive id st = Ok tt.
Proof. intros H. unfold ensureActive. by rewrite H. Qed.

Lemma ensureActive_Revert (id : N) (st : gmap N N) :
  loadSwitchStatus id st ≠ STATUS_ACTIVE →
  ensureActive id st = Revert "Switch is not active".
Proof.
  intros H. unfold ensureActive.
  by destruct (N.eqb_spec (loadSwitchStatus id st) STATUS_ACTIVE).
Qed.

Lemma ensureSwitchExists_cases (id : N) (st : gmap N N) :
  (switchExists id st ∧ ensureSwitchExists id st = Ok tt)
  ∨ (¬ switchExists id st
     ∧ ensureSwitchExists id st = Revert "Switch does not exist").
Proof.
  destruct (decide (1 ≤ id ∧ id < nextSwitchId_value st)) as [H|H].
  - left. split; [done|]. by apply ensureSwitchExists_Ok.
  - right. split; [done|]. by apply ensureSwitchExists_Revert.
Qed.

Lemma ensureOwner_cases (env : Env) (id : N) (st : gmap N N) :
  (tx_sender env = loadSwitchOwner id st ∧ ensureOwner env id st = Ok tt)
  ∨ (tx_sender env ≠ loadSwitchOwner id st
     ∧ ensureOwner env id st = Revert "Only owner can call this method").
Proof.
  destruct (decide (tx_sender env = loadSwitchOwner id st)) as [H|H].
  - left. split; [done|]. by apply ensureOwner_Ok.
  - right. split; [done|]. by apply ensureOwner_Revert.
Qed.

Lemma ensureActive_cases (id : N) (st : gmap N N) :
  (loadSwitchStatus id st = STATUS_ACTIVE ∧ ensureActive id st = Ok tt)
  ∨ (loadSwitchStatus id st ≠ STATUS_ACTIVE
     ∧ ensureActive id st = Revert "Switch is not active").
Proof.
  destruct (decide (loadSwitchStatus id st = STATUS_ACTIVE)) as [H|H].
  - left. split; [done|]. by apply ensureActive_Ok.
  - right. split; [done|]. by apply ensureActive_Revert.
Qed.

(** Case analysis on the three guards at the head of an operation. *)
Ltac guard_exists id st :=
  let H := fresh "Hexists" in
  destruct (ensureSwitchExists_cases id st) as [[H ->]|[H ->]]; rbind.
Ltac guard_owner env id st :=
  let H := fresh "Howner" in
  destruct (ensureOwner_cases env id st) as [[H ->]|[H ->]]; rbind.
Ltac guard_active id st :=
  let H := fresh "Hactive" in
  destruct (ensureActive_cases id st) as [[H ->]|[H ->]]; rbind.

Lemma SafeMath_add_Ok (a b : N) :
  a + b < 2 ^ 256 → SafeMath_add a b = Ok (a + b).
Proof.
  intros H. unfold SafeMath_add, U256_LIMIT. rewrite N.mod_small by done.
  destruct (N.ltb_spec (a + b) a); [lia|done].
Qed.

Lemma SafeMath_add_overflow (a b : N) :
  b < 2 ^ 256 → 2 ^ 256 ≤ a + b →
  SafeMath_add a b = Revert "SafeMath: addition overflow".
Proof.
  intros Hb H. unfold SafeMath_add, U256_LIMIT.
  pose proof (N.Div0.div_mod (a + b) (2 ^ 256)) as Hdm.
  pose proof (N.mod_upper_bound (a + b) (2 ^ 256)) as Hlt.
  set (M := 2 ^ 256) in *.
  assert (M = 115792089237316195423570985008687907853269984665640564039457584007913129639936) as HM by reflexivity.
  destruct (N.ltb_spec ((a + b) mod M) a) as [|Hge]; [done|].
  exfalso. generalize dependent ((a + b) / M).
  generalize dependent ((a + b) mod M). intros. lia.
Qed.

(** Checked addition returns exactly when the sum fits 256 bits. *)
Lemma SafeMath_add_inv (a b c : N) :
  b < 2 ^ 256 →
  SafeMath_add a b = Ok c → c = a + b ∧ a + b < 2 ^ 256.
Proof.
  intros Hb H.
  destruct (N.lt_ge_cases (a + b) (2 ^ 256)) as [Hlt|Hge].
  - rewrite SafeMath_add_Ok in H by done. by injection H as <-.
  - by rewrite SafeMath_add_overflow in H.
Qed.

(** ** Multi-slot byte store: what a store leaves alone *)

Lemma storeLoop_frame (fuel : nat) (base : N) (d : list byte) (len : N) :
  ∀ (off idx : N) (st st' : gmap N N),
    storeLoop fuel base d len off idx st = Ok st' →
    idx < 2 ^ 64 →
    ∀ k, (∀ j, j < 2 ^ 64 → k ≠ bigEndianAdd base j) → st' !! k = st !! k.
Proof.
  induction fuel as [|fuel IH]; intros off idx st st' Hrun Hidx k Hk;
    rewrite storeLoop_unfold in Hrun; destruct (off <? len);
    try discriminate; try (by injection Hrun as <-).
  rewrite (IH _ _ _ _ Hrun) by
    (try done; unfold u64; apply N.mod_upper_bound; done).
  unfold Blockchain_setStorageAt. apply lookup_insert_ne.
  intros Heq. by apply (Hk idx).
Qed.

Lemma storeMultiSlotBytes_frame (p : N) (s d : list byte) (st st' : gmap N N) :
  storeMultiSlotBytes p s d st = Ok st' →
  ∀ k, k ≠ encodePointer p s →
       (∀ j, j < 2 ^ 64 → k ≠ bigEndianAdd (encodePointer p s) j) →
       st' !! k = st !! k.
Proof.
  unfold storeMultiSlotBytes. intros Hrun k Hk0 Hk.
  destruct (_ <? _); [discriminate|].
  rewrite (storeLoop_frame _ _ _ _ _ _ _ _ Hrun) by done.
  unfold Blockchain_setStorageAt. by apply lookup_insert_ne.
Qed.

Lemma storeMultiSlotBytes_unchanged_ns (p q : N) (s d : list byte)
    (st st' : gmap N N) :
  storeMultiSlotBytes q s d st = Ok st' →
  q < 255 → length s = 30%nat → p ≠ q → unchanged_ns p st st'.
Proof.
  intros Hrun Hq Hl Hne k Hk.
  apply (storeMultiSlotBytes_frame _ _ _ _ _ Hrun).
  - intros ->. rewrite ns_encodePointer in Hk by (try done; lia). congruence.
  - intros j Hj ->. rewrite ns_bigEndianAdd in Hk by done. congruence.
Qed.

(** ** Round trip, capacity and holes *)

(** C2: a byte array of at most 256*32-4 bytes stored under a pointer
    and sub-pointer is read back unchanged from the resulting storage,
    whatever the storage held before. *)
Theorem C2_store_load_roundtrip (p : N) (s d : list byte) (st : gmap N N) :
  N.of_nat (length d) ≤ MAX_BYTE_SLOTS * 32 - 4 →
  (st' ← storeMultiSlotBytes p s d st; loadMultiSlotBytes p s st') = Ok d.
Proof.
  intros Hcap. change (MAX_BYTE_SLOTS * 32 - 4) with 8188 in Hcap.
  destruct (storeMultiSlotBytes_spec p s d st Hcap)
    as (st' & -> & _ & H0 & Hslots).
  simpl. by apply load_after_store.
Qed.

Lemma C2_store_load_roundtrip_witness :
  (st' ← storeMultiSlotBytes switchDataChunksPointer (compoundSubPointer 1 0)
           (map u8 [97; 98; 99]) ∅;
   loadMultiSlotBytes switchDataChunksPointer (compoundSubPointer 1 0) st')
  = Ok (map u8 [97; 98; 99]).
Proof. apply C2_store_load_roundtrip. vm_compute. discriminate. Defined.

Lemma storeMultiSlotBytes_over (p : N) (s d : list byte) (st : gmap N N) :
  N.of_nat (length d) < 2 ^ 32 → 8188 < N.of_nat (length d) →
  storeMultiSlotBytes p s d st = Revert CAPACITY_ERROR.
Proof.
  intros H32 Hover. unfold storeMultiSlotBytes.
  rewrite (u32_small (N.of_nat (length d))) by done.
  change (u32 (MAX_BYTE_SLOTS * 32 - 4)) with 8188.
  destruct (N.ltb_spec 8188 (N.of_nat (length d))); [done|lia].
Qed.

Lemma slotKeys_avoid (p : N) (s : list byte) (k : N) :
  k ∉ slotKeys p s →
  k ≠ encodePointer p s
  ∧ ∀ i, 0 < i < 256 → k ≠ bigEndianAdd (encodePointer p s) i.
Proof.
  unfold slotKeys. intros Hk. split.
  - intros ->. apply Hk. left.
  - intros i Hi ->. apply Hk. right.
    apply list_elem_of_fmap. exists (N.to_nat i). split.
    + f_equal. lia.
    + apply elem_of_seq. lia.
Qed.

Lemma storeMultiSlotBytes_fits (p : N) (s d : list byte) (st : gmap N N) :
  N.of_nat (length d) ≤ 8188 →
  ∃ st', storeMultiSlotBytes p s d st = Ok st'
         ∧ ∀ k, k ∉ slotKeys p s → st' !! k = st !! k.
Proof.
  intros Hle.
  destruct (storeMultiSlotBytes_spec p s d st Hle) as (st' & Hrun & Hfr & _).
  exists st'. split; [done|]. intros k Hk.
  destruct (slotKeys_avoid _ _ _ Hk) as [Hk0 Hki]. by apply Hfr.
Qed.

Lemma storeMultiSlotBytes_capacity (p : N) (s d : list byte) (st : gmap N N) :
  N.of_nat (length d) < 2 ^ 32 →
  storeMultiSlotBytes p s d st = Revert CAPACITY_ERROR
  ↔ 8188 < N.of_nat (length d).
Proof.
  intros H32. split.
  - intros Hrev.
    destruct (N.lt_ge_cases 8188 (N.of_nat (length d))) as [|Hle]; [done|].
    destruct (storeMultiSlotBytes_fits p s d st Hle) as (u' & Hrun & _).
    congruence.
  - by apply storeMultiSlotBytes_over.
Qed.

Lemma length_slotKeys (p : N) (s : list byte) :
  N.of_nat (length (slotKeys p s)) = MAX_BYTE_SLOTS.
Proof.
  unfold slotKeys. cbn [length]. by rewrite length_map, length_seq.
Qed.

Lemma storeData_capacity (env : Env) (id idx : N) (d : list byte) (σ : State) :
  N.of_nat (length d) < 2 ^ 32 →
  (storeData env id idx d σ = Revert CAPACITY_ERROR →
   8188 < N.of_nat (length d))
  ∧ (switchExists id (storage σ) →
     tx_sender env = loadSwitchOwner id (storage σ) →
     loadSwitchStatus id (storage σ) = STATUS_ACTIVE →
     8188 < N.of_nat (length d) →
     storeData env id idx d σ = Revert CAPACITY_ERROR).
Proof.
  intros H32. split.
  - unfold storeData.
    guard_exists id (storage σ); [|discriminate].
    guard_owner env id (storage σ); [|discriminate].
    guard_active id (storage σ); [|discriminate].
    destruct (_ =? _)%nat; [discriminate|].
    destruct (storeMultiSlotBytes _ _ _ _) as [u'|msg] eqn:Hst;
      rbind.
    + unfold SafeMath_add. destruct (_ <? _); discriminate.
    + intros Hrev. injection Hrev as ->.
      by apply (storeMultiSlotBytes_capacity _ _ _ _ H32) in Hst.
  - intros Hex Hown Hact Hover. unfold storeData.
    rewrite ensureSwitchExists_Ok, ensureOwner_Ok, ensureActive_Ok by done.
    rbind.
    destruct (Nat.eqb_spec (length d) 0) as [Hz|_];
      [rewrite Hz in Hover; lia|].
    by rewrite storeMultiSlotBytes_over.
Qed.

Lemma storeDecryptionKey_capacity (env : Env) (id : N) (d : list byte)
    (σ : State) :
  N.of_nat (length d) < 2 ^ 32 →
  (storeDecryptionKey env id d σ = Revert CAPACITY_ERROR →
   8188 < N.of_nat (length d))
  ∧ (switchExists id (storage σ) →
     tx_sender env = loadSwitchOwner id (storage σ) →
     loadSwitchStatus id (storage σ) = STATUS_ACTIVE →
     8188 < N.of_nat (length d) →
     storeDecryptionKey env id d σ = Revert CAPACITY_ERROR).
Proof.
  intros H32. split.
  - unfold storeDecryptionKey.
    guard_exists id (storage σ); [|discriminate].
    guard_owner env id (storage σ); [|discriminate].
    guard_active id (storage σ); [|discriminate].
    destruct (_ =? _)%nat; [discriminate|].
    destruct (storeMultiSlotBytes _ _ _ _) as [u'|msg] eqn:Hst;
      rbind; [discriminate|].
    intros Hrev. injection Hrev as ->.
    by apply (storeMultiSlotBytes_capacity _ _ _ _ H32) in Hst.
  - intros Hex Hown Hact Hover. unfold storeDecryptionKey.
    rewrite ensureSwitchExists_Ok, ensureOwner_Ok, ensureActive_Ok by done.
    rbind.
    destruct (Nat.eqb_spec (length d) 0) as [Hz|_];
      [rewrite Hz in Hover; lia|].
    by rewrite storeMultiSlotBytes_over.
Qed.

(** C9: the byte store rejects a payload with the capacity error
    exactly when it is longer than 256*32-4 = 8188 bytes; a payload of
    at most 8188 bytes is stored and changes at most 256 storage
    slots.  [storeData] and [storeDecryptionKey] report the capacity
    error only for such a payload, and do report it for one whenever
    their own checks (existence, owner, active, non-empty) pass. *)
Theorem C9_capacity_limit (p : N) (s d : list byte) (st : gmap N N) :
  N.of_nat (length d) < 2 ^ 32 →
  (storeMultiSlotBytes p s d st = Revert CAPACITY_ERROR
   ↔ MAX_BYTE_SLOTS * 32 - 4 < N.of_nat (length d))
  ∧ (fails (storeMultiSlotBytes p s d st) ↔ 8188 < N.of_nat (length d))
  ∧ (N.of_nat (length d) ≤ 8188 →
     ∃ st', storeMultiSlotBytes p s d st = Ok st'
            ∧ N.of_nat (length (slotKeys p s)) = MAX_BYTE_SLOTS
            ∧ ∀ k, k ∉ slotKeys p s → st' !! k = st !! k)
  ∧ (∀ env id idx σ,
       (storeData env id idx d σ = Revert CAPACITY_ERROR →
        8188 < N.of_nat (length d))
       ∧ (switchExists id (storage σ) →
          tx_sender env = loadSwitchOwner id (storage σ) →
          loadSwitchStatus id (storage σ) = STATUS_ACTIVE →
          8188 < N.of_nat (length d) →
          storeData env id idx d σ = Revert CAPACITY_ERROR))
  ∧ (∀ env id σ,
       (storeDecryptionKey env id d σ = Revert CAPACITY_ERROR →
        8188 < N.of_nat (length d))
       ∧ (switchExists id (storage σ) →
          tx_sender env = loadSwitchOwner id (storage σ) →
          loadSwitchStatus id (storage σ) = STATUS_ACTIVE →
          8188 < N.of_nat (length d) →
          storeDecryptionKey env id d σ = Revert CAPACITY_ERROR)).
Proof.
  intros H32. change (MAX_BYTE_SLOTS * 32 - 4) with 8188.
  split; [by apply storeMultiSlotBytes_capacity|].
  split; [|split; [|split]].
  - split.
    + intros [msg Hrev].
      destruct (N.lt_ge_cases 8188 (N.of_nat (length d))) as [|Hle]; [done|].
      destruct (storeMultiSlotBytes_fits p s d st Hle) as (u' & Hrun & _).
      congruence.
    + intros Hover. exists CAPACITY_ERROR.
      by apply storeMultiSlotBytes_capacity.
  - intros Hle. destruct (storeMultiSlotBytes_fits p s d st Hle)
      as (st' & Hrun & Hfr).
    exists st'. split; [done|]. split; [apply length_slotKeys|done].
  - intros env id idx σ. by apply storeData_capacity.
  - intros env id σ. by apply storeDecryptionKey_capacity.
Qed.

Lemma C9_capacity_limit_witness :
  storeMultiSlotBytes switchDataChunksPointer (compoundSubPointer 1 0)
    (map u8 [97; 98; 99]) ∅ = Revert CAPACITY_ERROR
  ↔ MAX_BYTE_SLOTS * 32 - 4 < 3.
Proof.
  apply (C9_capacity_limit switchDataChunksPointer (compoundSubPointer 1 0)
           (map u8 [97; 98; 99]) ∅).
  by vm_compute.
Defined.

Lemma loadMultiSlotBytes_unset (p : N) (s : list byte) (st : gmap N N) :
  st !! encodePointer p s = None → loadMultiSlotBytes p s st = Ok [].
Proof.
  intros H. unfold loadMultiSlotBytes, Blockchain_getStorageAt.
  rewrite H. change (default 0 None) with 0. reflexivity.
Qed.

(** C10: reading a chunk index below [chunkCount] whose storage key
    was never written does not fail: slot 0 reads as 32 zero bytes, the
    decoded length is 0 and [getData] returns the empty byte array. *)
Theorem C10_hole_read_empty (id idx : N) (σ : State) :
  switchExists id (storage σ) →
  idx < loadSwitchChunkCount id (storage σ) →
  storage σ
    !! encodePointer switchDataChunksPointer (compoundSubPointer id idx)
  = None →
  getData id idx σ = Ok [].
Proof.
  intros Hex Hidx Hunset. unfold getData.
  rewrite ensureSwitchExists_Ok by done. rbind.
  destruct (N.leb_spec (loadSwitchChunkCount id (storage σ)) idx); [lia|].
  by apply loadMultiSlotBytes_unset.
Qed.

Lemma C10_hole_read_empty_witness : getData 1 1 holeRun = Ok [].
Proof.
  apply C10_hole_read_empty.
  - split; by vm_compute.
  - by vm_compute.
  - by vm_compute.
Defined.

(** ** Fields of a switch under storage writes *)

Lemma length_EMPTY_POINTER : length EMPTY_POINTER = 30%nat.
Proof. apply length_zeroBytes. Qed.

Lemma switchKey_alias (p id id' : N) :
  id mod 2 ^ 240 = id' mod 2 ^ 240 → switchKey p id = switchKey p id'.
Proof.
  intros H. unfold switchKey, encodePointer.
  by rewrite !fromBytesBE_u256ToSubPointer, H.
Qed.

Lemma switchKey_inj (p id id' : N) :
  p < 256 → switchKey p id = switchKey p id' →
  id mod 2 ^ 240 = id' mod 2 ^ 240.
Proof. intros Hp. rewrite !switchKey_small by done. lia. Qed.

Lemma getU256_unchanged (p id : N) (st st' : gmap N N) :
  p < 256 → unchanged_ns p st st' →
  getU256ForSwitch p id st' = getU256ForSwitch p id st.
Proof.
  intros Hp H.
  rewrite (getU256ForSwitch_read p id st'), (getU256ForSwitch_read p id st).
  apply (readU256_unchanged p); [done|by apply ns_switchKey].
Qed.

Lemma getAddress_unchanged (p id : N) (st st' : gmap N N) :
  p < 256 → unchanged_ns p st st' →
  getAddressForSwitch p id st' = getAddressForSwitch p id st.
Proof.
  intros Hp H. unfold getAddressForSwitch.
  apply (getStorageAt_unchanged p); [done|].
  apply ns_encodePointer; [done|apply length_u256ToSubPointer].
Qed.

Lemma nextSwitchId_unchanged (st st' : gmap N N) :
  unchanged_ns nextSwitchIdPointer st st' →
  nextSwitchId_value st' = nextSwitchId_value st.
Proof.
  intros H. rewrite (nextSwitchId_value_read st'), (nextSwitchId_value_read st).
  apply (readU256_unchanged nextSwitchIdPointer); [done|].
  apply ns_encodePointer; [done|apply length_EMPTY_POINTER].
Qed.

Lemma getU256_setU256_same (p id v : N) (st : gmap N N) :
  getU256ForSwitch p id (setU256ForSwitch p id v st) = v mod 2 ^ 256.
Proof.
  rewrite getU256ForSwitch_read. unfold setU256ForSwitch.
  fold (switchKey p id). rewrite readU256_set_u256.
  by rewrite decide_True.
Qed.

Lemma getU256_setU256_alias (p id id' v : N) (st : gmap N N) :
  id mod 2 ^ 240 = id' mod 2 ^ 240 →
  getU256ForSwitch p id (setU256ForSwitch p id' v st) = v mod 2 ^ 256.
Proof.
  intros H. rewrite getU256ForSwitch_read, (switchKey_alias p id id' H).
  rewrite <- getU256ForSwitch_read. apply getU256_setU256_same.
Qed.

Lemma getU256_setU256_other (p id id' v : N) (st : gmap N N) :
  p < 256 → id mod 2 ^ 240 ≠ id' mod 2 ^ 240 →
  getU256ForSwitch p id (setU256ForSwitch p id' v st)
  = getU256ForSwitch p id st.
Proof.
  intros Hp H. rewrite (getU256ForSwitch_read p id st).
  rewrite getU256ForSwitch_read. unfold setU256ForSwitch.
  fold (switchKey p id'). rewrite readU256_set_u256.
  rewrite decide_False; [done|].
  intros Heq. by apply switchKey_inj in Heq.
Qed.

(** Writes that stay out of a namespace, one storage write at a time. *)
Lemma unchanged_ns_step (p k : N) (v : list byte) (st0 st : gmap N N) :
  k / 2 ^ 248 ≠ p → unchanged_ns p st0 st →
  unchanged_ns p st0 (Blockchain_setStorageAt k v st).
Proof.
  intros Hk H. eapply unchanged_ns_trans; [exact H|].
  by apply unchanged_ns_set.
Qed.

Ltac sub_length :=
  first [ apply length_u256ToSubPointer
        | apply length_addressToSubPointer
        | apply length_compoundSubPointer
        | apply length_addressIndexSubPointer
        | apply length_EMPTY_POINTER ].

Ltac unfold_accessors :=
  unfold storeSwitchOwner, storeSwitchBeneficiary, storeSwitchInterval,
    storeSwitchGracePeriod, storeSwitchLastCheckin, storeSwitchStatus,
    storeSwitchTriggerBlock, storeSwitchChunkCount, loadSwitchOwner,
    loadSwitchBeneficiary, loadSwitchInterval, loadSwitchGracePeriod,
    loadSwitchLastCheckin, loadSwitchStatus, loadSwitchTriggerBlock,
    loadSwitchChunkCount in *.

Ltac unfold_pointers :=
  unfold nextSwitchIdPointer, switchOwnerPointer, switchBeneficiaryPointer,
    switchIntervalPointer, switchGracePeriodPointer,
    switchLastCheckinPointer, switchStatusPointer,
    switchTriggerBlockPointer, switchChunkCountPointer,
    switchEncryptedKeyPointer, switchDataChunksPointer,
    ownerSwitchCountPointer, ownerSwitchIndexPointer in *.

(** Solves [unchanged_ns p st (write_n (... (write_1 st)))] when no
    write goes to namespace [p]. *)
Ltac solve_unchanged :=
  unfold_accessors;
  unfold setU256ForSwitch, setAddressForSwitch, nextSwitchId_set,
    setOwnerSwitchCount, setOwnerSwitchAtIndex;
  repeat (apply unchanged_ns_step;
          [rewrite ns_encodePointer by (done || sub_length); done|]);
  first [apply unchanged_ns_refl | eassumption].

Lemma getU256_range (p id : N) (st : gmap N N) :
  getU256ForSwitch p id st < 2 ^ 256.
Proof. rewrite getU256ForSwitch_read. apply readU256_range. Qed.

Lemma nextSwitchId_set_value (v : N) (st : gmap N N) :
  nextSwitchId_value (nextSwitchId_set v st) = v mod 2 ^ 256.
Proof.
  rewrite nextSwitchId_value_read. unfold nextSwitchId_set.
  rewrite readU256_set_u256. by rewrite decide_True.
Qed.

(** ** What a successful call did *)

Lemma checkin_inv (env : Env) (id : N) (σ : State) (r : bool * State) :
  checkin env id σ = Ok r →
  switchExists id (storage σ)
  ∧ tx_sender env = loadSwitchOwner id (storage σ)
  ∧ loadSwitchStatus id (storage σ) = STATUS_ACTIVE
  ∧ r = (true,
         emitEvent (CheckedInEvent id (block_numberU256 env))
           (storeSwitchLastCheckin id (block_numberU256 env) (storage σ)) σ).
Proof.
  unfold checkin.
  guard_exists id (storage σ); [|discriminate].
  guard_owner env id (storage σ); [|discriminate].
  guard_active id (storage σ); [|discriminate].
  intros Heq. apply Ok_inj in Heq. by subst r.
Qed.

Lemma trigger_inv (env : Env) (id : N) (σ : State) (r : bool * State) :
  trigger env id σ = Ok r →
  let st := storage σ in
  let st' := storeSwitchTriggerBlock id (block_numberU256 env)
               (storeSwitchStatus id STATUS_TRIGGERED st) in
  switchExists id st
  ∧ loadSwitchStatus id st ≠ STATUS_TRIGGERED
  ∧ loadSwitchStatus id st ≠ STATUS_CANCELLED
  ∧ loadSwitchLastCheckin id st + loadSwitchInterval id st
    < block_numberU256 env
  ∧ r = (true,
         emitEvent
           (SwitchTriggeredEvent id (loadSwitchBeneficiary id st')
              (block_numberU256 env)) st' σ).
Proof.
  unfold trigger.
  guard_exists id (storage σ); [|discriminate].
  destruct (N.eqb_spec (loadSwitchStatus id (storage σ)) STATUS_TRIGGERED)
    as [|Hnt]; [discriminate|].
  destruct (N.eqb_spec (loadSwitchStatus id (storage σ)) STATUS_CANCELLED)
    as [|Hnc]; [discriminate|].
  destruct (SafeMath_add _ _) as [deadline|] eqn:Hadd; rbind; [|discriminate].
  apply SafeMath_add_inv in Hadd as [-> Hfit]; [|apply getU256_range].
  destruct (N.leb_spec (block_numberU256 env)
              (loadSwitchLastCheckin id (storage σ)
               + loadSwitchInterval id (storage σ))); [discriminate|].
  intros Heq. apply Ok_inj in Heq. by subst r.
Qed.

Lemma cancel_inv (env : Env) (id : N) (σ : State) (r : bool * State) :
  cancel env id σ = Ok r →
  let st := storage σ in
  switchExists id st
  ∧ tx_sender env = loadSwitchOwner id st
  ∧ loadSwitchStatus id st = STATUS_TRIGGERED
  ∧ loadSwitchTriggerBlock id st + loadSwitchGracePeriod id st < 2 ^ 256
  ∧ block_numberU256 env
    ≤ loadSwitchTriggerBlock id st + loadSwitchGracePeriod id st
  ∧ r = (true,
         emitEvent (SwitchCancelledEvent id (block_numberU256 env))
           (storeSwitchTriggerBlock id 0
              (storeSwitchLastCheckin id (block_numberU256 env)
                 (storeSwitchStatus id STATUS_ACTIVE st))) σ).
Proof.
  unfold cancel.
  guard_exists id (storage σ); [|discriminate].
  guard_owner env id (storage σ); [|discriminate].
  destruct (N.eqb_spec (loadSwitchStatus id (storage σ)) STATUS_TRIGGERED)
    as [Ht|]; [|discriminate]. cbn [negb].
  destruct (SafeMath_add _ _) as [deadline|] eqn:Hadd; rbind; [|discriminate].
  apply SafeMath_add_inv in Hadd as [-> Hfit]; [|apply getU256_range].
  destruct (N.ltb_spec
              (loadSwitchTriggerBlock id (storage σ)
               + loadSwitchGracePeriod id (storage σ))
              (block_numberU256 env)); [discriminate|].
  intros Heq. apply Ok_inj in Heq. by subst r.
Qed.

Lemma updateBeneficiary_inv (env : Env) (id : N) (b : list byte) (σ : State)
    (r : bool * State) :
  updateBeneficiary env id b σ = Ok r →
  switchExists id (storage σ)
  ∧ r = (true,
         emitEvent (BeneficiaryUpdatedEvent id b)
           (storeSwitchBeneficiary id b (storage σ)) σ).
Proof.
  unfold updateBeneficiary.
  guard_exists id (storage σ); [|discriminate].
  guard_owner env id (storage σ); [|discriminate].
  guard_active id (storage σ); [|discriminate].
  case_bool_decide; [discriminate|].
  intros Heq. apply Ok_inj in Heq. by subst r.
Qed.

Lemma updateInterval_inv (env : Env) (id i : N) (σ : State)
    (r : bool * State) :
  updateInterval env id i σ = Ok r →
  switchExists id (storage σ)
  ∧ r = (true, withStorage (storeSwitchInterval id i (storage σ)) σ).
Proof.
  unfold updateInterval.
  guard_exists id (storage σ); [|discriminate].
  guard_owner env id (storage σ); [|discriminate].
  guard_active id (storage σ); [|discriminate].
  destruct (i =? 0); [discriminate|].
  intros Heq. apply Ok_inj in Heq. by subst r.
Qed.

Lemma storeDecryptionKey_inv (env : Env) (id : N) (k : list byte) (σ : State)
    (r : bool * State) :
  storeDecryptionKey env id k σ = Ok r →
  switchExists id (storage σ)
  ∧ ∃ st1,
      storeMultiSlotBytes switchEncryptedKeyPointer (u256ToSubPointer id) k
        (storage σ) = Ok st1
      ∧ r = (true, withStorage st1 σ).
Proof.
  unfold storeDecryptionKey.
  guard_exists id (storage σ); [|discriminate].
  guard_owner env id (storage σ); [|discriminate].
  guard_active id (storage σ); [|discriminate].
  destruct (_ =? _)%nat; [discriminate|].
  destruct (storeMultiSlotBytes _ _ _ _) as [st1|]; rbind; [|discriminate].
  intros Heq. apply Ok_inj in Heq. subst r. split; [done|]. by exists st1.
Qed.

Lemma storeData_inv (env : Env) (id idx : N) (d : list byte) (σ : State)
    (r : bool * State) :
  storeData env id idx d σ = Ok r →
  switchExists id (storage σ)
  ∧ tx_sender env = loadSwitchOwner id (storage σ)
  ∧ loadSwitchStatus id (storage σ) = STATUS_ACTIVE
  ∧ idx + 1 < 2 ^ 256
  ∧ ∃ st1,
      storeMultiSlotBytes switchDataChunksPointer
        (compoundSubPointer id idx) d (storage σ) = Ok st1
      ∧ r = (true,
             emitEvent (DataStoredEvent id idx)
               (if loadSwitchChunkCount id st1 <? idx + 1
                then storeSwitchChunkCount id (idx + 1) st1 else st1) σ).
Proof.
  unfold storeData.
  guard_exists id (storage σ); [|discriminate].
  guard_owner env id (storage σ); [|discriminate].
  guard_active id (storage σ); [|discriminate].
  destruct (_ =? _)%nat; [discriminate|].
  destruct (storeMultiSlotBytes _ _ _ _) as [st1|]; rbind; [|discriminate].
  destruct (SafeMath_add idx 1) as [c|] eqn:Hadd; rbind; [|discriminate].
  apply SafeMath_add_inv in Hadd as [-> Hfit]; [|done].
  intros Heq. apply Ok_inj in Heq. subst r.
  split; [exact Hexists|]. split; [exact Howner|]. split; [exact Hactive|].
  split; [exact Hfit|]. exists st1. split; reflexivity.
Qed.

Lemma createSwitch_inv (env : Env) (b : list byte) (i g : N) (σ : State)
    (r : N * State) :
  createSwitch env b i g σ = Ok r →
  let st := storage σ in
  let id := nextSwitchId_value st in
  let sender := tx_sender env in
  let st8 :=
    storeSwitchChunkCount id 0
      (storeSwitchTriggerBlock id 0
         (storeSwitchStatus id STATUS_ACTIVE
            (storeSwitchLastCheckin id (block_numberU256 env)
               (storeSwitchGracePeriod id g
                  (storeSwitchInterval id i
                     (storeSwitchBeneficiary id b
                        (storeSwitchOwner id sender st))))))) in
  let cnt := getOwnerSwitchCount sender st8 in
  id + 1 < 2 ^ 256
  ∧ b ≠ Address_zero ∧ i ≠ 0 ∧ g ≠ 0
  ∧ r = (id,
         emitEvent (SwitchCreatedEvent id sender b)
           (nextSwitchId_set (id + 1)
              (setOwnerSwitchCount sender (cnt + 1)
                 (setOwnerSwitchAtIndex sender cnt id st8))) σ).
Proof.
  unfold createSwitch.
  case_bool_decide as Hb; [discriminate|].
  destruct (N.eqb_spec i 0) as [|Hi]; [discriminate|].
  destruct (N.eqb_spec g 0) as [|Hg]; [discriminate|].
  unfold addSwitchToOwner.
  destruct (SafeMath_add (getOwnerSwitchCount _ _) 1) as [c|] eqn:Hadd;
    rbind; [|discriminate].
  apply SafeMath_add_inv in Hadd as [-> Hfit]; [|done].
  destruct (SafeMath_add (nextSwitchId_value _) 1) as [c|] eqn:Hadd2;
    rbind; [|discriminate].
  apply SafeMath_add_inv in Hadd2 as [-> Hfit2]; [|done].
  intros Heq. apply Ok_inj in Heq. by subst r.
Qed.

(** ** Existence gate and access control *)

Lemma getU256_setU256 (p id id' v : N) (st : gmap N N) :
  p < 256 →
  getU256ForSwitch p id' (setU256ForSwitch p id v st)
  = if decide (sameSub id' id) then v mod 2 ^ 256
    else getU256ForSwitch p id' st.
Proof.
  intros Hp. unfold sameSub. case_decide as H.
  - by apply getU256_setU256_alias.
  - by apply getU256_setU256_other.
Qed.

Lemma not_exists_of (id : N) (st : gmap N N) :
  id = 0 ∨ nextSwitchId_value st ≤ id → ¬ switchExists id st.
Proof. unfold switchExists. lia. Qed.

(** C6: [getSwitch] returns exactly for [1 <= id < nextSwitchId], and
    every operation that takes a switch identifier reverts with
    "Switch does not exist" when the identifier is 0 or not below
    [nextSwitchId]. *)
Theorem C6_existence_gate (env : Env) (id : N) (σ : State) :
  (succeeds (getSwitch id σ)
   ↔ 1 ≤ id ∧ id < nextSwitchId_value (storage σ))
  ∧ (id = 0 ∨ nextSwitchId_value (storage σ) ≤ id →
     doesNotExist (getSwitch id σ)
     ∧ doesNotExist (checkin env id σ)
     ∧ (∀ idx d, doesNotExist (storeData env id idx d σ))
     ∧ (∀ k, doesNotExist (storeDecryptionKey env id k σ))
     ∧ doesNotExist (trigger env id σ)
     ∧ doesNotExist (cancel env id σ)
     ∧ (∀ b, doesNotExist (updateBeneficiary env id b σ))
     ∧ (∀ i, doesNotExist (updateInterval env id i σ))
     ∧ (∀ idx, doesNotExist (getData id idx σ))
     ∧ doesNotExist (getDecryptionKey id σ)
     ∧ doesNotExist (isExpired env id σ)).
Proof.
  split.
  - unfold getSwitch. split.
    + intros [r Hr]. revert Hr.
      by guard_exists id (storage σ); [|discriminate].
    + intros Hex. rewrite ensureSwitchExists_Ok by done. rbind. by eexists.
  - intros Hno. apply not_exists_of in Hno.
    unfold doesNotExist, getSwitch, checkin, storeData, storeDecryptionKey,
      trigger, cancel, updateBeneficiary, updateInterval, getData,
      getDecryptionKey, isExpired.
    rewrite (ensureSwitchExists_Revert _ _ Hno). rbind.
    repeat split; intros; by rbind.
Qed.

Lemma C6_existence_gate_witness :
  doesNotExist (checkin (envAt alice 200) 2 holeRun).
Proof.
  destruct (C6_existence_gate (envAt alice 200) 2 holeRun) as [_ H].
  assert (2 = 0 ∨ nextSwitchId_value (storage holeRun) ≤ 2) as Hno
    by (right; by vm_compute).
  destruct (H Hno) as (_ & Hc & _). exact Hc.
Defined.

Lemma trigger_run (env : Env) (id : N) (σ : State) :
  let st := storage σ in
  switchExists id st →
  loadSwitchStatus id st ≠ STATUS_TRIGGERED →
  loadSwitchStatus id st ≠ STATUS_CANCELLED →
  loadSwitchLastCheckin id st + loadSwitchInterval id st
  < block_numberU256 env →
  block_numberU256 env < 2 ^ 256 →
  ∃ σ',
    trigger env id σ = Ok (true, σ')
    ∧ storage σ'
      = storeSwitchTriggerBlock id (block_numberU256 env)
          (storeSwitchStatus id STATUS_TRIGGERED st).
Proof.
  intros st Hex Hnt Hnc Hdl Hblk. subst st. unfold trigger.
  rewrite (ensureSwitchExists_Ok _ _ Hex). rbind.
  set (st := storage σ) in *.
  destruct (N.eqb_spec (loadSwitchStatus id st) STATUS_TRIGGERED); [done|].
  destruct (N.eqb_spec (loadSwitchStatus id st) STATUS_CANCELLED); [done|].
  rewrite SafeMath_add_Ok by lia. rbind.
  destruct (N.leb_spec (block_numberU256 env)
              (loadSwitchLastCheckin id st + loadSwitchInterval id st));
    [lia|].
  by eexists.
Qed.

(** C7: on an existing switch, the six owner-gated operations revert
    with "Only owner can call this method" for a caller that is not
    the stored owner, while [trigger] returns for any caller as soon
    as the status is neither TRIGGERED nor CANCELLED and the current
    block is past [lastCheckin + interval]. *)
Theorem C7_access_control (env : Env) (id : N) (σ : State) :
  switchExists id (storage σ) →
  (tx_sender env ≠ loadSwitchOwner id (storage σ) →
   notOwner (checkin env id σ)
   ∧ (∀ idx d, notOwner (storeData env id idx d σ))
   ∧ (∀ k, notOwner (storeDecryptionKey env id k σ))
   ∧ notOwner (cancel env id σ)
   ∧ (∀ b, notOwner (updateBeneficiary env id b σ))
   ∧ (∀ i, notOwner (updateInterval env id i σ)))
  ∧ (loadSwitchStatus id (storage σ) ≠ STATUS_TRIGGERED →
     loadSwitchStatus id (storage σ) ≠ STATUS_CANCELLED →
     loadSwitchLastCheckin id (storage σ) + loadSwitchInterval id (storage σ)
     < block_numberU256 env →
     block_numberU256 env < 2 ^ 256 →
     ∀ caller, ∃ σ',
       trigger (envAt caller (block_numberU256 env)) id σ = Ok (true, σ')).
Proof.
  intros Hex. split.
  - intros Hno.
    unfold notOwner, checkin, storeData, storeDecryptionKey, cancel,
      updateBeneficiary, updateInterval.
    rewrite (ensureSwitchExists_Ok _ _ Hex). rbind.
    rewrite (ensureOwner_Revert _ _ _ Hno). rbind.
    repeat split; intros; by rbind.
  - intros Hnt Hnc Hdl Hblk caller.
    destruct (trigger_run (envAt caller (block_numberU256 env)) id σ)
      as (σ' & Hrun & _); try done.
    by exists σ'.
Qed.

Lemma C7_access_control_witness :
  notOwner (checkin (envAt carol 105) 1 holeRun).
Proof.
  assert (switchExists 1 (storage holeRun)) as Hex
    by (split; by vm_compute).
  destruct (C7_access_control (envAt carol 105) 1 holeRun Hex) as [H _].
  assert (tx_sender (envAt carol 105) ≠ loadSwitchOwner 1 (storage holeRun))
    as Hno by (by vm_compute).
  destruct (H Hno) as (Hc & _). exact Hc.
Defined.

(** ** Trigger and cancel *)

Lemma mod_u256_small (v : N) : v < 2 ^ 256 → v mod 2 ^ 256 = v.
Proof. apply N.mod_small. Qed.

Lemma storage_emitEvent (e : NetEvent) (st : gmap N N) (s : State) :
  storage (emitEvent e st s) = st.
Proof. done. Qed.

Lemma storage_withStorage (st : gmap N N) (s : State) :
  storage (withStorage st s) = st.
Proof. done. Qed.

Lemma trigger_storage_fields (id blk : N) (st : gmap N N) :
  let st' := storeSwitchTriggerBlock id blk
               (storeSwitchStatus id STATUS_TRIGGERED st) in
  nextSwitchId_value st' = nextSwitchId_value st
  ∧ loadSwitchStatus id st' = STATUS_TRIGGERED
  ∧ loadSwitchTriggerBlock id st' = blk mod 2 ^ 256.
Proof.
  intros st'. split; [|split].
  - apply nextSwitchId_unchanged. subst st'. solve_unchanged.
  - unfold loadSwitchStatus.
    rewrite (getU256_unchanged switchStatusPointer id
               (storeSwitchStatus id STATUS_TRIGGERED st) st')
      by (done || (subst st'; solve_unchanged)).
    apply getU256_setU256_same.
  - apply getU256_setU256_same.
Qed.

Lemma cancel_storage_fields (id blk : N) (st : gmap N N) :
  let st' := storeSwitchTriggerBlock id 0
               (storeSwitchLastCheckin id blk
                  (storeSwitchStatus id STATUS_ACTIVE st)) in
  nextSwitchId_value st' = nextSwitchId_value st
  ∧ loadSwitchStatus id st' = STATUS_ACTIVE
  ∧ loadSwitchLastCheckin id st' = blk mod 2 ^ 256
  ∧ loadSwitchTriggerBlock id st' = 0
  ∧ loadSwitchInterval id st' = loadSwitchInterval id st.
Proof.
  intros st'. split; [|split; [|split; [|split]]].
  - apply nextSwitchId_unchanged. subst st'. solve_unchanged.
  - unfold loadSwitchStatus.
    rewrite (getU256_unchanged switchStatusPointer id
               (storeSwitchStatus id STATUS_ACTIVE st) st')
      by (done || (subst st'; solve_unchanged)).
    apply getU256_setU256_same.
  - unfold loadSwitchLastCheckin.
    rewrite (getU256_unchanged switchLastCheckinPointer id
               (storeSwitchLastCheckin id blk
                  (storeSwitchStatus id STATUS_ACTIVE st)) st')
      by (done || (subst st'; solve_unchanged)).
    apply getU256_setU256_same.
  - apply getU256_setU256_same.
  - apply getU256_unchanged; [done|]. subst st'. solve_unchanged.
Qed.

Lemma checkin_storage_fields (id blk : N) (st : gmap N N) :
  let st' := storeSwitchLastCheckin id blk st in
  nextSwitchId_value st' = nextSwitchId_value st
  ∧ loadSwitchStatus id st' = loadSwitchStatus id st
  ∧ loadSwitchLastCheckin id st' = blk mod 2 ^ 256
  ∧ loadSwitchInterval id st' = loadSwitchInterval id st.
Proof.
  intros st'. split; [|split; [|split]].
  - apply nextSwitchId_unchanged. subst st'. solve_unchanged.
  - apply getU256_unchanged; [done|]. subst st'. solve_unchanged.
  - apply getU256_setU256_same.
  - apply getU256_unchanged; [done|]. subst st'. solve_unchanged.
Qed.

(** [trigger] and [isExpired] look at the counter, the status, the last
    checkin and the interval of the switch, and at nothing else. *)
Lemma trigger_succeeds_iff (env : Env) (id : N) (σ : State) :
  block_numberU256 env < 2 ^ 256 →
  succeeds (trigger env id σ)
  ↔ switchExists id (storage σ)
    ∧ loadSwitchStatus id (storage σ) ≠ STATUS_TRIGGERED
    ∧ loadSwitchStatus id (storage σ) ≠ STATUS_CANCELLED
    ∧ loadSwitchLastCheckin id (storage σ) + loadSwitchInterval id (storage σ)
      < block_numberU256 env.
Proof.
  intros Hblk. split.
  - intros [r Hr]. apply trigger_inv in Hr. tauto.
  - intros (Hex & Hnt & Hnc & Hdl).
    destruct (trigger_run env id σ) as (σ' & Hrun & _); try done.
    by exists (true, σ').
Qed.

Lemma isExpired_eq (env : Env) (id : N) (σ : State) :
  switchExists id (storage σ) →
  isExpired env id σ
  = (deadline ← SafeMath_add (loadSwitchLastCheckin id (storage σ))
                 (loadSwitchInterval id (storage σ));
     Ok (deadline <? block_numberU256 env)).
Proof.
  intros Hex. unfold isExpired. rewrite ensureSwitchExists_Ok by done.
  by rbind.
Qed.

Lemma trigger_already (env : Env) (id : N) (σ : State) :
  switchExists id (storage σ) →
  loadSwitchStatus id (storage σ) = STATUS_TRIGGERED →
  trigger env id σ = Revert "Switch already triggered".
Proof.
  intros Hex Hst. unfold trigger. rewrite ensureSwitchExists_Ok by done.
  rbind. by rewrite Hst.
Qed.

Lemma trigger_early (env : Env) (id : N) (σ : State) :
  block_numberU256 env
  ≤ loadSwitchLastCheckin id (storage σ) + loadSwitchInterval id (storage σ) →
  fails (trigger env id σ).
Proof.
  intros Hle. unfold trigger.
  guard_exists id (storage σ); [|by eexists].
  destruct (_ =? STATUS_TRIGGERED); [by eexists|].
  destruct (_ =? STATUS_CANCELLED); [by eexists|].
  destruct (N.lt_ge_cases
              (loadSwitchLastCheckin id (storage σ)
               + loadSwitchInterval id (storage σ)) (2 ^ 256)) as [Hfit|Hov].
  - rewrite SafeMath_add_Ok by done. rbind.
    destruct (N.leb_spec (block_numberU256 env)
                (loadSwitchLastCheckin id (storage σ)
                 + loadSwitchInterval id (storage σ))); [by eexists|lia].
  - rewrite SafeMath_add_overflow by (done || apply getU256_range). rbind.
    by eexists.
Qed.

(** C3: for an existing switch that is neither TRIGGERED nor
    CANCELLED, [trigger] reverts at or before block
    [lastCheckin + interval] and returns after it, leaving status
    TRIGGERED and [triggerBlock] equal to the current block; from then
    on every [trigger] reverts with "Switch already triggered"; the
    caller plays no part in the outcome. *)
Theorem C3_trigger_gating (env : Env) (id : N) (σ : State) :
  switchExists id (storage σ) →
  block_numberU256 env < 2 ^ 256 →
  let st := storage σ in
  let deadline := loadSwitchLastCheckin id st + loadSwitchInterval id st in
  (loadSwitchStatus id st ≠ STATUS_TRIGGERED →
   loadSwitchStatus id st ≠ STATUS_CANCELLED →
   (block_numberU256 env ≤ deadline → fails (trigger env id σ))
   ∧ (deadline < block_numberU256 env →
      ∃ σ',
        trigger env id σ = Ok (true, σ')
        ∧ loadSwitchStatus id (storage σ') = STATUS_TRIGGERED
        ∧ loadSwitchTriggerBlock id (storage σ') = block_numberU256 env
        ∧ ∀ env', trigger env' id σ' = Revert "Switch already triggered"))
  ∧ (loadSwitchStatus id st = STATUS_TRIGGERED →
     ∀ env', trigger env' id σ = Revert "Switch already triggered")
  ∧ (∀ caller,
       trigger (envAt caller (block_numberU256 env)) id σ = trigger env id σ).
Proof.
  intros Hex Hblk st deadline. subst st deadline. split; [|split].
  - intros Hnt Hnc. split; [apply trigger_early|].
    intros Hdl.
    destruct (trigger_run env id σ) as (σ' & Hrun & Hst'); try done.
    exists σ'. split; [done|].
    destruct (trigger_storage_fields id (block_numberU256 env) (storage σ))
      as (Hnext & Hstatus & Htb).
    rewrite Hst'. split; [done|]. split.
    + by rewrite Htb, mod_u256_small.
    + intros env'. apply trigger_already; rewrite Hst'; [|done].
      destruct Hex as [H1 H2]. split; [done|]. by rewrite Hnext.
  - intros Ht env'. by apply trigger_already.
  - intros caller. by destruct env.
Qed.

Lemma C3_trigger_gating_witness :
  fails (trigger (envAt carol 110) 1 holeRun)
  ∧ ∃ σ', trigger (envAt carol 111) 1 holeRun = Ok (true, σ')
          ∧ loadSwitchStatus 1 (storage σ') = STATUS_TRIGGERED
          ∧ loadSwitchTriggerBlock 1 (storage σ') = 111.
Proof.
  assert (switchExists 1 (storage holeRun)) as Hex
    by (split; by vm_compute).
  assert (loadSwitchStatus 1 (storage holeRun) ≠ STATUS_TRIGGERED) as Hnt
    by (by vm_compute).
  assert (loadSwitchStatus 1 (storage holeRun) ≠ STATUS_CANCELLED) as Hnc
    by (by vm_compute).
  split.
  - destruct (C3_trigger_gating (envAt carol 110) 1 holeRun Hex)
      as [H _]; [by vm_compute|].
    destruct (H Hnt Hnc) as [Hearly _]. apply Hearly. by vm_compute.
  - destruct (C3_trigger_gating (envAt carol 111) 1 holeRun Hex)
      as [H _]; [by vm_compute|].
    destruct (H Hnt Hnc) as [_ Hlate].
    destruct Hlate as (σ' & Hrun & Hs & Ht & _); [by vm_compute|].
    exists σ'. split; [exact Hrun|]. split; [exact Hs|exact Ht].
Defined.

Lemma cancel_run (env : Env) (id : N) (σ : State) :
  switchExists id (storage σ) →
  tx_sender env = loadSwitchOwner id (storage σ) →
  loadSwitchStatus id (storage σ) = STATUS_TRIGGERED →
  loadSwitchTriggerBlock id (storage σ) + loadSwitchGracePeriod id (storage σ)
  < 2 ^ 256 →
  block_numberU256 env
  ≤ loadSwitchTriggerBlock id (storage σ)
    + loadSwitchGracePeriod id (storage σ) →
  ∃ r, cancel env id σ = Ok r.
Proof.
  intros Hex Hown Hst Hfit Hle. unfold cancel.
  rewrite ensureSwitchExists_Ok, ensureOwner_Ok by done. rbind.
  rewrite Hst. change (negb (STATUS_TRIGGERED =? STATUS_TRIGGERED)) with false.
  cbv iota. rewrite SafeMath_add_Ok by done. rbind.
  destruct (N.ltb_spec
              (loadSwitchTriggerBlock id (storage σ)
               + loadSwitchGracePeriod id (storage σ))
              (block_numberU256 env)); [lia|].
  by eexists.
Qed.

(** C4, as stated, fails when [triggerBlock + gracePeriod] does not
    fit 256 bits: the switch exists, the caller is its owner, the
    status is TRIGGERED and block 3 is within
    [triggerBlock + gracePeriod], yet [cancel] reverts in the checked
    addition. *)
Lemma C4_cancel_window_counterexample :
  switchExists 1 (storage graceRun)
  ∧ tx_sender (envAt alice 3) = loadSwitchOwner 1 (storage graceRun)
  ∧ loadSwitchStatus 1 (storage graceRun) = STATUS_TRIGGERED
  ∧ block_numberU256 (envAt alice 3)
    ≤ loadSwitchTriggerBlock 1 (storage graceRun)
      + loadSwitchGracePeriod 1 (storage graceRun)
  ∧ cancel (envAt alice 3) 1 graceRun = Revert "SafeMath: addition overflow"
  ∧ ¬ succeeds (cancel (envAt alice 3) 1 graceRun).
Proof.
  assert (cancel (envAt alice 3) 1 graceRun
          = Revert "SafeMath: addition overflow") as Hrev by (by vm_compute).
  split; [split; by vm_compute|].
  split; [by vm_compute|]. split; [by vm_compute|].
  split; [by vm_compute|]. split; [exact Hrev|].
  intros [r Hr]. rewrite Hrev in Hr. discriminate.
Qed.

(** C4 (amended): on an existing switch, [cancel] called by the owner
    returns exactly when the status is TRIGGERED, the sum
    [triggerBlock + gracePeriod] fits 256 bits and the current block is
    at most that sum.  It then leaves status ACTIVE, [lastCheckin] the
    current block and [triggerBlock] 0, and [isExpired] and [trigger]
    answer as they do after a checkin at that block of a switch with
    the same interval. *)
Theorem C4_cancel_window (env : Env) (id : N) (σ : State) :
  switchExists id (storage σ) →
  tx_sender env = loadSwitchOwner id (storage σ) →
  block_numberU256 env < 2 ^ 256 →
  (succeeds (cancel env id σ)
   ↔ loadSwitchStatus id (storage σ) = STATUS_TRIGGERED
     ∧ loadSwitchTriggerBlock id (storage σ)
       + loadSwitchGracePeriod id (storage σ) < 2 ^ 256
     ∧ block_numberU256 env
       ≤ loadSwitchTriggerBlock id (storage σ)
         + loadSwitchGracePeriod id (storage σ))
  ∧ ∀ r, cancel env id σ = Ok r →
      r.1 = true
      ∧ loadSwitchStatus id (storage r.2) = STATUS_ACTIVE
      ∧ loadSwitchLastCheckin id (storage r.2) = block_numberU256 env
      ∧ loadSwitchTriggerBlock id (storage r.2) = 0
      ∧ (∀ env',
           isExpired env' id r.2
           = (deadline ← SafeMath_add (block_numberU256 env)
                           (loadSwitchInterval id (storage σ));
              Ok (deadline <? block_numberU256 env')))
      ∧ (∀ τ τ',
           checkin env id τ = Ok (true, τ') →
           loadSwitchInterval id (storage τ)
           = loadSwitchInterval id (storage σ) →
           ∀ env', block_numberU256 env' < 2 ^ 256 →
             isExpired env' id r.2 = isExpired env' id τ'
             ∧ (succeeds (trigger env' id r.2)
                ↔ succeeds (trigger env' id τ'))).
Proof.
  intros Hex Hown Hblk. split.
  - split.
    + intros [r Hr]. apply cancel_inv in Hr. tauto.
    + intros (Hst & Hfit & Hle). by apply cancel_run.
  - intros r Hr. apply cancel_inv in Hr.
    destruct Hr as (_ & _ & Hst & Hfit & Hle & ->).
    cbn [fst snd]. rewrite !storage_emitEvent.
    destruct (cancel_storage_fields id (block_numberU256 env) (storage σ))
      as (Hnext & Hs' & Hlc' & Htb' & Hiv').
    rewrite mod_u256_small in Hlc' by done.
    set (st' := storeSwitchTriggerBlock id 0
                  (storeSwitchLastCheckin id (block_numberU256 env)
                     (storeSwitchStatus id STATUS_ACTIVE (storage σ)))) in *.
    assert (switchExists id st') as Hex'.
    { destruct Hex. split; [done|]. by rewrite Hnext. }
    split; [done|]. split; [done|]. split; [done|]. split; [done|].
    split.
    + intros env'. rewrite isExpired_eq by (by rewrite storage_emitEvent).
      rewrite !storage_emitEvent. by rewrite Hlc', Hiv'.
    + intros τ τ' Hck Hiv env' Hblk'. apply checkin_inv in Hck.
      destruct Hck as (Hexτ & _ & Hactτ & Hτ').
      apply (f_equal snd) in Hτ'. cbn [snd] in Hτ'. subst τ'.
      destruct (checkin_storage_fields id (block_numberU256 env) (storage τ))
        as (Hnτ & Hsτ & Hlcτ & Hivτ).
      rewrite mod_u256_small in Hlcτ by done.
      set (sτ := storeSwitchLastCheckin id (block_numberU256 env) (storage τ))
        in *.
      assert (switchExists id sτ) as Hexτ'.
      { destruct Hexτ. split; [done|]. by rewrite Hnτ. }
      split.
      * rewrite !isExpired_eq by (by rewrite storage_emitEvent).
        rewrite !storage_emitEvent.
        by rewrite Hlc', Hiv', Hlcτ, Hivτ, Hiv.
      * rewrite !trigger_succeeds_iff by done. rewrite !storage_emitEvent.
        rewrite Hs', Hlc', Hiv', Hsτ, Hactτ, Hlcτ, Hivτ, Hiv. tauto.
Qed.

Lemma C4_cancel_window_witness :
  succeeds (cancel (envAt alice 115) 1 triggeredRun)
  ↔ loadSwitchStatus 1 (storage triggeredRun) = STATUS_TRIGGERED
    ∧ loadSwitchTriggerBlock 1 (storage triggeredRun)
      + loadSwitchGracePeriod 1 (storage triggeredRun) < 2 ^ 256
    ∧ block_numberU256 (envAt alice 115)
      ≤ loadSwitchTriggerBlock 1 (storage triggeredRun)
        + loadSwitchGracePeriod 1 (storage triggeredRun).
Proof.
  assert (switchExists 1 (storage triggeredRun)) as Hex
    by (split; by vm_compute).
  assert (tx_sender (envAt alice 115)
          = loadSwitchOwner 1 (storage triggeredRun)) as Hown
    by (by vm_compute).
  assert (block_numberU256 (envAt alice 115) < 2 ^ 256) as Hblk
    by (by vm_compute).
  exact (proj1 (C4_cancel_window (envAt alice 115) 1 triggeredRun
                  Hex Hown Hblk)).
Defined.

(** ** The effect of one call on the counter, the status and the chunk
    count *)

Lemma getU256_alias (p id id' : N) (st : gmap N N) :
  sameSub id id' → getU256ForSwitch p id st = getU256ForSwitch p id' st.
Proof.
  intros H. rewrite (getU256ForSwitch_read p id), (getU256ForSwitch_read p id').
  by rewrite (switchKey_alias p id id' H).
Qed.

Lemma createSwitch_storage_fields (sender b : list byte) (id i g blk : N)
    (st : gmap N N) :
  let st8 :=
    storeSwitchChunkCount id 0
      (storeSwitchTriggerBlock id 0
         (storeSwitchStatus id STATUS_ACTIVE
            (storeSwitchLastCheckin id blk
               (storeSwitchGracePeriod id g
                  (storeSwitchInterval id i
                     (storeSwitchBeneficiary id b
                        (storeSwitchOwner id sender st))))))) in
  ∀ cnt nxt,
    let st' := nextSwitchId_set nxt
                 (setOwnerSwitchCount sender (cnt + 1)
                    (setOwnerSwitchAtIndex sender cnt id st8)) in
    nextSwitchId_value st' = nxt mod 2 ^ 256
    ∧ (∀ id', loadSwitchStatus id' st'
              = if decide (sameSub id' id) then STATUS_ACTIVE
                else loadSwitchStatus id' st)
    ∧ (∀ id', loadSwitchChunkCount id' st'
              = if decide (sameSub id' id) then 0
                else loadSwitchChunkCount id' st).
Proof.
  intros st8 cnt nxt st'. split; [apply nextSwitchId_set_value|]. split.
  - intros id'. unfold loadSwitchStatus.
    rewrite (getU256_unchanged switchStatusPointer id'
               (storeSwitchStatus id STATUS_ACTIVE
                  (storeSwitchLastCheckin id blk
                     (storeSwitchGracePeriod id g
                        (storeSwitchInterval id i
                           (storeSwitchBeneficiary id b
                              (storeSwitchOwner id sender st)))))) st')
      by (done || (subst st' st8; solve_unchanged)).
    unfold storeSwitchStatus at 1. rewrite getU256_setU256 by done.
    case_decide; [done|].
    apply getU256_unchanged; [done|]. solve_unchanged.
  - intros id'. unfold loadSwitchChunkCount.
    rewrite (getU256_unchanged switchChunkCountPointer id' st8 st')
      by (done || (subst st' st8; solve_unchanged)).
    subst st8. unfold storeSwitchChunkCount at 1.
    rewrite getU256_setU256 by done.
    case_decide; [done|].
    apply getU256_unchanged; [done|]. solve_unchanged.
Qed.

Lemma storeData_storage_fields (id idx : N) (sub d : list byte)
    (st st1 : gmap N N) :
  storeMultiSlotBytes switchDataChunksPointer sub d st = Ok st1 →
  length sub = 30%nat → idx + 1 < 2 ^ 256 →
  let st' := if loadSwitchChunkCount id st1 <? idx + 1
             then storeSwitchChunkCount id (idx + 1) st1 else st1 in
  nextSwitchId_value st' = nextSwitchId_value st
  ∧ (∀ id', loadSwitchStatus id' st' = loadSwitchStatus id' st)
  ∧ (∀ id', loadSwitchChunkCount id' st'
            = if decide (sameSub id' id)
              then N.max (loadSwitchChunkCount id' st) (idx + 1)
              else loadSwitchChunkCount id' st).
Proof.
  intros Hst Hl Hfit st'.
  assert (∀ q, q ≠ switchDataChunksPointer → unchanged_ns q st st1) as Hns.
  { intros q Hq. by apply (storeMultiSlotBytes_unchanged_ns q _ _ _ _ _ Hst). }
  assert (∀ q, q ≠ switchDataChunksPointer → q ≠ switchChunkCountPointer →
               unchanged_ns q st st') as Hns'.
  { intros q Hq Hq8. subst st'. destruct (_ <? _); [|by apply Hns].
    eapply unchanged_ns_trans; [by apply Hns|]. solve_unchanged. }
  assert (∀ id', getU256ForSwitch switchChunkCountPointer id' st1
                 = getU256ForSwitch switchChunkCountPointer id' st) as Hc1.
  { intros id'. apply getU256_unchanged; [done|]. by apply Hns. }
  split; [|split].
  - apply nextSwitchId_unchanged. by apply Hns'.
  - intros id'. unfold loadSwitchStatus.
    apply getU256_unchanged; [done|]. by apply Hns'.
  - intros id'. clear Hns'. subst st'.
    unfold loadSwitchChunkCount, storeSwitchChunkCount.
    destruct (N.ltb_spec (getU256ForSwitch switchChunkCountPointer id st1)
                (idx + 1)) as [Hlt|Hge].
    + rewrite getU256_setU256 by done. rewrite Hc1.
      case_decide as Hs; [|done].
      rewrite mod_u256_small by done.
      rewrite (getU256_alias _ id' id st Hs). rewrite Hc1 in Hlt. lia.
    + rewrite Hc1. case_decide as Hs; [|done].
      rewrite (getU256_alias _ id' id st Hs). rewrite Hc1 in Hge. lia.
Qed.

Lemma trigger_status_all (id blk : N) (st : gmap N N) (id' : N) :
  loadSwitchStatus id'
    (storeSwitchTriggerBlock id blk (storeSwitchStatus id STATUS_TRIGGERED st))
  = if decide (sameSub id' id) then STATUS_TRIGGERED
    else loadSwitchStatus id' st.
Proof.
  unfold loadSwitchStatus.
  rewrite (getU256_unchanged switchStatusPointer id'
             (storeSwitchStatus id STATUS_TRIGGERED st))
    by (done || solve_unchanged).
  unfold storeSwitchStatus. by rewrite getU256_setU256 by done.
Qed.

Lemma cancel_status_all (id blk : N) (st : gmap N N) (id' : N) :
  loadSwitchStatus id'
    (storeSwitchTriggerBlock id 0
       (storeSwitchLastCheckin id blk (storeSwitchStatus id STATUS_ACTIVE st)))
  = if decide (sameSub id' id) then STATUS_ACTIVE
    else loadSwitchStatus id' st.
Proof.
  unfold loadSwitchStatus.
  rewrite (getU256_unchanged switchStatusPointer id'
             (storeSwitchStatus id STATUS_ACTIVE st))
    by (done || solve_unchanged).
  unfold storeSwitchStatus. by rewrite getU256_setU256 by done.
Qed.

Lemma fields_of_unchanged (st st' : gmap N N) :
  unchanged_ns nextSwitchIdPointer st st' →
  unchanged_ns switchStatusPointer st st' →
  unchanged_ns switchChunkCountPointer st st' →
  nextSwitchId_value st' = nextSwitchId_value st
  ∧ (∀ id', loadSwitchStatus id' st' = loadSwitchStatus id' st)
  ∧ (∀ id', loadSwitchChunkCount id' st' = loadSwitchChunkCount id' st).
Proof.
  intros H0 H6 H8. split; [by apply nextSwitchId_unchanged|]. split.
  - intros id'. unfold loadSwitchStatus. by apply getU256_unchanged.
  - intros id'. unfold loadSwitchChunkCount. by apply getU256_unchanged.
Qed.

Lemma checkin_effect (env : Env) (id : N) (σ : State) (p : bool * State) :
  checkin env id σ = Ok p →
  nextSwitchId_value (storage p.2) = nextSwitchId_value (storage σ)
  ∧ (∀ id', loadSwitchStatus id' (storage p.2) = loadSwitchStatus id' (storage σ))
  ∧ (∀ id', loadSwitchChunkCount id' (storage p.2)
            = loadSwitchChunkCount id' (storage σ)).
Proof.
  intros Hop. apply checkin_inv in Hop. destruct Hop as (_ & _ & _ & ->).
  cbn [snd]. rewrite storage_emitEvent.
  apply fields_of_unchanged; solve_unchanged.
Qed.

Lemma updateBeneficiary_effect (env : Env) (id : N) (b : list byte)
    (σ : State) (p : bool * State) :
  updateBeneficiary env id b σ = Ok p →
  nextSwitchId_value (storage p.2) = nextSwitchId_value (storage σ)
  ∧ (∀ id', loadSwitchStatus id' (storage p.2) = loadSwitchStatus id' (storage σ))
  ∧ (∀ id', loadSwitchChunkCount id' (storage p.2)
            = loadSwitchChunkCount id' (storage σ)).
Proof.
  intros Hop. apply updateBeneficiary_inv in Hop. destruct Hop as (_ & ->).
  cbn [snd]. rewrite storage_emitEvent.
  apply fields_of_unchanged; solve_unchanged.
Qed.

Lemma updateInterval_effect (env : Env) (id i : N) (σ : State)
    (p : bool * State) :
  updateInterval env id i σ = Ok p →
  nextSwitchId_value (storage p.2) = nextSwitchId_value (storage σ)
  ∧ (∀ id', loadSwitchStatus id' (storage p.2) = loadSwitchStatus id' (storage σ))
  ∧ (∀ id', loadSwitchChunkCount id' (storage p.2)
            = loadSwitchChunkCount id' (storage σ)).
Proof.
  intros Hop. apply updateInterval_inv in Hop. destruct Hop as (_ & ->).
  cbn [snd]. rewrite storage_withStorage.
  apply fields_of_unchanged; solve_unchanged.
Qed.

Lemma storeDecryptionKey_effect (env : Env) (id : N) (k : list byte)
    (σ : State) (p : bool * State) :
  storeDecryptionKey env id k σ = Ok p →
  nextSwitchId_value (storage p.2) = nextSwitchId_value (storage σ)
  ∧ (∀ id', loadSwitchStatus id' (storage p.2) = loadSwitchStatus id' (storage σ))
  ∧ (∀ id', loadSwitchChunkCount id' (storage p.2)
            = loadSwitchChunkCount id' (storage σ)).
Proof.
  intros Hop. apply storeDecryptionKey_inv in Hop.
  destruct Hop as (_ & st1 & Hst & ->). cbn [snd].
  rewrite storage_withStorage.
  apply fields_of_unchanged;
    by apply (storeMultiSlotBytes_unchanged_ns _ _ _ _ _ _ Hst);
      [|apply length_u256ToSubPointer|].
Qed.

Lemma trigger_effect (env : Env) (id : N) (σ : State) (p : bool * State) :
  trigger env id σ = Ok p →
  switchExists id (storage σ)
  ∧ loadSwitchStatus id (storage σ) ≠ STATUS_TRIGGERED
  ∧ loadSwitchStatus id (storage σ) ≠ STATUS_CANCELLED
  ∧ nextSwitchId_value (storage p.2) = nextSwitchId_value (storage σ)
  ∧ (∀ id', loadSwitchStatus id' (storage p.2)
            = if decide (sameSub id' id) then STATUS_TRIGGERED
              else loadSwitchStatus id' (storage σ))
  ∧ (∀ id', loadSwitchChunkCount id' (storage p.2)
            = loadSwitchChunkCount id' (storage σ)).
Proof.
  intros Hop. apply trigger_inv in Hop. cbv zeta in Hop.
  destruct Hop as (Hex & Hnt & Hnc & _ & ->). cbn [snd].
  rewrite storage_emitEvent.
  split; [done|]. split; [done|]. split; [done|].
  split; [apply nextSwitchId_unchanged; solve_unchanged|].
  split; [intros id'; apply trigger_status_all|].
  intros id'. unfold loadSwitchChunkCount.
  apply getU256_unchanged; [done|]. solve_unchanged.
Qed.

Lemma cancel_effect (env : Env) (id : N) (σ : State) (p : bool * State) :
  cancel env id σ = Ok p →
  switchExists id (storage σ)
  ∧ loadSwitchStatus id (storage σ) = STATUS_TRIGGERED
  ∧ nextSwitchId_value (storage p.2) = nextSwitchId_value (storage σ)
  ∧ (∀ id', loadSwitchStatus id' (storage p.2)
            = if decide (sameSub id' id) then STATUS_ACTIVE
              else loadSwitchStatus id' (storage σ))
  ∧ (∀ id', loadSwitchChunkCount id' (storage p.2)
            = loadSwitchChunkCount id' (storage σ)).
Proof.
  intros Hop. apply cancel_inv in Hop. cbv zeta in Hop.
  destruct Hop as (Hex & _ & Hst & _ & _ & ->). cbn [snd].
  rewrite storage_emitEvent.
  split; [done|]. split; [done|].
  split; [apply nextSwitchId_unchanged; solve_unchanged|].
  split; [intros id'; apply cancel_status_all|].
  intros id'. unfold loadSwitchChunkCount.
  apply getU256_unchanged; [done|]. solve_unchanged.
Qed.

Lemma storeData_effect (env : Env) (id idx : N) (d : list byte) (σ : State)
    (p : bool * State) :
  storeData env id idx d σ = Ok p →
  switchExists id (storage σ)
  ∧ idx + 1 < 2 ^ 256
  ∧ nextSwitchId_value (storage p.2) = nextSwitchId_value (storage σ)
  ∧ (∀ id', loadSwitchStatus id' (storage p.2) = loadSwitchStatus id' (storage σ))
  ∧ (∀ id', loadSwitchChunkCount id' (storage p.2)
            = if decide (sameSub id' id)
              then N.max (loadSwitchChunkCount id' (storage σ)) (idx + 1)
              else loadSwitchChunkCount id' (storage σ)).
Proof.
  intros Hop. apply storeData_inv in Hop.
  destruct Hop as (Hex & _ & _ & Hfit & st1 & Hst & ->). cbn [snd].
  rewrite storage_emitEvent.
  destruct (storeData_storage_fields id idx _ _ _ _ Hst
              (length_compoundSubPointer _ _) Hfit) as (Hn & Hs & Hc).
  split; [exact Hex|]. split; [exact Hfit|]. split; [exact Hn|].
  split; [exact Hs|exact Hc].
Qed.

Lemma createSwitch_effect (env : Env) (b : list byte) (i g : N) (σ : State)
    (p : N * State) :
  createSwitch env b i g σ = Ok p →
  p.1 = nextSwitchId_value (storage σ)
  ∧ nextSwitchId_value (storage σ) + 1 < 2 ^ 256
  ∧ nextSwitchId_value (storage p.2) = nextSwitchId_value (storage σ) + 1
  ∧ (∀ id', loadSwitchStatus id' (storage p.2)
            = if decide (sameSub id' (nextSwitchId_value (storage σ)))
              then STATUS_ACTIVE else loadSwitchStatus id' (storage σ))
  ∧ (∀ id', loadSwitchChunkCount id' (storage p.2)
            = if decide (sameSub id' (nextSwitchId_value (storage σ)))
              then 0 else loadSwitchChunkCount id' (storage σ)).
Proof.
  intros Hop. apply createSwitch_inv in Hop. cbv zeta in Hop.
  destruct Hop as (Hfit & _ & _ & _ & ->). cbn [fst snd].
  rewrite storage_emitEvent.
  match goal with
  | |- context [setOwnerSwitchCount _ (?cnt + 1) _] =>
      destruct (createSwitch_storage_fields (tx_sender env) b
                  (nextSwitchId_value (storage σ)) i g
                  (block_numberU256 env) (storage σ) cnt
                  (nextSwitchId_value (storage σ) + 1)) as (Hn & Hs & Hc)
  end.
  rewrite mod_u256_small in Hn by done.
  split; [done|]. split; [exact Hfit|]. split; [exact Hn|].
  split; [exact Hs|exact Hc].
Qed.

Lemma exec_eq (env : Env) (c : Call) (σ : State) :
  exec env c σ
  = match c with
    | CreateSwitch b i g => r ← createSwitch env b i g σ; Ok (RU256 r.1, r.2)
    | Checkin id => r ← checkin env id σ; Ok (RBool r.1, r.2)
    | StoreData id idx d => r ← storeData env id idx d σ; Ok (RBool r.1, r.2)
    | StoreDecryptionKey id k =>
        r ← storeDecryptionKey env id k σ; Ok (RBool r.1, r.2)
    | Trigger id => r ← trigger env id σ; Ok (RBool r.1, r.2)
    | Cancel id => r ← cancel env id σ; Ok (RBool r.1, r.2)
    | UpdateBeneficiary id b =>
        r ← updateBeneficiary env id b σ; Ok (RBool r.1, r.2)
    | UpdateInterval id i => r ← updateInterval env id i σ; Ok (RBool r.1, r.2)
    | GetSwitch id => r ← getSwitch id σ; Ok (RSwitch r, σ)
    | GetData id idx => r ← getData id idx σ; Ok (RBytes r, σ)
    | GetDecryptionKey id => r ← getDecryptionKey id σ; Ok (RBytes r, σ)
    | GetSwitchCount => r ← getSwitchCount σ; Ok (RU256 r, σ)
    | IsExpired id => r ← isExpired env id σ; Ok (RBool r, σ)
    | GetSwitchesByOwner o => r ← getSwitchesByOwner o σ; Ok (RList r.1 r.2, σ)
    end.
Proof. reflexivity. Qed.

(** A call that returns is its operation returning, with the state the
    operation leaves ([σ] itself for a read). *)
Lemma exec_Ok_inv (env : Env) (c : Call) (σ : State) (r : RetVal) (σ' : State) :
  exec env c σ = Ok (r, σ') →
  match c with
  | CreateSwitch b i g => ∃ p, createSwitch env b i g σ = Ok p ∧ σ' = p.2
  | Checkin id => ∃ p, checkin env id σ = Ok p ∧ σ' = p.2
  | StoreData id idx d => ∃ p, storeData env id idx d σ = Ok p ∧ σ' = p.2
  | StoreDecryptionKey id k =>
      ∃ p, storeDecryptionKey env id k σ = Ok p ∧ σ' = p.2
  | Trigger id => ∃ p, trigger env id σ = Ok p ∧ σ' = p.2
  | Cancel id => ∃ p, cancel env id σ = Ok p ∧ σ' = p.2
  | UpdateBeneficiary id b => ∃ p, updateBeneficiary env id b σ = Ok p ∧ σ' = p.2
  | UpdateInterval id i => ∃ p, updateInterval env id i σ = Ok p ∧ σ' = p.2
  | _ => σ' = σ
  end.
Proof.
  rewrite exec_eq. intros Hexec.
  destruct c;
    match type of Hexec with
    | (?op ≫= _) = _ =>
        destruct op as [p|] eqn:Hop;
        [rewrite bind_Ok in Hexec | rewrite bind_Revert in Hexec; discriminate]
    end;
    apply Ok_inj in Hexec; apply (f_equal snd) in Hexec;
    cbn [snd] in Hexec; subst σ'; try done; by exists p.
Qed.

(** How a call that returns changes the switch counter, the stored
    statuses and the stored chunk counts. *)
Lemma exec_effect (env : Env) (c : Call) (σ : State) (r : RetVal) (σ' : State) :
  exec env c σ = Ok (r, σ') →
  let st := storage σ in
  let st' := storage σ' in
  match c with
  | CreateSwitch _ _ _ =>
      nextSwitchId_value st + 1 < 2 ^ 256
      ∧ nextSwitchId_value st' = nextSwitchId_value st + 1
      ∧ (∀ id', loadSwitchStatus id' st'
                = if decide (sameSub id' (nextSwitchId_value st))
                  then STATUS_ACTIVE else loadSwitchStatus id' st)
      ∧ (∀ id', loadSwitchChunkCount id' st'
                = if decide (sameSub id' (nextSwitchId_value st))
                  then 0 else loadSwitchChunkCount id' st)
  | Trigger id =>
      switchExists id st
      ∧ loadSwitchStatus id st ≠ STATUS_TRIGGERED
      ∧ loadSwitchStatus id st ≠ STATUS_CANCELLED
      ∧ nextSwitchId_value st' = nextSwitchId_value st
      ∧ (∀ id', loadSwitchStatus id' st'
                = if decide (sameSub id' id) then STATUS_TRIGGERED
                  else loadSwitchStatus id' st)
      ∧ (∀ id', loadSwitchChunkCount id' st' = loadSwitchChunkCount id' st)
  | Cancel id =>
      switchExists id st
      ∧ loadSwitchStatus id st = STATUS_TRIGGERED
      ∧ nextSwitchId_value st' = nextSwitchId_value st
      ∧ (∀ id', loadSwitchStatus id' st'
                = if decide (sameSub id' id) then STATUS_ACTIVE
                  else loadSwitchStatus id' st)
      ∧ (∀ id', loadSwitchChunkCount id' st' = loadSwitchChunkCount id' st)
  | StoreData id idx _ =>
      switchExists id st
      ∧ idx + 1 < 2 ^ 256
      ∧ nextSwitchId_value st' = nextSwitchId_value st
      ∧ (∀ id', loadSwitchStatus id' st' = loadSwitchStatus id' st)
      ∧ (∀ id', loadSwitchChunkCount id' st'
                = if decide (sameSub id' id)
                  then N.max (loadSwitchChunkCount id' st) (idx + 1)
                  else loadSwitchChunkCount id' st)
  | _ =>
      nextSwitchId_value st' = nextSwitchId_value st
      ∧ (∀ id', loadSwitchStatus id' st' = loadSwitchStatus id' st)
      ∧ (∀ id', loadSwitchChunkCount id' st' = loadSwitchChunkCount id' st)
  end.
Proof.
  intros Hexec st st'. subst st st'. apply exec_Ok_inv in Hexec.
  destruct c; try (by subst σ'); destruct Hexec as (p & Hop & ->).
  - apply createSwitch_effect in Hop. tauto.
  - by apply checkin_effect in Hop.
  - by apply storeData_effect in Hop.
  - by apply storeDecryptionKey_effect in Hop.
  - by apply trigger_effect in Hop.
  - by apply cancel_effect in Hop.
  - by apply updateBeneficiary_effect in Hop.
  - by apply updateInterval_effect in Hop.
Qed.

(** ** Runs of calls *)

Lemma step_cases (σ : State) (ec : Env * Call) :
  (∃ r, exec ec.1 ec.2 σ = Ok (r, step σ ec))
  ∨ ((∃ msg, exec ec.1 ec.2 σ = Revert msg) ∧ step σ ec = σ).
Proof.
  unfold step. destruct (exec ec.1 ec.2 σ) as [[r s']|msg].
  - left. by exists r.
  - right. split; [by exists msg|done].
Qed.

Lemma run_cons (ec : Env * Call) (calls : list (Env * Call)) (s : State) :
  run (ec :: calls) s = run calls (step s ec).
Proof. done. Qed.

Lemma run_app (l1 l2 : list (Env * Call)) (s : State) :
  run (l1 ++ l2) s = run l2 (run l1 s).
Proof. apply fold_left_app. Qed.

Lemma step_nextSwitchId_mono (s : State) (ec : Env * Call) :
  nextSwitchId_value (storage s) ≤ nextSwitchId_value (storage (step s ec)).
Proof.
  destruct (step_cases s ec) as [[r Hexec]|[_ ->]]; [|lia].
  apply exec_effect in Hexec. cbv zeta in Hexec.
  destruct ec.2; try (destruct Hexec as (-> & _); lia).
  - destruct Hexec as (_ & -> & _). lia.
  - destruct Hexec as (_ & _ & -> & _). lia.
  - destruct Hexec as (_ & _ & _ & -> & _). lia.
  - destruct Hexec as (_ & _ & -> & _). lia.
Qed.

Lemma run_nextSwitchId_mono (calls : list (Env * Call)) (s : State) :
  nextSwitchId_value (storage s) ≤ nextSwitchId_value (storage (run calls s)).
Proof.
  revert s. induction calls as [|ec calls IH]; intros s; [done|].
  rewrite run_cons. pose proof (step_nextSwitchId_mono s ec).
  pose proof (IH (step s ec)). lia.
Qed.

Lemma sameSub_small (a b : N) :
  a < 2 ^ 240 → b < 2 ^ 240 → sameSub a b → a = b.
Proof. unfold sameSub. intros Ha Hb. by rewrite !N.mod_small. Qed.

(** One call, seen from an existing switch [id], while fewer than
    [2^240] switches exist: the stored status stays ACTIVE or
    TRIGGERED, and it changes only by a [trigger] or a [cancel] of
    [id]. *)
Lemma step_status (s : State) (ec : Env * Call) (id : N) :
  id < nextSwitchId_value (storage s) →
  nextSwitchId_value (storage (step s ec)) ≤ 2 ^ 240 →
  loadSwitchStatus id (storage s) = STATUS_ACTIVE
  ∨ loadSwitchStatus id (storage s) = STATUS_TRIGGERED →
  (loadSwitchStatus id (storage (step s ec)) = STATUS_ACTIVE
   ∨ loadSwitchStatus id (storage (step s ec)) = STATUS_TRIGGERED)
  ∧ (loadSwitchStatus id (storage (step s ec))
     ≠ loadSwitchStatus id (storage s) →
     (loadSwitchStatus id (storage s) = STATUS_ACTIVE
      ∧ loadSwitchStatus id (storage (step s ec)) = STATUS_TRIGGERED
      ∧ ec.2 = Trigger id)
     ∨ (loadSwitchStatus id (storage s) = STATUS_TRIGGERED
        ∧ loadSwitchStatus id (storage (step s ec)) = STATUS_ACTIVE
        ∧ ec.2 = Cancel id)).
Proof.
  intros Hid Hbound Hinv.
  destruct (step_cases s ec) as [[r Hexec]|[_ Heq]];
    [|rewrite Heq; split; [done|congruence]].
  apply exec_effect in Hexec. cbv zeta in Hexec.
  set (s' := step s ec) in *.
  destruct ec.2 as [b i g|id2|id2 idx d|id2 k|id2|id2|id2 b|id2 i|
                    id2|id2 idx|id2| |id2|o];
    try (destruct Hexec as (_ & Hs & _); rewrite Hs;
         split; [done|congruence]).
  - destruct Hexec as (Hfit & Hn & Hs & _). rewrite Hs.
    rewrite decide_False; [split; [done|congruence]|].
    intros Hsame. apply sameSub_small in Hsame; lia.
  - destruct Hexec as (_ & _ & _ & Hs & _). rewrite Hs.
    split; [done|congruence].
  - destruct Hexec as ([_ Hex] & Hnt & Hnc & Hn & Hs & _). rewrite Hs.
    case_decide as Hsame; [|split; [done|congruence]].
    apply sameSub_small in Hsame; [|lia..]. subst id2.
    split; [by right|]. intros _. left.
    destruct Hinv as [Ha|Ht]; [done|congruence].
  - destruct Hexec as ([_ Hex] & Ht & Hn & Hs & _). rewrite Hs.
    case_decide as Hsame; [|split; [done|congruence]].
    apply sameSub_small in Hsame; [|lia..]. subst id2.
    split; [by left|]. intros _. by right.
Qed.

(** No call makes a stored status CANCELLED. *)
Lemma step_no_cancelled (s : State) (ec : Env * Call) (id' : N) :
  loadSwitchStatus id' (storage (step s ec)) = STATUS_CANCELLED →
  loadSwitchStatus id' (storage s) = STATUS_CANCELLED.
Proof.
  destruct (step_cases s ec) as [[r Hexec]|[_ ->]]; [|done].
  apply exec_effect in Hexec. cbv zeta in Hexec.
  destruct ec.2; try (destruct Hexec as (_ & Hs & _); by rewrite Hs).
  - destruct Hexec as (_ & _ & Hs & _). rewrite Hs. by case_decide.
  - destruct Hexec as (_ & _ & _ & Hs & _). by rewrite Hs.
  - destruct Hexec as (_ & _ & _ & _ & Hs & _). rewrite Hs. by case_decide.
  - destruct Hexec as (_ & _ & _ & Hs & _). rewrite Hs. by case_decide.
Qed.

(** Every write to a stored status writes ACTIVE or TRIGGERED. *)
Lemma step_status_set (s : State) (ec : Env * Call) (id' : N) :
  loadSwitchStatus id' (storage s) = STATUS_ACTIVE
  ∨ loadSwitchStatus id' (storage s) = STATUS_TRIGGERED →
  loadSwitchStatus id' (storage (step s ec)) = STATUS_ACTIVE
  ∨ loadSwitchStatus id' (storage (step s ec)) = STATUS_TRIGGERED.
Proof.
  intros Hinv. destruct (step_cases s ec) as [[r Hexec]|[_ ->]]; [|done].
  apply exec_effect in Hexec. cbv zeta in Hexec.
  destruct ec.2; try (destruct Hexec as (_ & Hs & _); by rewrite Hs).
  - destruct Hexec as (_ & _ & Hs & _). rewrite Hs. case_decide; [by left|done].
  - destruct Hexec as (_ & _ & _ & Hs & _). by rewrite Hs.
  - destruct Hexec as (_ & _ & _ & _ & Hs & _). rewrite Hs.
    case_decide; [by right|done].
  - destruct Hexec as (_ & _ & _ & Hs & _). rewrite Hs.
    case_decide; [by left|done].
Qed.

Lemma run_status_set (id' : N) (calls : list (Env * Call)) (s : State) :
  loadSwitchStatus id' (storage s) = STATUS_ACTIVE
  ∨ loadSwitchStatus id' (storage s) = STATUS_TRIGGERED →
  loadSwitchStatus id' (storage (run calls s)) = STATUS_ACTIVE
  ∨ loadSwitchStatus id' (storage (run calls s)) = STATUS_TRIGGERED.
Proof.
  revert s. induction calls as [|ec calls IH]; intros s Hinv; [done|].
  rewrite run_cons. by apply IH, step_status_set.
Qed.

(** C5: from the creation of a switch on, along every sequence of
    public calls, the stored status is ACTIVE or TRIGGERED and no call
    makes the stored status of any switch CANCELLED; a call changes
    the status only from ACTIVE to TRIGGERED, being [trigger] of that
    switch, or from TRIGGERED to ACTIVE, being [cancel] of that switch
    (identifiers being told apart by their 30 low-order bytes, this
    part is for fewer than [2^240] switches). *)
Theorem C5_status_transitions (env0 : Env) (b : list byte) (i g : N)
    (σ0 σ1 : State) (id : N) (calls : list (Env * Call)) :
  createSwitch env0 b i g σ0 = Ok (id, σ1) →
  loadSwitchStatus id (storage σ1) = STATUS_ACTIVE
  ∧ (loadSwitchStatus id (storage (run calls σ1)) = STATUS_ACTIVE
     ∨ loadSwitchStatus id (storage (run calls σ1)) = STATUS_TRIGGERED)
  ∧ ∀ pre ec post, calls = pre ++ ec :: post →
      let s := run pre σ1 in
      let s' := step s ec in
      (loadSwitchStatus id (storage s') = STATUS_ACTIVE
       ∨ loadSwitchStatus id (storage s') = STATUS_TRIGGERED)
      ∧ (∀ id', loadSwitchStatus id' (storage s') = STATUS_CANCELLED →
                loadSwitchStatus id' (storage s) = STATUS_CANCELLED)
      ∧ (nextSwitchId_value (storage s') ≤ 2 ^ 240 →
         loadSwitchStatus id (storage s') ≠ loadSwitchStatus id (storage s) →
         (loadSwitchStatus id (storage s) = STATUS_ACTIVE
          ∧ loadSwitchStatus id (storage s') = STATUS_TRIGGERED
          ∧ ec.2 = Trigger id)
         ∨ (loadSwitchStatus id (storage s) = STATUS_TRIGGERED
            ∧ loadSwitchStatus id (storage s') = STATUS_ACTIVE
            ∧ ec.2 = Cancel id)).
Proof.
  intros Hcreate. apply createSwitch_effect in Hcreate.
  cbn [fst snd] in Hcreate. destruct Hcreate as (-> & Hfit & Hn & Hs & _).
  assert (loadSwitchStatus (nextSwitchId_value (storage σ0)) (storage σ1)
          = STATUS_ACTIVE) as Hact.
  { rewrite Hs. by rewrite decide_True. }
  assert (nextSwitchId_value (storage σ0) < nextSwitchId_value (storage σ1))
    as Hid by lia.
  split; [done|]. split.
  - apply run_status_set. by left.
  - intros pre ec post -> s s'. subst s s'.
    pose proof (run_nextSwitchId_mono pre σ1) as Hm3.
    split; [|split].
    + apply step_status_set, run_status_set. by left.
    + apply step_no_cancelled.
    + intros Hbound. apply step_status; [lia|done|].
      apply run_status_set. by left.
Qed.

Lemma C5_status_transitions_witness :
  loadSwitchStatus 1 (storage (run lifeCalls createdState)) = STATUS_ACTIVE
  ∨ loadSwitchStatus 1 (storage (run lifeCalls createdState))
    = STATUS_TRIGGERED.
Proof.
  assert (createSwitch (envAt alice 90) bob 10 5 deployed
          = Ok (1, createdState)) as Hcreate by (by vm_compute).
  exact (proj1 (proj2 (C5_status_transitions _ _ _ _ _ _ _ lifeCalls
                         Hcreate))).
Defined.

(** ** Chunk count *)

Lemma step_chunkCount (s : State) (ec : Env * Call) (id : N) :
  id < nextSwitchId_value (storage s) →
  nextSwitchId_value (storage (step s ec)) ≤ 2 ^ 240 →
  loadSwitchChunkCount id (storage (step s ec))
  = N.max (loadSwitchChunkCount id (storage s)) (storedIndexPlusOne id s ec).
Proof.
  intros Hid Hbound. unfold storedIndexPlusOne.
  destruct (step_cases s ec) as [[r Hexec]|[[msg Hrev] Heq]].
  - rewrite Hexec. apply exec_effect in Hexec. cbv zeta in Hexec.
    set (s' := step s ec) in *.
    destruct ec.2 as [b i g|id2|id2 idx d|id2 k|id2|id2|id2 b|id2 i|
                      id2|id2 idx|id2| |id2|o];
      try (destruct Hexec as (_ & _ & Hc); rewrite Hc; lia).
    + destruct Hexec as (Hfit & Hn & _ & Hc). rewrite Hc.
      rewrite decide_False; [lia|].
      intros Hsame. apply sameSub_small in Hsame; lia.
    + destruct Hexec as ([_ Hex] & Hfit & Hn & _ & Hc). rewrite Hc.
      case_decide as Hsame.
      * apply sameSub_small in Hsame; [|lia..]. subst id2.
        by rewrite decide_True.
      * rewrite decide_False; [lia|]. intros ->. by apply Hsame.
    + destruct Hexec as (_ & _ & _ & _ & _ & Hc). rewrite Hc. lia.
    + destruct Hexec as (_ & _ & _ & _ & Hc). rewrite Hc. lia.
  - rewrite Heq, Hrev. destruct ec.2; lia.
Qed.

Lemma run_chunkCount (id : N) (calls : list (Env * Call)) (s : State) :
  id < nextSwitchId_value (storage s) →
  nextSwitchId_value (storage (run calls s)) ≤ 2 ^ 240 →
  loadSwitchChunkCount id (storage (run calls s))
  = N.max (loadSwitchChunkCount id (storage s)) (chunkHighWater id calls s).
Proof.
  revert s. induction calls as [|ec calls IH]; intros s Hid Hbound.
  - cbn [run fold_left chunkHighWater]. lia.
  - rewrite run_cons in *. cbn [chunkHighWater].
    pose proof (run_nextSwitchId_mono calls (step s ec)) as Hmono.
    pose proof (step_nextSwitchId_mono s ec) as Hmono1.
    rewrite IH by (done || lia).
    rewrite step_chunkCount by (done || lia). lia.
Qed.

(** C8: from the creation of a switch on (while fewer than [2^240]
    switches exist), after any sequence of public calls the chunk
    count is the largest [chunkIndex + 1] over the [storeData] calls
    on that switch that returned, 0 if there is none; no call lowers
    it, and a call raises it only by storing a chunk at an index at or
    above the current count, to that index plus one. *)
Theorem C8_chunk_count_law (env0 : Env) (b : list byte) (i g : N)
    (σ0 σ1 : State) (id : N) (calls : list (Env * Call)) :
  createSwitch env0 b i g σ0 = Ok (id, σ1) →
  nextSwitchId_value (storage (run calls σ1)) ≤ 2 ^ 240 →
  loadSwitchChunkCount id (storage (run calls σ1))
  = chunkHighWater id calls σ1
  ∧ ∀ pre ec post, calls = pre ++ ec :: post →
      let s := run pre σ1 in
      let s' := step s ec in
      loadSwitchChunkCount id (storage s)
      ≤ loadSwitchChunkCount id (storage s')
      ∧ (loadSwitchChunkCount id (storage s)
         < loadSwitchChunkCount id (storage s') →
         ∃ idx d,
           ec.2 = StoreData id idx d
           ∧ succeeds (exec ec.1 ec.2 s)
           ∧ loadSwitchChunkCount id (storage s) ≤ idx
           ∧ loadSwitchChunkCount id (storage s') = idx + 1).
Proof.
  intros Hcreate Hbound. apply createSwitch_effect in Hcreate.
  cbn [fst snd] in Hcreate. destruct Hcreate as (-> & Hfit & Hn & _ & Hc).
  assert (loadSwitchChunkCount (nextSwitchId_value (storage σ0)) (storage σ1)
          = 0) as Hzero.
  { rewrite Hc. by rewrite decide_True. }
  assert (nextSwitchId_value (storage σ0) < nextSwitchId_value (storage σ1))
    as Hid by lia.
  split.
  - rewrite run_chunkCount by done. lia.
  - intros pre ec post -> s s'. subst s s'.
    rewrite run_app, run_cons in Hbound.
    pose proof (run_nextSwitchId_mono post (step (run pre σ1) ec)) as Hm1.
    pose proof (step_nextSwitchId_mono (run pre σ1) ec) as Hm2.
    pose proof (run_nextSwitchId_mono pre σ1) as Hm3.
    rewrite (step_chunkCount (run pre σ1) ec) by lia.
    split; [lia|]. intros Hlt.
    unfold storedIndexPlusOne in *.
    destruct ec.2 as [| |id2 idx d| | | | | | | | | | |]; try lia.
    destruct (exec ec.1 (StoreData id2 idx d) (run pre σ1)) as [p|msg];
      [|lia].
    case_decide as Heq; [|lia]. subst id2.
    exists idx, d. split; [done|]. split; [by exists p|]. lia.
Qed.

Lemma C8_chunk_count_law_witness :
  loadSwitchChunkCount 1 (storage (run lifeCalls createdState))
  = chunkHighWater 1 lifeCalls createdState.
Proof.
  assert (createSwitch (envAt alice 90) bob 10 5 deployed
          = Ok (1, createdState)) as Hcreate by (by vm_compute).
  assert (nextSwitchId_value (storage (run lifeCalls createdState))
          ≤ 2 ^ 240) as Hbound by (by vm_compute).
  exact (proj1 (C8_chunk_count_law _ _ _ _ _ _ _ lifeCalls Hcreate Hbound)).
Defined.

(** * Further properties of the contract *)

(** ** Heartbeat *)

(** After a checkin at block [b], [isExpired] compares the asked block
    with [b + interval]: it answers false up to that block and true
    after it, and reverts when the sum does not fit 256 bits. *)
Theorem checkin_resets_deadline (env : Env) (id : N) (σ σ' : State) :
  checkin env id σ = Ok (true, σ') →
  block_numberU256 env < 2 ^ 256 →
  loadSwitchLastCheckin id (storage σ') = block_numberU256 env
  ∧ loadSwitchStatus id (storage σ') = STATUS_ACTIVE
  ∧ ∀ env',
      let deadline := block_numberU256 env + loadSwitchInterval id (storage σ) in
      (deadline < 2 ^ 256 →
       isExpired env' id σ' = Ok (deadline <? block_numberU256 env'))
      ∧ (2 ^ 256 ≤ deadline → fails (isExpired env' id σ')).
Proof.
  intros Hck Hblk. apply checkin_inv in Hck.
  destruct Hck as (Hex & _ & Hact & Hσ').
  apply (f_equal snd) in Hσ'. cbn [snd] in Hσ'. subst σ'.
  rewrite storage_emitEvent.
  destruct (checkin_storage_fields id (block_numberU256 env) (storage σ))
    as (Hn & Hs & Hlc & Hiv).
  rewrite mod_u256_small in Hlc by done.
  split; [done|]. split; [by rewrite Hs|].
  intros env' deadline. subst deadline.
  assert (switchExists id
            (storeSwitchLastCheckin id (block_numberU256 env) (storage σ)))
    as Hex'.
  { destruct Hex. split; [done|]. by rewrite Hn. }
  rewrite isExpired_eq by (by rewrite storage_emitEvent).
  rewrite storage_emitEvent, Hlc, Hiv. split.
  - intros Hfit. by rewrite SafeMath_add_Ok by done.
  - intros Hov. rewrite SafeMath_add_overflow by (done || apply getU256_range).
    rbind. by eexists.
Qed.

Lemma checkin_resets_deadline_witness :
  ∃ σ',
    checkin (envAt alice 100) 1 createdState = Ok (true, σ')
    ∧ isExpired (envAt carol 110) 1 σ' = Ok false
    ∧ isExpired (envAt carol 111) 1 σ' = Ok true.
Proof.
  destruct (checkin (envAt alice 100) 1 createdState) as [[b σ']|] eqn:Hck;
    [|by vm_compute in Hck].
  assert (b = true) as -> by (vm_compute in Hck; congruence).
  exists σ'. split; [done|].
  assert (block_numberU256 (envAt alice 100) < 2 ^ 256) as Hblk
    by (by vm_compute).
  destruct (checkin_resets_deadline _ _ _ _ Hck Hblk) as (_ & _ & H).
  split.
  - destruct (H (envAt carol 110)) as [H1 _]. by apply H1; vm_compute.
  - destruct (H (envAt carol 111)) as [H1 _]. by apply H1; vm_compute.
Defined.

(** For an existing switch that is ACTIVE, [trigger] returns exactly
    when [isExpired] answers true at the same block. *)
Theorem trigger_iff_isExpired (env : Env) (id : N) (σ : State) :
  switchExists id (storage σ) →
  loadSwitchStatus id (storage σ) = STATUS_ACTIVE →
  block_numberU256 env < 2 ^ 256 →
  succeeds (trigger env id σ) ↔ isExpired env id σ = Ok true.
Proof.
  intros Hex Hact Hblk. rewrite trigger_succeeds_iff by done.
  rewrite isExpired_eq by done. rewrite Hact.
  assert (loadSwitchInterval id (storage σ) < 2 ^ 256) as Hiv
    by apply getU256_range.
  destruct (N.lt_ge_cases
              (loadSwitchLastCheckin id (storage σ)
               + loadSwitchInterval id (storage σ)) (2 ^ 256)) as [Hfit|Hov].
  - rewrite SafeMath_add_Ok by done. rbind. split.
    + intros (_ & _ & _ & Hlt). f_equal. by apply N.ltb_lt.
    + intros Heq. apply Ok_inj in Heq. apply N.ltb_lt in Heq.
      split; [done|]. split; [done|]. split; [done|done].
  - rewrite SafeMath_add_overflow by done. rbind. split.
    + intros (_ & _ & _ & Hlt). lia.
    + discriminate.
Qed.

Lemma trigger_iff_isExpired_witness :
  succeeds (trigger (envAt carol 101) 1 createdState)
  ↔ isExpired (envAt carol 101) 1 createdState = Ok true.
Proof.
  apply trigger_iff_isExpired.
  - split; by vm_compute.
  - by vm_compute.
  - by vm_compute.
Defined.

(** ** Writes need an ACTIVE switch *)

(** On an existing switch that is not ACTIVE, the five operations that
    change a record other than [trigger] and [cancel] revert with
    "Switch is not active" even for the owner: after a trigger nothing
    can be stored or updated until the owner cancels. *)
Theorem writes_need_active (env : Env) (id : N) (σ : State) :
  switchExists id (storage σ) →
  tx_sender env = loadSwitchOwner id (storage σ) →
  loadSwitchStatus id (storage σ) ≠ STATUS_ACTIVE →
  checkin env id σ = Revert "Switch is not active"
  ∧ (∀ idx d, storeData env id idx d σ = Revert "Switch is not active")
  ∧ (∀ k, storeDecryptionKey env id k σ = Revert "Switch is not active")
  ∧ (∀ b, updateBeneficiary env id b σ = Revert "Switch is not active")
  ∧ (∀ i, updateInterval env id i σ = Revert "Switch is not active").
Proof.
  intros Hex Hown Hna.
  unfold checkin, storeData, storeDecryptionKey, updateBeneficiary,
    updateInterval.
  rewrite (ensureSwitchExists_Ok _ _ Hex). rbind.
  rewrite (ensureOwner_Ok _ _ _ Hown). rbind.
  rewrite (ensureActive_Revert _ _ Hna). rbind.
  repeat split; intros; by rbind.
Qed.

Lemma writes_need_active_witness :
  checkin (envAt alice 112) 1 triggeredRun = Revert "Switch is not active".
Proof.
  assert (switchExists 1 (storage triggeredRun)) as Hex
    by (split; by vm_compute).
  assert (tx_sender (envAt alice 112)
          = loadSwitchOwner 1 (storage triggeredRun)) as Hown
    by (by vm_compute).
  assert (loadSwitchStatus 1 (storage triggeredRun) ≠ STATUS_ACTIVE) as Hna
    by (by vm_compute).
  exact (proj1 (writes_need_active _ _ _ Hex Hown Hna)).
Defined.

(** ** Trigger, then cancel *)

Lemma trigger_other_fields (id blk : N) (st : gmap N N) :
  let st' := storeSwitchTriggerBlock id blk
               (storeSwitchStatus id STATUS_TRIGGERED st) in
  loadSwitchOwner id st' = loadSwitchOwner id st
  ∧ loadSwitchGracePeriod id st' = loadSwitchGracePeriod id st
  ∧ loadSwitchLastCheckin id st' = loadSwitchLastCheckin id st
  ∧ loadSwitchInterval id st' = loadSwitchInterval id st.
Proof.
  intros st'. subst st'. split; [|split; [|split]].
  - unfold loadSwitchOwner. apply getAddress_unchanged; [done|].
    solve_unchanged.
  - unfold loadSwitchGracePeriod. apply getU256_unchanged; [done|].
    solve_unchanged.
  - unfold loadSwitchLastCheckin. apply getU256_unchanged; [done|].
    solve_unchanged.
  - unfold loadSwitchInterval. apply getU256_unchanged; [done|].
    solve_unchanged.
Qed.

(** After a trigger at block [t], the owner's [cancel] at block [c]
    returns exactly when [t + gracePeriod] fits 256 bits and
    [c <= t + gracePeriod]; anyone else is refused as not the owner. *)
Theorem cancel_after_trigger (envT envC : Env) (id : N) (σ σ1 : State) :
  trigger envT id σ = Ok (true, σ1) →
  block_numberU256 envT < 2 ^ 256 →
  let t := block_numberU256 envT in
  let grace := loadSwitchGracePeriod id (storage σ) in
  (tx_sender envC = loadSwitchOwner id (storage σ) →
   succeeds (cancel envC id σ1)
   ↔ t + grace < 2 ^ 256 ∧ block_numberU256 envC ≤ t + grace)
  ∧ (tx_sender envC ≠ loadSwitchOwner id (storage σ) →
     notOwner (cancel envC id σ1)).
Proof.
  intros Htr Hblk t grace. subst t grace.
  apply trigger_inv in Htr. cbv zeta in Htr.
  destruct Htr as (Hex & _ & _ & _ & Hσ1).
  apply (f_equal snd) in Hσ1. cbn [snd] in Hσ1. subst σ1.
  destruct (trigger_storage_fields id (block_numberU256 envT) (storage σ))
    as (Hn & Hs & Htb).
  destruct (trigger_other_fields id (block_numberU256 envT) (storage σ))
    as (Hown & Hg & _ & _).
  rewrite mod_u256_small in Htb by done.
  set (st1 := storeSwitchTriggerBlock id (block_numberU256 envT)
                (storeSwitchStatus id STATUS_TRIGGERED (storage σ))) in *.
  assert (switchExists id st1) as Hex1.
  { destruct Hex. split; [done|]. by rewrite Hn. }
  split.
  - intros Hsender. split.
    + intros [r Hr]. apply cancel_inv in Hr. cbv zeta in Hr.
      rewrite !storage_emitEvent in Hr.
      destruct Hr as (_ & _ & _ & Hfit & Hle & _).
      rewrite Htb, Hg in Hfit, Hle. done.
    + intros [Hfit Hle]. apply cancel_run; rewrite ?storage_emitEvent;
        rewrite ?Htb, ?Hg, ?Hown; done.
  - intros Hno. unfold notOwner, cancel. rewrite storage_emitEvent.
    rewrite (ensureSwitchExists_Ok _ _ Hex1). rbind.
    rewrite ensureOwner_Revert by (by rewrite Hown). by rbind.
Qed.

Lemma cancel_after_trigger_witness :
  ∃ σ1,
    trigger (envAt carol 101) 1 createdState = Ok (true, σ1)
    ∧ succeeds (cancel (envAt alice 106) 1 σ1)
    ∧ ¬ succeeds (cancel (envAt alice 107) 1 σ1).
Proof.
  destruct (trigger (envAt carol 101) 1 createdState) as [[b σ1]|] eqn:Htr;
    [|by vm_compute in Htr].
  assert (b = true) as -> by (vm_compute in Htr; congruence).
  exists σ1. split; [done|].
  assert (block_numberU256 (envAt carol 101) < 2 ^ 256) as Hblk
    by (by vm_compute).
  assert (alice = loadSwitchOwner 1 (storage createdState)) as Hown
    by (by vm_compute).
  split.
  - destruct (cancel_after_trigger _ (envAt alice 106) _ _ _ Htr Hblk)
      as [H _].
    apply (H Hown). split; by vm_compute.
  - destruct (cancel_after_trigger _ (envAt alice 107) _ _ _ Htr Hblk)
      as [H _].
    intros Hs. apply (H Hown) in Hs. destruct Hs as [_ Hle].
    revert Hle. apply N.lt_nge. by vm_compute.
Defined.

(** ** Keys that stay apart *)

Lemma lxor_byte_range (x y : N) : x < 256 → y < 256 → N.lxor x y < 256.
Proof.
  intros Hx Hy.
  destruct (N.eq_dec (N.lxor x y) 0) as [->|Hnz]; [lia|].
  change 256 with (2 ^ 8). apply N.log2_lt_pow2; [lia|].
  pose proof (N.log2_lxor x y) as Hl.
  assert (∀ z, z < 256 → N.log2 z < 8) as Hlog.
  { intros z Hz. destruct (N.eq_dec z 0) as [->|]; [done|].
    apply N.log2_lt_pow2; [lia|done]. }
  pose proof (Hlog x Hx). pose proof (Hlog y Hy). lia.
Qed.

Lemma xor_byte_cancel (x y y' : byte) :
  u8 (N.lxor (b2n x) (b2n y)) = u8 (N.lxor (b2n x) (b2n y')) → y = y'.
Proof.
  intros H. apply (f_equal b2n) in H. rewrite !b2n_u8 in H.
  rewrite !N.mod_small in H by (apply lxor_byte_range; apply b2n_range).
  apply b2n_inj.
  apply (f_equal (N.lxor (b2n x))) in H.
  by rewrite <- !N.lxor_assoc, !N.lxor_nilpotent, !N.lxor_0_l in H.
Qed.

Lemma xorLoop_inj (a b b' : list byte) :
  length b = 30%nat → length b' = 30%nat →
  xorLoop 30 0 (zeroBytes 30) a b = xorLoop 30 0 (zeroBytes 30) a b' →
  b = b'.
Proof.
  intros Hb Hb' H. apply list_eq. intros j.
  destruct (decide (j < 30)%nat) as [Hj|Hj].
  - apply (f_equal (.!! j)) in H.
    rewrite !xorLoop_lookup in H by (rewrite length_zeroBytes; lia).
    rewrite !decide_True in H by lia.
    apply (inj Some) in H. apply xor_byte_cancel in H.
    rewrite (list_lookup_lookup_total_lt b j) by lia.
    rewrite (list_lookup_lookup_total_lt b' j) by lia.
    by rewrite H.
  - rewrite !lookup_ge_None_2 by lia. done.
Qed.

Lemma u256ToSubPointer_sameSub (a b : N) :
  u256ToSubPointer a = u256ToSubPointer b ↔ sameSub a b.
Proof.
  unfold sameSub. split.
  - intros H. apply (f_equal fromBytesBE) in H.
    by rewrite !fromBytesBE_u256ToSubPointer in H.
  - intros H. rewrite (u256ToSubPointer_low a), (u256ToSubPointer_low b).
    transitivity (toBytesBE 30 (a mod 256 ^ N.of_nat 30));
      [symmetry; apply toBytesBE_mod|].
    transitivity (toBytesBE 30 (b mod 256 ^ N.of_nat 30));
      [|apply toBytesBE_mod].
    change (256 ^ N.of_nat 30) with (2 ^ 240). by rewrite H.
Qed.

Lemma fromBytesBE_inj (l l' : list byte) :
  length l = length l' → fromBytesBE l = fromBytesBE l' → l = l'.
Proof.
  intros Hl H. rewrite <- (toBytesBE_fromBytesBE l), Hl, H.
  apply toBytesBE_fromBytesBE.
Qed.

Lemma encodePointer_inj (p : N) (s s' : list byte) :
  p < 256 → length s = 30%nat → length s' = 30%nat →
  encodePointer p s = encodePointer p s' → s = s'.
Proof.
  intros Hp Hl Hl'. rewrite !encodePointer_small by done. intros H.
  apply fromBytesBE_inj; [congruence|lia].
Qed.


Lemma addressIndex_key_iff (owner : list byte) (i j : N) :
  encodePointer ownerSwitchIndexPointer (addressIndexSubPointer owner i)
  = encodePointer ownerSwitchIndexPointer (addressIndexSubPointer owner j)
  ↔ sameSub i j.
Proof.
  split.
  - intros H.
    apply encodePointer_inj in H;
      [|done|apply length_addressIndexSubPointer..].
    apply xorLoop_inj in H; [|apply length_u256ToSubPointer..].
    by apply u256ToSubPointer_sameSub.
  - intros H. apply u256ToSubPointer_sameSub in H.
    unfold addressIndexSubPointer. by rewrite H.
Qed.


(** ** Creating a switch *)

Lemma getAddress_setAddress_same (p id : N) (a : list byte) (st : gmap N N) :
  length a = 32%nat →
  getAddressForSwitch p id (setAddressForSwitch p id a st) = a.
Proof.
  intros Hl. unfold getAddressForSwitch, setAddressForSwitch.
  by apply getStorageAt_set_eq.
Qed.

Lemma getOwnerSwitchCount_read (owner : list byte) (st : gmap N N) :
  getOwnerSwitchCount owner st
  = readU256 (encodePointer ownerSwitchCountPointer
                (addressToSubPointer owner)) st.
Proof. unfold getOwnerSwitchCount, readU256. done. Qed.

Lemma getOwnerSwitchAtIndex_read (owner : list byte) (k : N) (st : gmap N N) :
  getOwnerSwitchAtIndex owner k st
  = readU256 (encodePointer ownerSwitchIndexPointer
                (addressIndexSubPointer owner k)) st.
Proof. unfold getOwnerSwitchAtIndex, readU256. done. Qed.

Lemma getOwnerSwitchCount_unchanged (owner : list byte) (st st' : gmap N N) :
  unchanged_ns ownerSwitchCountPointer st st' →
  getOwnerSwitchCount owner st' = getOwnerSwitchCount owner st.
Proof.
  intros H.
  rewrite (getOwnerSwitchCount_read owner st'),
    (getOwnerSwitchCount_read owner st).
  apply (readU256_unchanged ownerSwitchCountPointer); [done|].
  apply ns_encodePointer; [done|apply length_addressToSubPointer].
Qed.

Lemma getOwnerSwitchAtIndex_unchanged (owner : list byte) (k : N)
    (st st' : gmap N N) :
  unchanged_ns ownerSwitchIndexPointer st st' →
  getOwnerSwitchAtIndex owner k st' = getOwnerSwitchAtIndex owner k st.
Proof.
  intros H.
  rewrite (getOwnerSwitchAtIndex_read owner k st'),
    (getOwnerSwitchAtIndex_read owner k st).
  apply (readU256_unchanged ownerSwitchIndexPointer); [done|].
  apply ns_encodePointer; [done|apply length_addressIndexSubPointer].
Qed.

Lemma getOwnerSwitchCount_range (owner : list byte) (st : gmap N N) :
  getOwnerSwitchCount owner st < 2 ^ 256.
Proof. rewrite getOwnerSwitchCount_read. apply readU256_range. Qed.

Lemma nextSwitchId_range (st : gmap N N) : nextSwitchId_value st < 2 ^ 256.
Proof. rewrite nextSwitchId_value_read. apply readU256_range. Qed.

Lemma createSwitch_record (sender b : list byte) (id i g blk : N)
    (st : gmap N N) :
  let st8 :=
    storeSwitchChunkCount id 0
      (storeSwitchTriggerBlock id 0
         (storeSwitchStatus id STATUS_ACTIVE
            (storeSwitchLastCheckin id blk
               (storeSwitchGracePeriod id g
                  (storeSwitchInterval id i
                     (storeSwitchBeneficiary id b
                        (storeSwitchOwner id sender st))))))) in
  ∀ cnt nxt,
    let st' := nextSwitchId_set nxt
                 (setOwnerSwitchCount sender (cnt + 1)
                    (setOwnerSwitchAtIndex sender cnt id st8)) in
    (length sender = 32%nat → loadSwitchOwner id st' = sender)
    ∧ (length b = 32%nat → loadSwitchBeneficiary id st' = b)
    ∧ loadSwitchInterval id st' = i mod 2 ^ 256
    ∧ loadSwitchGracePeriod id st' = g mod 2 ^ 256
    ∧ loadSwitchLastCheckin id st' = blk mod 2 ^ 256
    ∧ loadSwitchTriggerBlock id st' = 0.
Proof.
  intros st8 cnt nxt st'. subst st' st8.
  split; [|split; [|split; [|split; [|split]]]].
  - intros Hl. unfold loadSwitchOwner.
    eapply eq_trans;
      [apply (getAddress_unchanged _ _ (storeSwitchOwner id sender st));
         [done|solve_unchanged]|].
    by apply getAddress_setAddress_same.
  - intros Hl. unfold loadSwitchBeneficiary.
    eapply eq_trans;
      [apply (getAddress_unchanged _ _
                (storeSwitchBeneficiary id b (storeSwitchOwner id sender st)));
         [done|solve_unchanged]|].
    by apply getAddress_setAddress_same.
  - unfold loadSwitchInterval.
    eapply eq_trans;
      [apply (getU256_unchanged _ _
                (storeSwitchInterval id i
                   (storeSwitchBeneficiary id b
                      (storeSwitchOwner id sender st))));
         [done|solve_unchanged]|].
    apply getU256_setU256_same.
  - unfold loadSwitchGracePeriod.
    eapply eq_trans;
      [apply (getU256_unchanged _ _
                (storeSwitchGracePeriod id g
                   (storeSwitchInterval id i
                      (storeSwitchBeneficiary id b
                         (storeSwitchOwner id sender st)))));
         [done|solve_unchanged]|].
    apply getU256_setU256_same.
  - unfold loadSwitchLastCheckin.
    eapply eq_trans;
      [apply (getU256_unchanged _ _
                (storeSwitchLastCheckin id blk
                   (storeSwitchGracePeriod id g
                      (storeSwitchInterval id i
                         (storeSwitchBeneficiary id b
                            (storeSwitchOwner id sender st))))));
         [done|solve_unchanged]|].
    apply getU256_setU256_same.
  - unfold loadSwitchTriggerBlock.
    eapply eq_trans;
      [apply (getU256_unchanged _ _
                (storeSwitchTriggerBlock id 0
                   (storeSwitchStatus id STATUS_ACTIVE
                      (storeSwitchLastCheckin id blk
                         (storeSwitchGracePeriod id g
                            (storeSwitchInterval id i
                               (storeSwitchBeneficiary id b
                                  (storeSwitchOwner id sender st))))))));
         [done|solve_unchanged]|].
    apply getU256_setU256_same.
Qed.

Lemma createSwitch_owner_index (sender b : list byte) (id i g blk : N)
    (st : gmap N N) :
  let st8 :=
    storeSwitchChunkCount id 0
      (storeSwitchTriggerBlock id 0
         (storeSwitchStatus id STATUS_ACTIVE
            (storeSwitchLastCheckin id blk
               (storeSwitchGracePeriod id g
                  (storeSwitchInterval id i
                     (storeSwitchBeneficiary id b
                        (storeSwitchOwner id sender st))))))) in
  getOwnerSwitchCount sender st8 = getOwnerSwitchCount sender st
  ∧ ∀ cnt nxt,
      let st' := nextSwitchId_set nxt
                   (setOwnerSwitchCount sender (cnt + 1)
                      (setOwnerSwitchAtIndex sender cnt id st8)) in
      getOwnerSwitchCount sender st' = (cnt + 1) mod 2 ^ 256
      ∧ getOwnerSwitchAtIndex sender cnt st' = id mod 2 ^ 256
      ∧ (∀ k, ¬ sameSub k cnt →
              getOwnerSwitchAtIndex sender k st'
              = getOwnerSwitchAtIndex sender k st).
Proof.
  intros st8. split.
  - subst st8. apply getOwnerSwitchCount_unchanged. solve_unchanged.
  - intros cnt nxt st'. subst st'. split; [|split].
    + eapply eq_trans;
        [apply (getOwnerSwitchCount_unchanged _
                  (setOwnerSwitchCount sender (cnt + 1)
                     (setOwnerSwitchAtIndex sender cnt id st8)));
         solve_unchanged|].
      rewrite getOwnerSwitchCount_read. unfold setOwnerSwitchCount.
      rewrite readU256_set_u256. by rewrite decide_True.
    + eapply eq_trans;
        [apply (getOwnerSwitchAtIndex_unchanged _ _
                  (setOwnerSwitchAtIndex sender cnt id st8));
         solve_unchanged|].
      rewrite getOwnerSwitchAtIndex_read. unfold setOwnerSwitchAtIndex.
      rewrite readU256_set_u256. by rewrite decide_True.
    + intros k Hk.
      eapply eq_trans;
        [apply (getOwnerSwitchAtIndex_unchanged _ _
                  (setOwnerSwitchAtIndex sender cnt id st8));
         solve_unchanged|].
      rewrite getOwnerSwitchAtIndex_read. unfold setOwnerSwitchAtIndex.
      rewrite readU256_set_u256.
      rewrite decide_False by (by rewrite addressIndex_key_iff).
      rewrite <- getOwnerSwitchAtIndex_read.
      subst st8. apply getOwnerSwitchAtIndex_unchanged. solve_unchanged.
Qed.

Lemma createSwitch_run (env : Env) (b : list byte) (i g : N) (σ : State) :
  let st := storage σ in
  let id := nextSwitchId_value st in
  let sender := tx_sender env in
  let st8 :=
    storeSwitchChunkCount id 0
      (storeSwitchTriggerBlock id 0
         (storeSwitchStatus id STATUS_ACTIVE
            (storeSwitchLastCheckin id (block_numberU256 env)
               (storeSwitchGracePeriod id g
                  (storeSwitchInterval id i
                     (storeSwitchBeneficiary id b
                        (storeSwitchOwner id sender st))))))) in
  let cnt := getOwnerSwitchCount sender st8 in
  b ≠ Address_zero → i ≠ 0 → g ≠ 0 →
  (cnt + 1 < 2 ^ 256 → id + 1 < 2 ^ 256 →
   createSwitch env b i g σ
   = Ok (id,
         emitEvent (SwitchCreatedEvent id sender b)
           (nextSwitchId_set (id + 1)
              (setOwnerSwitchCount sender (cnt + 1)
                 (setOwnerSwitchAtIndex sender cnt id st8))) σ))
  ∧ (2 ^ 256 ≤ cnt + 1 ∨ 2 ^ 256 ≤ id + 1 →
     createSwitch env b i g σ = Revert "SafeMath: addition overflow").
Proof.
  intros st id sender st8 cnt Hb Hi Hg.
  unfold createSwitch. rewrite bool_decide_eq_false_2 by done.
  destruct (N.eqb_spec i 0) as [|_]; [done|].
  destruct (N.eqb_spec g 0) as [|_]; [done|].
  unfold addSwitchToOwner. cbv zeta.
  fold st. fold id. fold sender. fold st8. fold cnt.
  split.
  - intros Hc Hn.
    rewrite (SafeMath_add_Ok cnt 1) by done. rbind.
    rewrite (SafeMath_add_Ok id 1) by done. rbind. reflexivity.
  - intros Hover.
    destruct (N.lt_ge_cases (cnt + 1) (2 ^ 256)) as [Hc|Hc].
    + rewrite (SafeMath_add_Ok cnt 1) by done. rbind.
      rewrite (SafeMath_add_overflow id 1) by (done || lia). by rbind.
    + rewrite (SafeMath_add_overflow cnt 1) by done. by rbind.
Qed.

(** [createSwitch] checks its arguments in the order beneficiary,
    interval, grace period, and returns exactly when all three are
    accepted and neither the creator's switch count nor the identifier
    counter is at its largest value. *)
Theorem createSwitch_validation (env : Env) (b : list byte) (i g : N)
    (σ : State) :
  (b = Address_zero →
   createSwitch env b i g σ = Revert "Beneficiary cannot be zero address")
  ∧ (b ≠ Address_zero → i = 0 →
     createSwitch env b i g σ
     = Revert "Heartbeat interval must be greater than zero")
  ∧ (b ≠ Address_zero → i ≠ 0 → g = 0 →
     createSwitch env b i g σ
     = Revert "Grace period must be greater than zero")
  ∧ (succeeds (createSwitch env b i g σ)
     ↔ b ≠ Address_zero ∧ i ≠ 0 ∧ g ≠ 0
       ∧ getOwnerSwitchCount (tx_sender env) (storage σ) + 1 < 2 ^ 256
       ∧ nextSwitchId_value (storage σ) + 1 < 2 ^ 256).
Proof.
  split; [|split; [|split]].
  - intros Hb. unfold createSwitch. by rewrite bool_decide_eq_true_2.
  - intros Hb ->. unfold createSwitch. by rewrite bool_decide_eq_false_2.
  - intros Hb Hi ->. unfold createSwitch.
    rewrite bool_decide_eq_false_2 by done.
    by destruct (N.eqb_spec i 0).
  - destruct (createSwitch_owner_index (tx_sender env) b
                (nextSwitchId_value (storage σ)) i g (block_numberU256 env)
                (storage σ)) as [Hcnt _].
    cbv zeta in Hcnt. split.
    + intros [r Hr]. pose proof Hr as Hinv.
      apply createSwitch_inv in Hinv. cbv zeta in Hinv.
      destruct Hinv as (Hn & Hb & Hi & Hg & _).
      split; [done|]. split; [done|]. split; [done|]. split; [|done].
      destruct (createSwitch_run env b i g σ Hb Hi Hg) as [_ Hover].
      cbv zeta in Hover. rewrite Hcnt in Hover.
      destruct (N.lt_ge_cases
                  (getOwnerSwitchCount (tx_sender env) (storage σ) + 1)
                  (2 ^ 256)) as [|Hge]; [done|].
      rewrite Hover in Hr by (by left). discriminate.
    + intros (Hb & Hi & Hg & Hc & Hn).
      destruct (createSwitch_run env b i g σ Hb Hi Hg) as [Hok _].
      cbv zeta in Hok. rewrite Hcnt in Hok.
      eexists. by apply Hok.
Qed.

Lemma createSwitch_validation_witness :
  createSwitch (envAt alice 90) Address_zero 10 5 deployed
  = Revert "Beneficiary cannot be zero address"
  ∧ succeeds (createSwitch (envAt alice 90) bob 10 5 deployed).
Proof.
  split.
  - destruct (createSwitch_validation (envAt alice 90) Address_zero 10 5
                deployed) as (H & _).
    by apply H.
  - destruct (createSwitch_validation (envAt alice 90) bob 10 5 deployed)
      as (_ & _ & _ & H).
    apply H. repeat split; by vm_compute.
Defined.

(** A switch read back right after its creation on a deployed contract
    has the caller as owner, the given beneficiary, interval and grace
    period, the creation block as last check-in, status ACTIVE, no
    trigger block and no chunks. *)
Theorem createSwitch_then_getSwitch (env : Env) (b : list byte) (i g id : N)
    (σ σ' : State) :
  createSwitch env b i g σ = Ok (id, σ') →
  1 ≤ nextSwitchId_value (storage σ) →
  length (tx_sender env) = 32%nat → length b = 32%nat →
  i < 2 ^ 256 → g < 2 ^ 256 → block_numberU256 env < 2 ^ 256 →
  getSwitch id σ'
  = Ok {| info_owner := tx_sender env;
          info_beneficiary := b;
          info_interval := i;
          info_gracePeriod := g;
          info_lastCheckin := block_numberU256 env;
          info_status := STATUS_ACTIVE;
          info_triggerBlock := 0;
          info_chunkCount := 0 |}.
Proof.
  intros Hop Hdep Hls Hlb Hi Hg Hblk.
  apply createSwitch_inv in Hop. cbv zeta in Hop.
  destruct Hop as (Hfit & _ & _ & _ & Heq).
  apply pair_eq in Heq. destruct Heq as [Hid Hσ]. subst id σ'.
  unfold getSwitch. rewrite storage_emitEvent.
  set (id := nextSwitchId_value (storage σ)) in *.
  set (cnt := getOwnerSwitchCount (tx_sender env) _).
  pose proof (createSwitch_storage_fields (tx_sender env) b id i g
                (block_numberU256 env) (storage σ) cnt (id + 1)) as Hf.
  pose proof (createSwitch_record (tx_sender env) b id i g
                (block_numberU256 env) (storage σ) cnt (id + 1)) as Hr.
  cbv zeta in Hf, Hr.
  destruct Hf as (Hn & Hs & Hc).
  destruct Hr as (Ho & Hb & Hiv & Hgr & Hlc & Htb).
  rewrite mod_u256_small in Hn, Hiv, Hgr, Hlc by done.
  rewrite ensureSwitchExists_Ok by (split; [done|rewrite Hn; lia]).
  rbind.
  rewrite (Ho Hls), (Hb Hlb), Hiv, Hgr, Hlc, Htb, (Hs id), (Hc id).
  by rewrite !decide_True.
Qed.

Lemma createSwitch_then_getSwitch_witness :
  ∃ σ',
    createSwitch (envAt alice 90) bob 10 5 deployed = Ok (1, σ')
    ∧ getSwitch 1 σ'
      = Ok {| info_owner := alice; info_beneficiary := bob;
              info_interval := 10; info_gracePeriod := 5;
              info_lastCheckin := 90; info_status := STATUS_ACTIVE;
              info_triggerBlock := 0; info_chunkCount := 0 |}.
Proof.
  destruct (createSwitch (envAt alice 90) bob 10 5 deployed)
    as [[id σ']|] eqn:Hop; [|by vm_compute in Hop].
  assert (id = 1) as -> by (vm_compute in Hop; congruence).
  exists σ'. split; [done|].
  apply (createSwitch_then_getSwitch (envAt alice 90) bob 10 5 1 deployed σ');
    [exact Hop|by vm_compute..].
Defined.

(** ** The ownership index *)

Lemma ownerLoop_spec (n : nat) (i : N) (owner : list byte) (st : gmap N N) :
  i + N.of_nat n < 2 ^ 32 →
  ownerLoop n i owner st
  = map (λ k, getOwnerSwitchAtIndex owner (i + N.of_nat k) st) (seq 0 n).
Proof.
  change (2 ^ 32) with 4294967296.
  revert i. induction n as [|n IH]; intros i Hi; [done|].
  cbn [ownerLoop seq map]. rewrite N.add_0_r. f_equal.
  assert (u32 (i + 1) = i + 1) as ->.
  { unfold u32. change (2 ^ 32) with 4294967296. apply N.mod_small. lia. }
  rewrite IH by lia. rewrite <- fmap_S_seq.
  change (map ?f (S <$> ?l)) with (f <$> (S <$> l)).
  rewrite <- list_fmap_compose. apply list_fmap_ext.
  intros _ k _. unfold compose. f_equal. lia.
Qed.

Lemma map_seq_lookup {A} (f : nat → A) (n k : nat) :
  (k < n)%nat → map f (seq 0 n) !! k = Some (f k).
Proof.
  intros Hk. change (map f (seq 0 n)) with (f <$> seq 0 n).
  rewrite list_lookup_fmap, lookup_seq_lt by done. done.
Qed.

Lemma getSwitchesByOwner_eq (owner : list byte) (σ : State) :
  let count := getOwnerSwitchCount owner (storage σ) in
  getSwitchesByOwner owner σ
  = Ok (count,
        map (λ k, getOwnerSwitchAtIndex owner (N.of_nat k) (storage σ))
          (seq 0 (N.to_nat (N.min count 100)))).
Proof.
  intros count. unfold getSwitchesByOwner. fold count.
  assert ((if 100 <? count then 100 else count) = N.min count 100) as ->.
  { destruct (N.ltb_spec 100 count); lia. }
  assert (u32 (N.min count 100) = N.min count 100) as ->.
  { unfold u32. change (2 ^ 32) with 4294967296. apply N.mod_small. lia. }
  rewrite ownerLoop_spec by (change (2 ^ 32) with 4294967296; lia).
  done.
Qed.

(** [getSwitchesByOwner] returns the owner's full count together with
    a list of as many identifiers as the count but at most 100, whose
    entry [k] is what the ownership index holds at position [k]. *)
Theorem getSwitchesByOwner_spec (owner : list byte) (σ : State) :
  let count := getOwnerSwitchCount owner (storage σ) in
  ∃ ids,
    getSwitchesByOwner owner σ = Ok (count, ids)
    ∧ N.of_nat (length ids) = N.min count 100
    ∧ ∀ k, k < N.min count 100 →
           ids !! N.to_nat k
           = Some (getOwnerSwitchAtIndex owner k (storage σ)).
Proof.
  intros count.
  exists (map (λ k, getOwnerSwitchAtIndex owner (N.of_nat k) (storage σ))
            (seq 0 (N.to_nat (N.min count 100)))).
  split; [apply getSwitchesByOwner_eq|]. split.
  - rewrite length_map, length_seq. lia.
  - intros k Hk.
    rewrite map_seq_lookup by lia. by rewrite N2Nat.id.
Qed.

Lemma getSwitchesByOwner_spec_witness :
  ∃ ids,
    getSwitchesByOwner alice createdState = Ok (1, ids)
    ∧ ids !! 0%nat = Some 1.
Proof.
  destruct (getSwitchesByOwner_spec alice createdState)
    as (ids & Hrun & _ & Hk).
  assert (getOwnerSwitchCount alice (storage createdState) = 1) as Hc
    by (by vm_compute).
  rewrite Hc in Hrun, Hk.
  exists ids. split; [exact Hrun|].
  change 0%nat with (N.to_nat 0).
  rewrite (Hk 0) by (by vm_compute). by vm_compute.
Defined.

Lemma createSwitch_count_fits (env : Env) (b : list byte) (i g : N)
    (σ : State) (r : N * State) :
  createSwitch env b i g σ = Ok r →
  getOwnerSwitchCount (tx_sender env) (storage σ) + 1 < 2 ^ 256.
Proof.
  intros Hr. pose proof Hr as Hinv.
  apply createSwitch_inv in Hinv. cbv zeta in Hinv.
  destruct Hinv as (_ & Hb & Hi & Hg & _).
  destruct (createSwitch_owner_index (tx_sender env) b
              (nextSwitchId_value (storage σ)) i g (block_numberU256 env)
              (storage σ)) as [Hcnt _].
  cbv zeta in Hcnt.
  destruct (createSwitch_run env b i g σ Hb Hi Hg) as [_ Hover].
  cbv zeta in Hover. rewrite Hcnt in Hover.
  destruct (N.lt_ge_cases
              (getOwnerSwitchCount (tx_sender env) (storage σ) + 1)
              (2 ^ 256)) as [|Hge]; [done|].
  rewrite Hover in Hr by (by left). discriminate.
Qed.

(** A created switch is appended to its creator's list: the count
    goes up by one, the new identifier sits at the old count, and
    while the list is shorter than 100 [getSwitchesByOwner] returns
    the former list followed by the new identifier. *)
Theorem createSwitch_appends_to_owner (env : Env) (b : list byte)
    (i g id : N) (σ σ' : State) :
  createSwitch env b i g σ = Ok (id, σ') →
  let owner := tx_sender env in
  let cnt := getOwnerSwitchCount owner (storage σ) in
  getOwnerSwitchCount owner (storage σ') = cnt + 1
  ∧ getOwnerSwitchAtIndex owner cnt (storage σ') = id
  ∧ (cnt < 100 →
     ∀ l, getSwitchesByOwner owner σ = Ok (cnt, l) →
          getSwitchesByOwner owner σ' = Ok (cnt + 1, l ++ [id])).
Proof.
  intros Hop owner cnt.
  pose proof (createSwitch_count_fits _ _ _ _ _ _ Hop) as Hfit.
  fold owner in Hfit. fold cnt in Hfit.
  apply createSwitch_inv in Hop. cbv zeta in Hop.
  destruct Hop as (_ & _ & _ & _ & Heq).
  apply pair_eq in Heq. destruct Heq as [Hid Hσ].
  pose proof (createSwitch_owner_index owner b
                (nextSwitchId_value (storage σ)) i g (block_numberU256 env)
                (storage σ)) as Hidx.
  cbv zeta in Hidx. destruct Hidx as [Hcnt Hidx].
  fold owner in Hσ. rewrite Hcnt in Hσ. fold cnt in Hσ.
  specialize (Hidx cnt (nextSwitchId_value (storage σ) + 1)).
  cbv zeta in Hidx. destruct Hidx as (Hc & He & Hothers).
  assert (storage σ'
          = nextSwitchId_set (nextSwitchId_value (storage σ) + 1)
              (setOwnerSwitchCount owner (cnt + 1)
                 (setOwnerSwitchAtIndex owner cnt
                    (nextSwitchId_value (storage σ))
                    (storeSwitchChunkCount (nextSwitchId_value (storage σ)) 0
                       (storeSwitchTriggerBlock
                          (nextSwitchId_value (storage σ)) 0
                          (storeSwitchStatus
                             (nextSwitchId_value (storage σ)) STATUS_ACTIVE
                             (storeSwitchLastCheckin
                                (nextSwitchId_value (storage σ))
                                (block_numberU256 env)
                                (storeSwitchGracePeriod
                                   (nextSwitchId_value (storage σ)) g
                                   (storeSwitchInterval
                                      (nextSwitchId_value (storage σ)) i
                                      (storeSwitchBeneficiary
                                         (nextSwitchId_value (storage σ)) b
                                         (storeSwitchOwner
                                            (nextSwitchId_value (storage σ))
                                            owner (storage σ)))))))))))) as Hst.
  { rewrite Hσ. apply storage_emitEvent. }
  rewrite <- Hst in Hc, He, Hothers.
  rewrite mod_u256_small in Hc by done.
  rewrite mod_u256_small in He by apply nextSwitchId_range.
  rewrite <- Hid in He.
  split; [exact Hc|]. split; [exact He|].
  intros Hlt l Hl.
  rewrite getSwitchesByOwner_eq in Hl. cbv zeta in Hl. fold cnt in Hl.
  apply Ok_inj in Hl. apply pair_eq in Hl. destruct Hl as [_ <-].
  rewrite getSwitchesByOwner_eq. cbv zeta. rewrite Hc.
  replace (N.to_nat (N.min (cnt + 1) 100)) with (S (N.to_nat cnt)) by lia.
  replace (N.to_nat (N.min cnt 100)) with (N.to_nat cnt) by lia.
  rewrite seq_S, map_app. cbn [map]. rewrite Nat.add_0_l, N2Nat.id, He.
  f_equal. f_equal. f_equal.
  apply map_ext_in. intros k Hk. apply in_seq in Hk.
  apply Hothers. unfold sameSub.
  rewrite !N.mod_small by (change (2 ^ 240) with 1766847064778384329583297500742918515827483896875618958121606201292619776; lia). lia.
Qed.

Lemma createSwitch_appends_to_owner_witness :
  ∃ σ',
    createSwitch (envAt alice 95) carol 7 3 createdState = Ok (2, σ')
    ∧ getSwitchesByOwner alice createdState = Ok (1, [1])
    ∧ getSwitchesByOwner alice σ' = Ok (2, [1; 2]).
Proof.
  destruct (createSwitch (envAt alice 95) carol 7 3 createdState)
    as [[id σ']|] eqn:Hop; [|by vm_compute in Hop].
  assert (id = 2) as -> by (vm_compute in Hop; congruence).
  exists σ'. split; [done|].
  assert (getSwitchesByOwner alice createdState = Ok (1, [1])) as Hl
    by (by vm_compute).
  split; [exact Hl|].
  destruct (createSwitch_appends_to_owner _ _ _ _ _ _ _ Hop)
    as (_ & _ & Happ).
  assert (getOwnerSwitchCount alice (storage createdState) = 1) as Hc
    by (by vm_compute).
  change (tx_sender (envAt alice 95)) with alice in Happ.
  rewrite Hc in Happ. apply (Happ eq_refl [1] Hl).
Defined.

(** ** Reading back what was stored *)

Lemma load_store_framed (p : N) (s d : list byte) (st st1 st' : gmap N N) :
  p < 255 → length s = 30%nat →
  N.of_nat (length d) ≤ 8188 →
  storeMultiSlotBytes p s d st = Ok st1 →
  unchanged_ns p st1 st' →
  loadMultiSlotBytes p s st' = Ok d.
Proof.
  intros Hp Hl Hcap Hst Hns.
  destruct (storeMultiSlotBytes_spec p s d st Hcap)
    as (st1' & Hrun & _ & H0 & Hslots).
  cbv zeta in Hrun, H0, Hslots.
  rewrite Hst in Hrun. apply Ok_inj in Hrun. subst st1'.
  apply load_after_store; [done| |].
  - rewrite (getStorageAt_unchanged p _ st1 st'); [exact H0|exact Hns|].
    apply ns_encodePointer; [lia|done].
  - intros i Hi Hlen.
    rewrite (getStorageAt_unchanged p _ st1 st');
      [by apply Hslots|exact Hns|].
    apply ns_bigEndianAdd; [done|done|].
    change (2 ^ 64) with 18446744073709551616. lia.
Qed.

(** A chunk stored by [storeData] is what [getData] returns for the
    same switch and chunk index right afterwards. *)
Theorem storeData_then_getData (env : Env) (id idx : N) (d : list byte)
    (σ σ' : State) :
  storeData env id idx d σ = Ok (true, σ') →
  N.of_nat (length d) ≤ MAX_BYTE_SLOTS * 32 - 4 →
  getData id idx σ' = Ok d.
Proof.
  intros Hop Hcap. change (MAX_BYTE_SLOTS * 32 - 4) with 8188 in Hcap.
  apply storeData_inv in Hop.
  destruct Hop as (Hex & _ & _ & Hfit & st1 & Hst & Heq).
  apply pair_eq in Heq. destruct Heq as [_ Hσ]. subst σ'.
  unfold getData. rewrite storage_emitEvent.
  destruct (storeData_storage_fields id idx _ _ _ _ Hst
              (length_compoundSubPointer _ _) Hfit) as (Hn & _ & Hc).
  set (st' := if loadSwitchChunkCount id st1 <? idx + 1
              then storeSwitchChunkCount id (idx + 1) st1 else st1) in *.
  assert (unchanged_ns switchDataChunksPointer st1 st') as Hns.
  { subst st'. destruct (_ <? _); [solve_unchanged|apply unchanged_ns_refl]. }
  rewrite ensureSwitchExists_Ok
    by (destruct Hex; split; [done|by rewrite Hn]).
  rbind. rewrite (Hc id). rewrite decide_True by done.
  destruct (N.leb_spec
              (N.max (loadSwitchChunkCount id (storage σ)) (idx + 1)) idx);
    [lia|].
  apply (load_store_framed _ _ _ (storage σ) st1); done.
Qed.

Lemma storeData_then_getData_witness :
  ∃ σ',
    storeData (envAt alice 101) 1 0 (map u8 [97; 98; 99]) createdState
    = Ok (true, σ')
    ∧ getData 1 0 σ' = Ok (map u8 [97; 98; 99]).
Proof.
  destruct (storeData (envAt alice 101) 1 0 (map u8 [97; 98; 99])
              createdState) as [[ok σ']|] eqn:Hop; [|by vm_compute in Hop].
  assert (ok = true) as -> by (vm_compute in Hop; congruence).
  exists σ'. split; [done|].
  apply (storeData_then_getData _ _ _ _ _ _ Hop). by vm_compute.
Defined.

(** A decryption key stored by the owner stays hidden while the
    switch is ACTIVE and is what [getDecryptionKey] returns once the
    switch has been triggered. *)
Theorem key_released_on_trigger (env envT : Env) (id : N) (k : list byte)
    (σ σ1 σ2 : State) :
  storeDecryptionKey env id k σ = Ok (true, σ1) →
  N.of_nat (length k) ≤ MAX_BYTE_SLOTS * 32 - 4 →
  trigger envT id σ1 = Ok (true, σ2) →
  getDecryptionKey id σ1 = Revert "Switch has not been triggered"
  ∧ getDecryptionKey id σ2 = Ok k.
Proof.
  intros Hop Hcap Htr. change (MAX_BYTE_SLOTS * 32 - 4) with 8188 in Hcap.
  apply storeDecryptionKey_inv in Hop.
  destruct Hop as (_ & st1 & Hst & Heq).
  apply pair_eq in Heq. destruct Heq as [_ Hσ]. subst σ1.
  apply trigger_inv in Htr. cbv zeta in Htr.
  rewrite !storage_withStorage in Htr.
  destruct Htr as (Hex & Hnt & _ & _ & Heq).
  apply pair_eq in Heq. destruct Heq as [_ Hσ]. subst σ2.
  split.
  - unfold getDecryptionKey. rewrite storage_withStorage.
    rewrite (ensureSwitchExists_Ok _ _ Hex). rbind.
    by destruct (N.eqb_spec (loadSwitchStatus id st1) STATUS_TRIGGERED).
  - unfold getDecryptionKey. rewrite storage_emitEvent.
    destruct (trigger_storage_fields id (block_numberU256 envT) st1)
      as (Hn & Hs & _).
    rewrite ensureSwitchExists_Ok
      by (destruct Hex; split; [done|by rewrite Hn]).
    rbind. rewrite Hs. change (negb (STATUS_TRIGGERED =? STATUS_TRIGGERED))
      with false. cbv iota.
    apply (load_store_framed _ _ _ (storage σ) st1); try done.
    solve_unchanged.
Qed.

Lemma key_released_on_trigger_witness :
  ∃ σ1 σ2,
    storeDecryptionKey (envAt alice 95) 1 (map u8 [1; 2; 3]) createdState
    = Ok (true, σ1)
    ∧ trigger (envAt carol 101) 1 σ1 = Ok (true, σ2)
    ∧ getDecryptionKey 1 σ1 = Revert "Switch has not been triggered"
    ∧ getDecryptionKey 1 σ2 = Ok (map u8 [1; 2; 3]).
Proof.
  destruct (storeDecryptionKey (envAt alice 95) 1 (map u8 [1; 2; 3])
              createdState) as [[ok σ1]|] eqn:Hop; [|by vm_compute in Hop].
  assert (ok = true) as -> by (vm_compute in Hop; congruence).
  destruct (trigger (envAt carol 101) 1 σ1) as [[ok σ2]|] eqn:Htr.
  - assert (ok = true) as ->.
    { apply trigger_inv in Htr. cbv zeta in Htr.
      destruct Htr as (_ & _ & _ & _ & Heq).
      apply pair_eq in Heq. by destruct Heq. }
    exists σ1, σ2. split; [done|]. split; [done|].
    apply (key_released_on_trigger _ (envAt carol 101) _ _ _ _ σ2 Hop);
      [by vm_compute|done].
  - exfalso. vm_compute in Hop. apply Ok_inj in Hop.
    apply pair_eq in Hop. destruct Hop as [_ <-]. by vm_compute in Htr.
Defined.

(** ** Neighbouring byte arrays *)

Lemma store_reaches_next_base (p : N) (s s' d : list byte)
    (st st1 : gmap N N) :
  p < 255 → length s = 30%nat → length s' = 30%nat →
  fromBytesBE s' = fromBytesBE s + 1 →
  28 < N.of_nat (length d) → N.of_nat (length d) ≤ 8188 →
  storeMultiSlotBytes p s d st = Ok st1 →
  Blockchain_getStorageAt (encodePointer p s') st1 = slotBytes d 0.
Proof.
  intros Hp Hl Hl' Hnext Hlong Hcap Hst.
  destruct (storeMultiSlotBytes_spec p s d st Hcap)
    as (st1' & Hrun & _ & _ & Hslots).
  cbv zeta in Hrun, Hslots.
  rewrite Hst in Hrun. apply Ok_inj in Hrun. subst st1'.
  specialize (Hslots 1). change (1 - 1) with 0 in Hslots.
  rewrite <- Hslots by lia. f_equal.
  rewrite bigEndianAdd_small
    by (try done; change (2 ^ 64) with 18446744073709551616; lia).
  rewrite encodePointer_small by lia. lia.
Qed.

(** The second storage slot of the decryption key of switch [id] is
    the first slot of the key of switch [id + 1]: a key longer than 28
    bytes stored on [id] replaces the length header and the first 28
    bytes of the key of the next switch by its own bytes 28 to 59. *)
Theorem storeDecryptionKey_overwrites_next (env : Env) (id : N)
    (k : list byte) (σ σ' : State) :
  storeDecryptionKey env id k σ = Ok (true, σ') →
  28 < N.of_nat (length k) → N.of_nat (length k) ≤ 8188 →
  id + 1 < 2 ^ 240 →
  Blockchain_getStorageAt
    (encodePointer switchEncryptedKeyPointer (u256ToSubPointer (id + 1)))
    (storage σ')
  = slotBytes k 0.
Proof.
  intros Hop Hlong Hcap Hid.
  apply storeDecryptionKey_inv in Hop.
  destruct Hop as (_ & st1 & Hst & Heq).
  apply pair_eq in Heq. destruct Heq as [_ Hσ]. subst σ'.
  rewrite storage_withStorage.
  apply (store_reaches_next_base _ (u256ToSubPointer id) _ _ (storage σ));
    try done; try apply length_u256ToSubPointer.
  rewrite !fromBytesBE_u256ToSubPointer.
  rewrite !N.mod_small by lia. done.
Qed.

Lemma storeDecryptionKey_overwrites_next_witness :
  ∃ σ',
    storeDecryptionKey (envAt alice 93) 1 (zeroBytes 32) twoKeysRun
    = Ok (true, σ')
    ∧ Blockchain_getStorageAt
        (encodePointer switchEncryptedKeyPointer (u256ToSubPointer (1 + 1)))
        (storage σ')
      = slotBytes (zeroBytes 32) 0
    ∧ loadMultiSlotBytes switchEncryptedKeyPointer (u256ToSubPointer 2)
        (storage twoKeysRun) = Ok (map u8 [1; 2; 3])
    ∧ loadMultiSlotBytes switchEncryptedKeyPointer (u256ToSubPointer 2)
        (storage σ') = Ok [].
Proof.
  destruct (storeDecryptionKey (envAt alice 93) 1 (zeroBytes 32) twoKeysRun)
    as [[ok σ']|] eqn:Hop; [|by vm_compute in Hop].
  assert (ok = true) as -> by (vm_compute in Hop; congruence).
  exists σ'. split; [done|].
  split.
  - apply (storeDecryptionKey_overwrites_next _ _ _ _ _ Hop);
      by vm_compute.
  - vm_compute in Hop. apply Ok_inj in Hop. apply pair_eq in Hop.
    destruct Hop as [_ <-]. split; by vm_compute.
Defined.

(** ** The compound sub-pointer as a number *)

Lemma toBytesBE_lookup (n j : nat) (v : N) :
  (j < n)%nat →
  toBytesBE n v !! j = Some (u8 (v / 256 ^ N.of_nat (n - 1 - j))).
Proof.
  revert v j. induction n as [|n IH]; intros v j Hj; [lia|].
  cbn [toBytesBE]. destruct (decide (j < n)%nat) as [Hlt|Hge].
  - rewrite lookup_app_l by (rewrite length_toBytesBE; lia).
    rewrite IH by done. f_equal. f_equal.
    rewrite N.Div0.div_div.
    replace (N.of_nat (S n - 1 - j)) with (N.succ (N.of_nat (n - 1 - j)))
      by lia.
    by rewrite N.pow_succ_r'.
  - assert (j = n) as -> by lia.
    rewrite lookup_app_r by (rewrite length_toBytesBE; lia).
    rewrite length_toBytesBE, Nat.sub_diag.
    replace (S n - 1 - n)%nat with 0%nat by lia.
    change (256 ^ N.of_nat 0) with 1. by rewrite N.div_1_r.
Qed.

Lemma u8_mod (x : N) : u8 (x mod 256) = u8 x.
Proof. unfold u8. by rewrite N.Div0.mod_mod. Qed.

Lemma lxor_mod256 (x y : N) :
  N.lxor (x mod 256) (y mod 256) = N.lxor x y mod 256.
Proof.
  rewrite <- !land_255. apply N.bits_inj. intros n.
  rewrite N.land_spec, !N.lxor_spec, !N.land_spec.
  by destruct (N.testbit 255 n);
    rewrite ?andb_true_r, ?andb_false_r.
Qed.

Lemma lxor_div256 (x y : N) (m : nat) :
  N.lxor (x / 256 ^ N.of_nat m) (y / 256 ^ N.of_nat m)
  = N.lxor x y / 256 ^ N.of_nat m.
Proof.
  change 256 with (2 ^ 8). rewrite <- N.pow_mul_r.
  rewrite <- !N.shiftr_div_pow2. by rewrite N.shiftr_lxor.
Qed.

Lemma xorLoop_toBytesBE (x y : N) :
  xorLoop 30 0 (zeroBytes 30) (toBytesBE 30 x) (toBytesBE 30 y)
  = toBytesBE 30 (N.lxor x y).
Proof.
  apply list_eq. intros j.
  rewrite xorLoop_lookup by (rewrite length_zeroBytes; lia).
  case_decide as Hj.
  - rewrite toBytesBE_lookup by lia.
    assert (j < 30)%nat as Hj' by lia.
    rewrite (list_lookup_total_correct (toBytesBE 30 x) j _
               (toBytesBE_lookup 30 j x Hj')).
    rewrite (list_lookup_total_correct (toBytesBE 30 y) j _
               (toBytesBE_lookup 30 j y Hj')).
    rewrite !b2n_u8, lxor_mod256, u8_mod. by rewrite lxor_div256.
  - rewrite !lookup_ge_None_2;
      rewrite ?length_zeroBytes, ?length_toBytesBE; [done|lia..].
Qed.

Lemma compoundSubPointer_lxor (a b : N) :
  compoundSubPointer a b = u256ToSubPointer (N.lxor a b).
Proof.
  unfold compoundSubPointer. rewrite !u256ToSubPointer_low.
  apply xorLoop_toBytesBE.
Qed.

Lemma addressToSubPointer_toBytesBE (addr : list byte) :
  length addr = 32%nat →
  addressToSubPointer addr = toBytesBE 30 (fromBytesBE addr).
Proof.
  intros Hl. rewrite addressToSubPointer_low by done.
  rewrite <- (toBytesBE_fromBytesBE addr) at 1. rewrite Hl.
  change 32%nat with (2 + 30)%nat. rewrite toBytesBE_split.
  rewrite drop_app_length'; [done|by rewrite length_toBytesBE].
Qed.

Lemma addressIndexSubPointer_lxor (addr : list byte) (i : N) :
  length addr = 32%nat →
  addressIndexSubPointer addr i
  = u256ToSubPointer (N.lxor (fromBytesBE addr) i).
Proof.
  intros Hl. unfold addressIndexSubPointer.
  rewrite (addressToSubPointer_toBytesBE addr Hl).
  rewrite (u256ToSubPointer_low i),
    (u256ToSubPointer_low (N.lxor (fromBytesBE addr) i)).
  apply xorLoop_toBytesBE.
Qed.

(** The compound sub-pointer of two numbers is the sub-pointer of
    their bitwise XOR, and that of an address and an index is the
    sub-pointer of the XOR of the address, read as a number, with the
    index.  Two pairs therefore share a sub-pointer exactly when their
    XORs agree in the 240 low-order bits. *)
Theorem subPointer_is_xor (a b c d : N) (addr addr' : list byte) (i j : N) :
  compoundSubPointer a b = u256ToSubPointer (N.lxor a b)
  ∧ (compoundSubPointer a b = compoundSubPointer c d
     ↔ sameSub (N.lxor a b) (N.lxor c d))
  ∧ (length addr = 32%nat → length addr' = 32%nat →
     addressIndexSubPointer addr i = addressIndexSubPointer addr' j
     ↔ sameSub (N.lxor (fromBytesBE addr) i) (N.lxor (fromBytesBE addr') j)).
Proof.
  split; [apply compoundSubPointer_lxor|]. split.
  - rewrite !compoundSubPointer_lxor. apply u256ToSubPointer_sameSub.
  - intros Hl Hl'. rewrite !addressIndexSubPointer_lxor by done.
    apply u256ToSubPointer_sameSub.
Qed.

Lemma subPointer_is_xor_witness :
  addressIndexSubPointer alice 19 = addressIndexSubPointer bob 0.
Proof.
  destruct (subPointer_is_xor 0 0 0 0 alice bob 19 0) as (_ & _ & H).
  apply H; by vm_compute.
Defined.

(** ** Neighbouring chunks *)

Lemma lxor_range (k x y : N) : x < 2 ^ k → y < 2 ^ k → N.lxor x y < 2 ^ k.
Proof.
  intros Hx Hy.
  destruct (N.eq_dec (N.lxor x y) 0) as [->|Hnz].
  { apply N.neq_0_lt_0, N.pow_nonzero. lia. }
  apply N.log2_lt_pow2; [lia|].
  pose proof (N.log2_lxor x y) as Hl.
  assert (∀ z, z ≠ 0 → z < 2 ^ k → N.log2 z < k) as Hlog.
  { intros z Hz Hlt. apply N.log2_lt_pow2; [lia|done]. }
  destruct (N.eq_dec x 0) as [->|Hx0].
  { rewrite N.lxor_0_l in *. by apply Hlog. }
  destruct (N.eq_dec y 0) as [->|Hy0].
  { rewrite N.lxor_0_r in *. by apply Hlog. }
  pose proof (Hlog x Hx0 Hx). pose proof (Hlog y Hy0 Hy). lia.
Qed.

Lemma lxor_1_even (x : N) : N.even x = true → N.lxor x 1 = x + 1.
Proof. destruct x as [|[p|p|]]; cbn; (discriminate || reflexivity). Qed.

Lemma lxor_1_odd (x : N) : N.even x = false → N.lxor x 1 + 1 = x.
Proof. destruct x as [|[p|p|]]; cbn; (discriminate || reflexivity). Qed.

Lemma even_lxor (a b : N) :
  N.even b = true → N.even (N.lxor a b) = N.even a.
Proof.
  intros Hb. rewrite <- !N.negb_odd in *. rewrite <- !N.bit0_odd in *.
  rewrite N.lxor_spec. destruct (N.testbit b 0); [done|].
  by rewrite xorb_false_r.
Qed.

Lemma compound_key_value (id idx : N) :
  id < 2 ^ 240 → idx < 2 ^ 240 →
  encodePointer switchDataChunksPointer (compoundSubPointer id idx)
  = switchDataChunksPointer * 2 ^ 248 + N.lxor id idx.
Proof.
  intros Hid Hidx. rewrite encodePointer_small by done.
  rewrite compoundSubPointer_lxor, fromBytesBE_u256ToSubPointer.
  rewrite N.mod_small by (by apply lxor_range). done.
Qed.

Lemma fromBytesBE_compound (id idx : N) :
  id < 2 ^ 240 → idx < 2 ^ 240 →
  fromBytesBE (compoundSubPointer id idx) = N.lxor id idx.
Proof.
  intros Hid Hidx.
  rewrite compoundSubPointer_lxor, fromBytesBE_u256ToSubPointer.
  apply N.mod_small. by apply lxor_range.
Qed.

(** Of two consecutive chunk indices [2k] and [2k+1] of one switch the
    storage keys are consecutive numbers: the chunk with the smaller
    key has its second slot where the other chunk has its first. *)
Theorem consecutive_chunks_adjacent (id idx : N) :
  id < 2 ^ 240 → idx + 1 < 2 ^ 240 → N.even idx = true →
  let k0 := encodePointer switchDataChunksPointer
              (compoundSubPointer id idx) in
  let k1 := encodePointer switchDataChunksPointer
              (compoundSubPointer id (idx + 1)) in
  if N.even id then bigEndianAdd k0 1 = k1 else bigEndianAdd k1 1 = k0.
Proof.
  intros Hid Hidx Hev k0 k1. subst k0 k1.
  rewrite !bigEndianAdd_small
    by (done || apply length_compoundSubPointer).
  rewrite !compound_key_value by (done || lia).
  rewrite !fromBytesBE_compound by (done || lia).
  rewrite <- (lxor_1_even idx Hev), <- N.lxor_assoc.
  pose proof (even_lxor id idx Hev) as Hv.
  destruct (N.even id).
  - rewrite (lxor_1_even _ Hv). lia.
  - pose proof (lxor_1_odd _ Hv). lia.
Qed.

Lemma consecutive_chunks_adjacent_witness :
  bigEndianAdd
    (encodePointer switchDataChunksPointer (compoundSubPointer 1 (0 + 1))) 1
  = encodePointer switchDataChunksPointer (compoundSubPointer 1 0).
Proof.
  apply (consecutive_chunks_adjacent 1 0); by vm_compute.
Defined.

(** A chunk longer than 28 bytes whose storage key is even runs into
    the chunk of the neighbouring index: after [storeData] the first
    slot of that neighbour, its length header and first 28 bytes,
    holds bytes 28 to 59 of the chunk just stored. *)
Theorem storeData_overwrites_neighbour (env : Env) (id idx : N)
    (d : list byte) (σ σ' : State) :
  storeData env id idx d σ = Ok (true, σ') →
  28 < N.of_nat (length d) → N.of_nat (length d) ≤ 8188 →
  id < 2 ^ 240 → idx < 2 ^ 240 →
  N.even (N.lxor id idx) = true →
  Blockchain_getStorageAt
    (encodePointer switchDataChunksPointer
       (compoundSubPointer id (N.lxor idx 1)))
    (storage σ')
  = slotBytes d 0.
Proof.
  intros Hop Hlong Hcap Hid Hidx Hev.
  apply storeData_inv in Hop.
  destruct Hop as (_ & _ & _ & _ & st1 & Hst & Heq).
  apply pair_eq in Heq. destruct Heq as [_ Hσ]. subst σ'.
  rewrite storage_emitEvent.
  set (st' := if loadSwitchChunkCount id st1 <? idx + 1
              then storeSwitchChunkCount id (idx + 1) st1 else st1).
  assert (unchanged_ns switchDataChunksPointer st1 st') as Hns.
  { subst st'. destruct (_ <? _); [solve_unchanged|apply unchanged_ns_refl]. }
  rewrite (getStorageAt_unchanged switchDataChunksPointer _ st1 st');
    [|exact Hns
     |apply ns_encodePointer; [done|apply length_compoundSubPointer]].
  assert (N.lxor idx 1 < 2 ^ 240) as Hp by (by apply lxor_range).
  apply (store_reaches_next_base _ (compoundSubPointer id idx) _ _
           (storage σ)); try done; try apply length_compoundSubPointer.
  rewrite !fromBytesBE_compound by done.
  rewrite <- N.lxor_assoc. by apply lxor_1_even.
Qed.

Lemma storeData_overwrites_neighbour_witness :
  ∃ σ',
    storeData (envAt alice 102) 1 1 (zeroBytes 32) chunkZeroState
    = Ok (true, σ')
    ∧ Blockchain_getStorageAt
        (encodePointer switchDataChunksPointer
           (compoundSubPointer 1 (N.lxor 1 1)))
        (storage σ')
      = slotBytes (zeroBytes 32) 0
    ∧ getData 1 0 chunkZeroState = Ok (map u8 [97; 98; 99])
    ∧ getData 1 0 σ' = Ok [].
Proof.
  destruct (storeData (envAt alice 102) 1 1 (zeroBytes 32) chunkZeroState)
    as [[ok σ']|] eqn:Hop; [|by vm_compute in Hop].
  assert (ok = true) as -> by (vm_compute in Hop; congruence).
  exists σ'. split; [done|].
  split.
  - apply (storeData_overwrites_neighbour _ _ _ _ _ _ Hop);
      by vm_compute.
  - vm_compute in Hop. apply Ok_inj in Hop. apply pair_eq in Hop.
    destruct Hop as [_ <-]. split; by vm_compute.
Defined.

(** ** Along a run *)

Lemma step_nextSwitchId_count (s : State) (ec : Env * Call) :
  nextSwitchId_value (storage (step s ec))
  = nextSwitchId_value (storage s) + createdBy s ec.
Proof.
  unfold createdBy.
  destruct (step_cases s ec) as [[r Hexec]|[[msg Hrev] ->]].
  - rewrite Hexec. apply exec_effect in Hexec. cbv zeta in Hexec.
    destruct ec.2.
    + by destruct Hexec as (_ & -> & _).
    + destruct Hexec as (-> & _). lia.
    + destruct Hexec as (_ & _ & -> & _). lia.
    + destruct Hexec as (-> & _). lia.
    + destruct Hexec as (_ & _ & _ & -> & _). lia.
    + destruct Hexec as (_ & _ & -> & _). lia.
    + destruct Hexec as (-> & _). lia.
    + destruct Hexec as (-> & _). lia.
    + destruct Hexec as (-> & _). lia.
    + destruct Hexec as (-> & _). lia.
    + destruct Hexec as (-> & _). lia.
    + destruct Hexec as (-> & _). lia.
    + destruct Hexec as (-> & _). lia.
    + destruct Hexec as (-> & _). lia.
  - rewrite Hrev. destruct ec.2; lia.
Qed.

Lemma run_nextSwitchId_count (calls : list (Env * Call)) (s : State) :
  nextSwitchId_value (storage (run calls s))
  = nextSwitchId_value (storage s) + successfulCreates calls s.
Proof.
  revert s. induction calls as [|ec calls IH]; intros s.
  - cbn [run fold_left successfulCreates]. lia.
  - rewrite run_cons, IH, step_nextSwitchId_count.
    cbn [successfulCreates]. lia.
Qed.

Lemma nextSwitchId_deployed : nextSwitchId_value (storage deployed) = 1.
Proof. unfold deployed, onDeployment. rewrite storage_withStorage.
  by rewrite nextSwitchId_set_value. Qed.

(** On a deployed contract the identifier counter is one more than
    the number of [createSwitch] calls that have returned,
    [getSwitchCount] returns that number [n], and the identifiers that
    exist are exactly 1 .. [n]. *)
Theorem switch_count_law (calls : list (Env * Call)) :
  let σ := run calls deployed in
  let n := successfulCreates calls deployed in
  nextSwitchId_value (storage σ) = 1 + n
  ∧ getSwitchCount σ = Ok n
  ∧ ∀ id, switchExists id (storage σ) ↔ 1 ≤ id ∧ id ≤ n.
Proof.
  intros σ n. subst σ n.
  pose proof (run_nextSwitchId_count calls deployed) as Hn.
  rewrite nextSwitchId_deployed in Hn.
  split; [exact Hn|]. split.
  - unfold getSwitchCount. rewrite Hn. unfold SafeMath_sub.
    destruct (N.ltb_spec (1 + successfulCreates calls deployed) 1); [lia|].
    f_equal. lia.
  - intros id. unfold switchExists. rewrite Hn. lia.
Qed.

Lemma getAddress_setAddress_other (p id id' : N) (a : list byte)
    (st : gmap N N) :
  p < 256 → ¬ sameSub id id' →
  getAddressForSwitch p id (setAddressForSwitch p id' a st)
  = getAddressForSwitch p id st.
Proof.
  intros Hp Hne. unfold getAddressForSwitch, setAddressForSwitch.
  apply getStorageAt_set_ne. fold (switchKey p id). fold (switchKey p id').
  intros Heq. apply Hne. by apply (switchKey_inj p).
Qed.

Lemma createSwitch_keeps_others (env : Env) (b : list byte) (i g : N)
    (σ : State) (p : N * State) :
  createSwitch env b i g σ = Ok p →
  ∀ id', ¬ sameSub id' (nextSwitchId_value (storage σ)) →
         loadSwitchOwner id' (storage p.2) = loadSwitchOwner id' (storage σ)
         ∧ loadSwitchGracePeriod id' (storage p.2)
           = loadSwitchGracePeriod id' (storage σ).
Proof.
  intros Hop id' Hne. apply createSwitch_inv in Hop. cbv zeta in Hop.
  destruct Hop as (_ & _ & _ & _ & ->). cbn [snd].
  rewrite storage_emitEvent.
  set (id := nextSwitchId_value (storage σ)) in *. split.
  - unfold loadSwitchOwner.
    eapply eq_trans;
      [apply (getAddress_unchanged _ _
                (storeSwitchOwner id (tx_sender env) (storage σ)));
         [done|solve_unchanged]|].
    by apply getAddress_setAddress_other.
  - unfold loadSwitchGracePeriod.
    eapply eq_trans;
      [apply (getU256_unchanged _ _
                (storeSwitchGracePeriod id g
                   (storeSwitchInterval id i
                      (storeSwitchBeneficiary id b
                         (storeSwitchOwner id (tx_sender env) (storage σ))))));
         [done|solve_unchanged]|].
    unfold storeSwitchGracePeriod at 1.
    rewrite getU256_setU256_other by done.
    apply getU256_unchanged; [done|]. solve_unchanged.
Qed.

Lemma exec_keeps_owner_grace (env : Env) (c : Call) (σ : State) (r : RetVal)
    (σ' : State) (p : N) :
  exec env c σ = Ok (r, σ') →
  p = switchOwnerPointer ∨ p = switchGracePeriodPointer →
  match c with
  | CreateSwitch _ _ _ => True
  | _ => unchanged_ns p (storage σ) (storage σ')
  end.
Proof.
  intros Hexec Hp. apply exec_Ok_inv in Hexec.
  destruct c; try done; try (subst σ'; apply unchanged_ns_refl);
    destruct Hexec as (q & Hop & ->).
  - apply checkin_inv in Hop. destruct Hop as (_ & _ & _ & ->). cbn [snd].
    rewrite storage_emitEvent. destruct Hp as [-> | ->]; solve_unchanged.
  - apply storeData_inv in Hop.
    destruct Hop as (_ & _ & _ & _ & st1 & Hst & ->). cbn [snd].
    rewrite storage_emitEvent.
    assert (unchanged_ns p (storage σ) st1) as Hns.
    { apply (storeMultiSlotBytes_unchanged_ns _ _ _ _ _ _ Hst);
        [done|apply length_compoundSubPointer|by destruct Hp as [-> | ->]]. }
    destruct (_ <? _); [|done].
    eapply unchanged_ns_trans; [exact Hns|].
    destruct Hp as [-> | ->]; solve_unchanged.
  - apply storeDecryptionKey_inv in Hop.
    destruct Hop as (_ & st1 & Hst & ->). cbn [snd].
    rewrite storage_withStorage.
    apply (storeMultiSlotBytes_unchanged_ns _ _ _ _ _ _ Hst);
      [done|apply length_u256ToSubPointer|by destruct Hp as [-> | ->]].
  - apply trigger_inv in Hop. cbv zeta in Hop.
    destruct Hop as (_ & _ & _ & _ & ->). cbn [snd].
    rewrite storage_emitEvent. destruct Hp as [-> | ->]; solve_unchanged.
  - apply cancel_inv in Hop. cbv zeta in Hop.
    destruct Hop as (_ & _ & _ & _ & _ & ->). cbn [snd].
    rewrite storage_emitEvent. destruct Hp as [-> | ->]; solve_unchanged.
  - apply updateBeneficiary_inv in Hop. destruct Hop as (_ & ->). cbn [snd].
    rewrite storage_emitEvent. destruct Hp as [-> | ->]; solve_unchanged.
  - apply updateInterval_inv in Hop. destruct Hop as (_ & ->). cbn [snd].
    rewrite storage_withStorage. destruct Hp as [-> | ->]; solve_unchanged.
Qed.

Lemma step_keeps_owner_grace (s : State) (ec : Env * Call) (id : N) :
  id < nextSwitchId_value (storage s) →
  nextSwitchId_value (storage (step s ec)) ≤ 2 ^ 240 →
  loadSwitchOwner id (storage (step s ec)) = loadSwitchOwner id (storage s)
  ∧ loadSwitchGracePeriod id (storage (step s ec))
    = loadSwitchGracePeriod id (storage s).
Proof.
  intros Hid Hbound.
  destruct (step_cases s ec) as [[r Hexec]|[_ ->]]; [|done].
  pose proof (exec_keeps_owner_grace _ _ _ _ _ switchOwnerPointer Hexec
                (or_introl eq_refl)) as H1.
  pose proof (exec_keeps_owner_grace _ _ _ _ _ switchGracePeriodPointer Hexec
                (or_intror eq_refl)) as H4.
  assert (∀ b i g, ec.2 = CreateSwitch b i g →
            loadSwitchOwner id (storage (step s ec))
            = loadSwitchOwner id (storage s)
            ∧ loadSwitchGracePeriod id (storage (step s ec))
              = loadSwitchGracePeriod id (storage s)) as Hcreate.
  { intros b i g Hc. rewrite Hc in Hexec.
    pose proof (exec_effect _ _ _ _ _ Hexec) as He. cbv zeta in He.
    destruct He as (_ & Hn & _).
    apply exec_Ok_inv in Hexec.
    destruct Hexec as (q & Hop & Hq). rewrite Hq.
    apply (createSwitch_keeps_others _ _ _ _ _ _ Hop).
    intros Hsame. apply sameSub_small in Hsame; lia. }
  destruct ec.2 eqn:Hc; try (by eapply Hcreate);
    (split;
     [unfold loadSwitchOwner; by apply getAddress_unchanged
     |unfold loadSwitchGracePeriod; by apply getU256_unchanged]).
Qed.

(** Nothing changes the owner or the grace period of a switch once it
    exists: whatever calls follow, by whomever, both read as they did,
    as long as fewer than 2^240 switches have been created. *)
Theorem owner_and_grace_fixed (calls : list (Env * Call)) (s : State)
    (id : N) :
  id < nextSwitchId_value (storage s) →
  nextSwitchId_value (storage (run calls s)) ≤ 2 ^ 240 →
  loadSwitchOwner id (storage (run calls s)) = loadSwitchOwner id (storage s)
  ∧ loadSwitchGracePeriod id (storage (run calls s))
    = loadSwitchGracePeriod id (storage s).
Proof.
  revert s. induction calls as [|ec calls IH]; intros s Hid Hbound; [done|].
  rewrite run_cons in *.
  pose proof (step_nextSwitchId_mono s ec) as Hmono.
  pose proof (run_nextSwitchId_mono calls (step s ec)) as Hmono'.
  destruct (IH (step s ec)) as [Ho Hg]; [lia|done|].
  destruct (step_keeps_owner_grace s ec id) as [Ho' Hg']; [done|lia|].
  split; congruence.
Qed.

Lemma owner_and_grace_fixed_witness :
  loadSwitchOwner 1 (storage (run lifeCalls createdState)) = alice
  ∧ loadSwitchGracePeriod 1 (storage (run lifeCalls createdState)) = 5.
Proof.
  assert (1 < nextSwitchId_value (storage createdState)) as Hid
    by (by vm_compute).
  assert (nextSwitchId_value (storage (run lifeCalls createdState))
          ≤ 2 ^ 240) as Hb by (by vm_compute).
  destruct (owner_and_grace_fixed lifeCalls createdState 1 Hid Hb)
    as [Ho Hg].
  split.
  - rewrite Ho. by vm_compute.
  - rewrite Hg. by vm_compute.
Defined.

(** ** The client's chunking *)

Lemma splitLoop_spec (cs : N) (data : list byte) :
  0 < cs →
  ∀ (fuel : nat) (off : N) (acc : list (list byte)),
    N.of_nat (length data) ≤ off + N.of_nat fuel * cs →
    ∃ new,
      splitLoop fuel data cs off acc = acc ++ new
      ∧ concat new = drop (N.to_nat off) data
      ∧ Forall (λ c, 0 < N.of_nat (length c) ∧ N.of_nat (length c) ≤ cs) new.
Proof.
  intros Hcs fuel.
  induction fuel as [|fuel IH]; intros off acc Hfuel; cbn [splitLoop];
    destruct (N.ltb_spec off (N.of_nat (length data))) as [Hlt|Hge];
    try lia.
  - exists []. rewrite app_nil_r. split; [done|]. split; [|done].
    rewrite drop_ge by lia. done.
  - destruct (IH (off + cs)
                (acc ++ [slice data off
                           (N.min (off + cs) (N.of_nat (length data)))]))
      as (new & Hrun & Hcat & Hall); [lia|].
    exists (slice data off (N.min (off + cs) (N.of_nat (length data)))
              :: new).
    split; [by rewrite Hrun, <- app_assoc|].
    assert (slice data off (N.min (off + cs) (N.of_nat (length data)))
            = take (N.to_nat cs) (drop (N.to_nat off) data)) as Hslice.
    { unfold slice.
      destruct (N.le_ge_cases (off + cs) (N.of_nat (length data))) as [H|H].
      - rewrite N.min_l by done. f_equal. lia.
      - rewrite N.min_r by done.
        rewrite !take_ge; [done|rewrite length_drop; lia..]. }
    split.
    + cbn [concat]. rewrite Hcat, Hslice.
      replace (N.to_nat (off + cs)) with (N.to_nat off + N.to_nat cs)%nat
        by lia.
      rewrite <- drop_drop. apply take_drop.
    + constructor; [|done]. rewrite Hslice.
      rewrite length_take, length_drop. lia.
  - exists []. rewrite app_nil_r. split; [done|]. split; [|done].
    rewrite drop_ge by lia. done.
Qed.

Lemma splitIntoChunks_spec (data : list byte) :
  concat (splitIntoChunks data) = data
  ∧ Forall (λ c, 0 < N.of_nat (length c)
                 ∧ N.of_nat (length c) ≤ MAX_CHUNK_SIZE)
      (splitIntoChunks data).
Proof.
  unfold splitIntoChunks. cbv zeta.
  destruct (splitLoop_spec MAX_CHUNK_SIZE data eq_refl (length data) 0 [])
    as (new & Hrun & Hcat & Hall).
  { unfold MAX_CHUNK_SIZE. lia. }
  rewrite Hrun. cbn [app]. split; [|done].
  rewrite Hcat. change (N.to_nat 0) with 0%nat. apply drop_0.
Qed.

Lemma set_at_end (a z c : list byte) :
  (length c ≤ length z)%nat →
  copyLoop (length c) 0 (a ++ z) c (length a) 0
  = (a ++ c) ++ drop (length c) z.
Proof.
  intros Hlen.
  rewrite copyLoop_spec by (rewrite ?length_app; lia).
  rewrite !Nat.add_0_r, drop_0, firstn_all.
  rewrite take_app_length, drop_app_add', <- app_assoc; done.
Qed.

Lemma reassembleLoop_spec (chunks : list (list byte)) :
  ∀ (a z : list byte),
    (length (concat chunks) ≤ length z)%nat →
    reassembleLoop chunks (a ++ z) (length a)
    = a ++ concat chunks ++ drop (length (concat chunks)) z.
Proof.
  induction chunks as [|c chunks IH]; intros a z Hlen;
    cbn [reassembleLoop concat] in *.
  - done.
  - rewrite length_app in Hlen. rewrite set_at_end by lia.
    rewrite <- length_app. rewrite IH by (rewrite length_drop; lia).
    rewrite drop_drop, length_app, <- !app_assoc. done.
Qed.

Lemma totalLength_concat (chunks : list (list byte)) (n : nat) :
  fold_left (λ sum chunk, (sum + length chunk)%nat) chunks n
  = (n + length (concat chunks))%nat.
Proof.
  revert n. induction chunks as [|c chunks IH]; intros n;
    cbn [fold_left concat]; [cbn; lia|].
  rewrite IH, length_app. lia.
Qed.

Lemma reassembleChunks_concat (chunks : list (list byte)) :
  reassembleChunks chunks = concat chunks.
Proof.
  unfold reassembleChunks. cbv zeta. rewrite totalLength_concat.
  rewrite Nat.add_0_l.
  pose proof (reassembleLoop_spec chunks []
                (zeroBytes (length (concat chunks)))) as H.
  cbn [app length] in H. rewrite H by (by rewrite length_zeroBytes).
  rewrite drop_ge by (by rewrite length_zeroBytes).
  apply app_nil_r.
Qed.

(** A payload split by [splitIntoChunks] and put together again by
    [reassembleChunks] is the payload; every chunk is non-empty and at
    most [MAX_CHUNK_SIZE] bytes long, which the contract's byte store
    accepts whatever the storage holds. *)
Theorem split_then_reassemble (data : list byte) :
  reassembleChunks (splitIntoChunks data) = data
  ∧ Forall (λ c, c ≠ []
                 ∧ N.of_nat (length c) ≤ MAX_CHUNK_SIZE
                 ∧ ∀ p s st, succeeds (storeMultiSlotBytes p s c st))
      (splitIntoChunks data).
Proof.
  destruct (splitIntoChunks_spec data) as [Hcat Hall].
  split; [by rewrite reassembleChunks_concat|].
  eapply Forall_impl; [exact Hall|].
  intros c [Hpos Hle]. cbv beta in *. unfold MAX_CHUNK_SIZE in Hle.
  split; [by destruct c|]. split; [done|].
  intros p s st.
  destruct (storeMultiSlotBytes_fits p s c st) as (st' & Hrun & _); [lia|].
  by exists st'.
Qed.

(** ** The status shown by the client *)

Lemma getU256_empty (p id : N) : getU256ForSwitch p id ∅ = 0.
Proof.
  rewrite getU256ForSwitch_read.
  unfold readU256, u256_fromUint8ArrayBE, Blockchain_getStorageAt.
  rewrite lookup_empty. change (default 0 None) with 0.
  by rewrite fromBytesBE_toBytesBE.
Qed.

Lemma status_deployed (id : N) :
  loadSwitchStatus id (storage deployed) = STATUS_ACTIVE.
Proof.
  unfold deployed, onDeployment. rewrite storage_withStorage.
  unfold loadSwitchStatus.
  rewrite (getU256_unchanged switchStatusPointer id ∅)
    by (done || solve_unchanged).
  apply getU256_empty.
Qed.

(** The status that [getSwitch] reports on a deployed contract always
    decodes to ACTIVE or TRIGGERED, and the decoded member has the
    reported number as its value: the client never shows a switch as
    CANCELLED. *)
Theorem displayed_status_never_cancelled (calls : list (Env * Call))
    (id : N) (info : SwitchInfo) :
  getSwitch id (run calls deployed) = Ok info →
  parseStatus (Z.of_N (info_status info)) ≠ CANCELLED
  ∧ SwitchStatus_value (parseStatus (Z.of_N (info_status info)))
    = Z.of_N (info_status info).
Proof.
  unfold getSwitch.
  guard_exists id (storage (run calls deployed)); [|discriminate].
  intros Hget. apply Ok_inj in Hget. subst info. cbn [info_status].
  destruct (run_status_set id calls deployed) as [-> | ->];
    [left; apply status_deployed|by vm_compute..].
Qed.

Lemma displayed_status_never_cancelled_witness :
  ∃ info,
    getSwitch 1 (run ((envAt alice 90, CreateSwitch bob 10 5) :: lifeCalls)
                   deployed) = Ok info
    ∧ parseStatus (Z.of_N (info_status info)) ≠ CANCELLED.
Proof.
  destruct (getSwitch 1
              (run ((envAt alice 90, CreateSwitch bob 10 5) :: lifeCalls)
                 deployed)) as [info|] eqn:Hget; [|by vm_compute in Hget].
  exists info. split; [done|].
  exact (proj1 (displayed_status_never_cancelled _ _ _ Hget)).
Defined.

(** ** Events and updates *)

Lemma events_emitEvent (e : NetEvent) (st : gmap N N) (s : State) :
  events (emitEvent e st s) = events s ++ [e].
Proof. done. Qed.

Lemma events_withStorage (st : gmap N N) (s : State) :
  events (withStorage st s) = events s.
Proof. done. Qed.

(** A call that returns appends to the event log exactly the events
    of [eventsOf]: one event for [createSwitch], [checkin],
    [storeData], [trigger], [cancel] and [updateBeneficiary], with the
    identifier, addresses and block of the call, and nothing for
    [storeDecryptionKey], [updateInterval] and the reads. *)
Theorem events_of_call (env : Env) (c : Call) (σ : State) (r : RetVal)
    (σ' : State) :
  exec env c σ = Ok (r, σ') →
  events σ' = events σ ++ eventsOf env c σ.
Proof.
  intros Hexec. apply exec_Ok_inv in Hexec.
  destruct c; cbn [eventsOf];
    try (subst σ'; by rewrite app_nil_r);
    destruct Hexec as (q & Hop & ->).
  - apply createSwitch_inv in Hop. cbv zeta in Hop.
    destruct Hop as (_ & _ & _ & _ & ->). cbn [snd].
    by rewrite events_emitEvent.
  - apply checkin_inv in Hop. destruct Hop as (_ & _ & _ & ->). cbn [snd].
    by rewrite events_emitEvent.
  - apply storeData_inv in Hop.
    destruct Hop as (_ & _ & _ & _ & st1 & _ & ->). cbn [snd].
    by rewrite events_emitEvent.
  - apply storeDecryptionKey_inv in Hop.
    destruct Hop as (_ & st1 & _ & ->). cbn [snd].
    by rewrite events_withStorage, app_nil_r.
  - apply trigger_inv in Hop. cbv zeta in Hop.
    destruct Hop as (_ & _ & _ & _ & ->). cbn [snd].
    rewrite events_emitEvent. do 3 f_equal.
    unfold loadSwitchBeneficiary. apply getAddress_unchanged; [done|].
    solve_unchanged.
  - apply cancel_inv in Hop. cbv zeta in Hop.
    destruct Hop as (_ & _ & _ & _ & _ & ->). cbn [snd].
    by rewrite events_emitEvent.
  - apply updateBeneficiary_inv in Hop. destruct Hop as (_ & ->). cbn [snd].
    by rewrite events_emitEvent.
  - apply updateInterval_inv in Hop. destruct Hop as (_ & ->). cbn [snd].
    by rewrite events_withStorage, app_nil_r.
Qed.

Lemma events_of_call_witness :
  events (run lifeCalls createdState)
  = [SwitchCreatedEvent 1 alice bob; CheckedInEvent 1 100;
     DataStoredEvent 1 0; DataStoredEvent 1 2;
     SwitchTriggeredEvent 1 bob 111; SwitchCancelledEvent 1 115].
Proof.
  set (σ4 := run (take 4 lifeCalls) createdState).
  destruct (exec (envAt alice 115) (Cancel 1) σ4) as [[r σ']|] eqn:Hexec;
    [|by vm_compute in Hexec].
  pose proof (events_of_call _ _ _ _ _ Hexec) as Hev.
  assert (run lifeCalls createdState = σ').
  { change lifeCalls
      with (take 4 lifeCalls ++ [(envAt alice 115, Cancel 1)]).
    rewrite run_app. fold σ4. unfold run, fold_left, step. cbn [fst snd].
    by rewrite Hexec. }
  subst σ'. rewrite Hev. by vm_compute.
Defined.

(** A new interval takes effect from the last check-in on:
    [updateInterval] stores the interval and leaves the last check-in
    where it was, so the deadline becomes last check-in plus the new
    interval. *)
Theorem updateInterval_keeps_clock (env : Env) (id i : N) (σ σ' : State) :
  updateInterval env id i σ = Ok (true, σ') →
  i < 2 ^ 256 →
  let lastCheck := loadSwitchLastCheckin id (storage σ) in
  loadSwitchInterval id (storage σ') = i
  ∧ loadSwitchLastCheckin id (storage σ') = lastCheck
  ∧ ∀ env', lastCheck + i < 2 ^ 256 →
            isExpired env' id σ' = Ok (lastCheck + i <? block_numberU256 env').
Proof.
  intros Hop Hi lastCheck. subst lastCheck.
  apply updateInterval_inv in Hop. destruct Hop as (Hex & Heq).
  apply pair_eq in Heq. destruct Heq as [_ Hσ]. subst σ'.
  rewrite storage_withStorage.
  assert (loadSwitchInterval id (storeSwitchInterval id i (storage σ)) = i)
    as Hiv.
  { unfold loadSwitchInterval, storeSwitchInterval.
    rewrite getU256_setU256_same. by apply mod_u256_small. }
  assert (loadSwitchLastCheckin id (storeSwitchInterval id i (storage σ))
          = loadSwitchLastCheckin id (storage σ)) as Hlc.
  { unfold loadSwitchLastCheckin. apply getU256_unchanged; [done|].
    solve_unchanged. }
  assert (nextSwitchId_value (storeSwitchInterval id i (storage σ))
          = nextSwitchId_value (storage σ)) as Hn.
  { apply nextSwitchId_unchanged. solve_unchanged. }
  split; [exact Hiv|]. split; [exact Hlc|].
  intros env' Hfit. rewrite isExpired_eq.
  - rewrite storage_withStorage, Hiv, Hlc.
    rewrite SafeMath_add_Ok by done. by rbind.
  - rewrite storage_withStorage. destruct Hex. split; [done|by rewrite Hn].
Qed.

Lemma updateInterval_keeps_clock_witness :
  ∃ σ',
    updateInterval (envAt alice 99) 1 2 createdState = Ok (true, σ')
    ∧ isExpired (envAt carol 99) 1 createdState = Ok false
    ∧ isExpired (envAt carol 99) 1 σ' = Ok true.
Proof.
  destruct (updateInterval (envAt alice 99) 1 2 createdState)
    as [[ok σ']|] eqn:Hop; [|by vm_compute in Hop].
  assert (ok = true) as -> by (vm_compute in Hop; congruence).
  exists σ'. split; [done|]. split; [by vm_compute|].
  destruct (updateInterval_keeps_clock _ _ _ _ _ Hop) as (_ & _ & H);
    [by vm_compute|].
  rewrite H by (by vm_compute). by vm_compute.
Defined.

(** The beneficiary named by a successful [updateBeneficiary] is the
    one the record holds afterwards and the one a later [trigger]
    announces in its event. *)
Theorem updateBeneficiary_then_trigger (env envT : Env) (id : N)
    (b : list byte) (σ σ1 σ2 : State) :
  updateBeneficiary env id b σ = Ok (true, σ1) →
  length b = 32%nat →
  trigger envT id σ1 = Ok (true, σ2) →
  loadSwitchBeneficiary id (storage σ1) = b
  ∧ last (events σ2)
    = Some (SwitchTriggeredEvent id b (block_numberU256 envT)).
Proof.
  intros Hop Hl Htr.
  apply updateBeneficiary_inv in Hop. destruct Hop as (_ & Heq).
  apply pair_eq in Heq. destruct Heq as [_ Hσ].
  assert (loadSwitchBeneficiary id (storage σ1) = b) as Hb.
  { rewrite Hσ, storage_emitEvent.
    unfold loadSwitchBeneficiary, storeSwitchBeneficiary.
    by apply getAddress_setAddress_same. }
  split; [exact Hb|].
  apply trigger_inv in Htr. cbv zeta in Htr.
  destruct Htr as (_ & _ & _ & _ & Heq).
  apply pair_eq in Heq. destruct Heq as [_ Hσ2].
  rewrite Hσ2, events_emitEvent, last_snoc. do 2 f_equal.
  rewrite <- Hb. unfold loadSwitchBeneficiary.
  apply getAddress_unchanged; [done|]. solve_unchanged.
Qed.

Lemma updateBeneficiary_then_trigger_witness :
  ∃ σ1 σ2,
    updateBeneficiary (envAt alice 95) 1 carol createdState = Ok (true, σ1)
    ∧ trigger (envAt bob 101) 1 σ1 = Ok (true, σ2)
    ∧ last (events σ2) = Some (SwitchTriggeredEvent 1 carol 101).
Proof.
  destruct (updateBeneficiary (envAt alice 95) 1 carol createdState)
    as [[ok σ1]|] eqn:Hop; [|by vm_compute in Hop].
  assert (ok = true) as -> by (vm_compute in Hop; congruence).
  destruct (trigger (envAt bob 101) 1 σ1) as [[ok σ2]|] eqn:Htr.
  - assert (ok = true) as ->.
    { apply trigger_inv in Htr. cbv zeta in Htr.
      destruct Htr as (_ & _ & _ & _ & Heq).
      apply pair_eq in Heq. by destruct Heq. }
    exists σ1, σ2. split; [done|]. split; [done|].
    apply (updateBeneficiary_then_trigger _ (envAt bob 101) _ _ _ σ1 σ2 Hop);
      [by vm_compute|done].
  - exfalso. vm_compute in Hop. apply Ok_inj in Hop.
    apply pair_eq in Hop. destruct Hop as [_ <-]. by vm_compute in Htr.
Defined.

(** ** What the detail page shows *)

(** The trigger card of the detail page is shown for a switch of a
    deployed contract exactly when a [trigger] made at the block of
    the two reads returns, and the "cancelled" alert never is. *)
Theorem trigger_card_iff_trigger (calls : list (Env * Call)) (env : Env)
    (id : N) (info : SwitchInfo) (expired : bool) :
  let σ := run calls deployed in
  getSwitch id σ = Ok info →
  isExpired env id σ = Ok expired →
  block_numberU256 env < 2 ^ 256 →
  let status := parseStatus (Z.of_N (info_status info)) in
  (showTriggerCard expired status = true ↔ succeeds (trigger env id σ))
  ∧ showCancelledAlert status = false.
Proof.
  intros σ. unfold getSwitch.
  guard_exists id (storage σ); [|discriminate].
  intros Hget Hexp Hblk.
  apply Ok_inj in Hget. subst info. cbn [info_status].
  rewrite isExpired_eq in Hexp by done.
  destruct (SafeMath_add _ _) as [d|] eqn:Hadd; [|discriminate].
  rewrite bind_Ok in Hexp. apply Ok_inj in Hexp. subst expired.
  apply SafeMath_add_inv in Hadd as [-> Hfit]; [|apply getU256_range].
  rewrite (trigger_succeeds_iff env id σ Hblk).
  destruct (run_status_set id calls deployed) as [Hs | Hs];
    [left; apply status_deployed| |]; fold σ in Hs; rewrite Hs.
  - split; [|done]. change (parseStatus (Z.of_N STATUS_ACTIVE)) with ACTIVE.
    unfold showTriggerCard. rewrite bool_decide_eq_true_2 by done.
    rewrite andb_true_r, N.ltb_lt. split; [|tauto].
    intros Hlt. split; [done|]. split; [by vm_compute|].
    split; [by vm_compute|done].
  - split; [|done].
    change (parseStatus (Z.of_N STATUS_TRIGGERED)) with TRIGGERED.
    unfold showTriggerCard. rewrite bool_decide_eq_false_2 by done.
    rewrite andb_false_r. split; [done|]. intros (_ & Hnt & _). done.
Qed.

Lemma trigger_card_iff_trigger_witness :
  showTriggerCard true ACTIVE = true
  ↔ succeeds (trigger (envAt carol 101) 1
                (run [(envAt alice 90, CreateSwitch bob 10 5)] deployed)).
Proof.
  destruct (getSwitch 1 (run [(envAt alice 90, CreateSwitch bob 10 5)]
                           deployed)) as [info|] eqn:Hget;
    [|by vm_compute in Hget].
  assert (isExpired (envAt carol 101) 1
            (run [(envAt alice 90, CreateSwitch bob 10 5)] deployed)
          = Ok true) as Hexp by (by vm_compute).
  assert (block_numberU256 (envAt carol 101) < 2 ^ 256) as Hblk
    by (by vm_compute).
  destruct (trigger_card_iff_trigger _ _ _ _ _ Hget Hexp Hblk) as [H _].
  assert (parseStatus (Z.of_N (info_status info)) = ACTIVE) as Hst.
  { vm_compute in Hget. apply Ok_inj in Hget. by subst info. }
  by rewrite Hst in H.
Defined.

(** The countdown bar is always drawn full: whatever the last
    check-in and the interval, the fill is 100 percent and the colour
    is never the safe one. *)
Theorem CountdownBar_always_full (lastCheckin interval : Z)
    (isExpired : bool) :
  interval ≠ 0%Z →
  CountdownBar lastCheckin interval isExpired
  = Some ((lastCheckin + interval)%Z, 100%Z,
          if isExpired then BarExpired else BarWarning).
Proof.
  intros Hi. unfold CountdownBar.
  destruct (Z.eqb_spec interval 0) as [|_]; [done|]. cbv zeta.
  destruct isExpired; [done|].
  rewrite Z.mul_comm, Z.quot_mul by done. done.
Qed.

Lemma CountdownBar_always_full_witness :
  CountdownBar 90 10 false = Some (100%Z, 100%Z, BarWarning).
Proof. apply (CountdownBar_always_full 90 10 false). done. Defined.

(** ** When the stores return *)

(** [storeData] returns exactly when the switch exists, the caller is
    its owner, it is ACTIVE, the data is not empty and at most
    256*32-4 bytes long, and the chunk index is not the largest
    [u256]; [storeDecryptionKey] the same without the index. *)
Theorem stores_succeed_iff (env : Env) (id idx : N) (d : list byte)
    (σ : State) :
  N.of_nat (length d) < 2 ^ 32 → idx < 2 ^ 256 →
  (succeeds (storeData env id idx d σ)
   ↔ switchExists id (storage σ)
     ∧ tx_sender env = loadSwitchOwner id (storage σ)
     ∧ loadSwitchStatus id (storage σ) = STATUS_ACTIVE
     ∧ d ≠ []
     ∧ N.of_nat (length d) ≤ MAX_BYTE_SLOTS * 32 - 4
     ∧ idx + 1 < 2 ^ 256)
  ∧ (succeeds (storeDecryptionKey env id d σ)
     ↔ switchExists id (storage σ)
       ∧ tx_sender env = loadSwitchOwner id (storage σ)
       ∧ loadSwitchStatus id (storage σ) = STATUS_ACTIVE
       ∧ d ≠ []
       ∧ N.of_nat (length d) ≤ MAX_BYTE_SLOTS * 32 - 4).
Proof.
  intros H32 Hidx. change (MAX_BYTE_SLOTS * 32 - 4) with 8188.
  unfold storeData, storeDecryptionKey.
  guard_exists id (storage σ);
    [|split; (split; [by intros [r Hr]|tauto])].
  guard_owner env id (storage σ);
    [|split; (split; [by intros [r Hr]|tauto])].
  guard_active id (storage σ);
    [|split; (split; [by intros [r Hr]|tauto])].
  destruct d as [|b d'] eqn:Hd.
  { cbn [length Nat.eqb]. split; (split; [by intros [r Hr]|tauto]). }
  rewrite <- Hd in *.
  assert ((length d =? 0)%nat = false) as -> by (by rewrite Hd).
  assert (d ≠ []) as Hne by (by rewrite Hd).
  destruct (N.lt_ge_cases 8188 (N.of_nat (length d))) as [Hover|Hfit].
  { rewrite !storeMultiSlotBytes_over by done. rbind.
    split; (split; [by intros [r Hr]|intros; lia]). }
  destruct (storeMultiSlotBytes_fits switchDataChunksPointer
              (compoundSubPointer id idx) d (storage σ) Hfit)
    as (st1 & -> & _).
  destruct (storeMultiSlotBytes_fits switchEncryptedKeyPointer
              (u256ToSubPointer id) d (storage σ) Hfit)
    as (st2 & -> & _).
  rbind. split.
  - destruct (N.lt_ge_cases (idx + 1) (2 ^ 256)) as [Hi|Hi].
    + rewrite SafeMath_add_Ok by done. rbind.
      split; [done|]. intros _. by eexists.
    + rewrite SafeMath_add_overflow by done. rbind.
      split; [by intros [r Hr]|intros; lia].
  - split; [done|]. intros _. by eexists.
Qed.

Lemma stores_succeed_iff_witness :
  succeeds (storeData (envAt alice 101) 1 0 (map u8 [97; 98; 99])
              createdState)
  ∧ ¬ succeeds (storeData (envAt alice 101) 1 0 [] createdState).
Proof.
  split.
  - destruct (stores_succeed_iff (envAt alice 101) 1 0 (map u8 [97; 98; 99])
                createdState) as [H _]; [by vm_compute..|].
    apply H. repeat split; by vm_compute.
  - destruct (stores_succeed_iff (envAt alice 101) 1 0 [] createdState)
      as [H _]; [by vm_compute..|].
    intros Hs. apply H in Hs. by destruct Hs as (_ & _ & _ & Hne & _).
Defined.
